(** * Filter-effects dialog: the primitive list's connection graph

    A shallow embedding of the connection logic of
    [src/ui/dialog/filter-effects-dialog.cpp]: [input_count],
    [PrimitiveList::find_result], [PrimitiveList::draw_connection],
    [PrimitiveList::do_connection_node], [check_single_connection],
    [PrimitiveList::sanitize_connections] and the connection part of
    [PrimitiveList::on_button_release_event].

    C++ [int]s are modelled as [Z].  No arithmetic of the modelled functions
    can leave the 32-bit range on values a document can hold (slot numbers,
    child counts, screen coordinates), so no wrap-around is written out.
    C++ [float]s are IEEE 754 single-precision numbers, with the rounding of
    every conversion and operation written out.
    Rows of the list store ([Gtk::TreeIter]) are positions ([nat]) in the
    list of primitives; the past-the-end iterator is the length of the list. *)

From Stdlib Require Import ZArith Lia Bool DecimalString SpecFloat.
From stdpp Require Import base list strings gmap.

Local Open Scope Z_scope.

(** ** Objects *)

(** A child object of a primitive.  [feMerge] keeps its inputs in
    [feMergeNode] children, each with one [input] slot number. *)
Inductive SPObject : Type :=
  | SPFeMergeNode (input : Z)
  | SPOtherObject.

(** The run-time type of a primitive, with the fields the subclass adds:
    [in2] for the three two-input primitives. *)
Inductive PrimitiveType : Type :=
  | FEBLEND (in2 : Z)
  | FECOLORMATRIX
  | FECOMPONENTTRANSFER
  | FECOMPOSITE (in2 : Z)
  | FECONVOLVEMATRIX
  | FEDIFFUSELIGHTING
  | FEDISPLACEMENTMAP (in2 : Z)
  | FEFLOOD
  | FEGAUSSIANBLUR
  | FEIMAGE
  | FEMERGE
  | FEMORPHOLOGY
  | FEOFFSET
  | FESPECULARLIGHTING
  | FETILE
  | FETURBULENCE.

Record SPFilterPrimitive : Type := mkPrim {
  prim_type : PrimitiveType;
  image_in : Z;
  image_out : Z;
  children : list SPObject
}.

Definition SP_IS_FEBLEND (prim : SPFilterPrimitive) : bool :=
  match prim_type prim with FEBLEND _ => true | _ => false end.
Definition SP_IS_FECOMPOSITE (prim : SPFilterPrimitive) : bool :=
  match prim_type prim with FECOMPOSITE _ => true | _ => false end.
Definition SP_IS_FEDISPLACEMENTMAP (prim : SPFilterPrimitive) : bool :=
  match prim_type prim with FEDISPLACEMENTMAP _ => true | _ => false end.
Definition SP_IS_FEMERGE (prim : SPFilterPrimitive) : bool :=
  match prim_type prim with FEMERGE => true | _ => false end.
Definition SP_IS_FEMERGENODE (o : SPObject) : bool :=
  match o with SPFeMergeNode _ => true | SPOtherObject => false end.

(** ** Single-precision arithmetic *)

(** A C++ [float]: IEEE 754 binary32, that is the Standard Library's
    specification of floating-point numbers at 24 bits of precision with
    exponents below 128.  Each operation gives the float nearest to the exact
    result, ties to the even mantissa; an expression is evaluated operation
    by operation, each intermediate result being a [float]. *)
Definition float : Type := spec_float.

(** The conversion of an [int] operand that meets a [float] one. *)
Definition float_of_int (n : Z) : float := binary_normalize 24 128 n 0 false.

Definition float_add : float -> float -> float := SFadd 24 128.
Definition float_sub : float -> float -> float := SFsub 24 128.
Definition float_mul : float -> float -> float := SFmul 24 128.
Definition float_div : float -> float -> float := SFdiv 24 128.

(** [x >= y] on floats. *)
Definition float_ge (x y : float) : bool := SFleb y x.

(** The cast [(int)f]: the fraction is dropped (truncation toward zero).
    The cast of an infinity or a NaN is undefined; neither can come from
    operations on [int] operands, and the model gives 0. *)
Definition int_of_float (f : float) : Z :=
  match f with
  | S754_finite s m e => cond_Zopp s (Z.shiftl (Zpos m) e)
  | _ => 0
  end.

(** The literal [0.5f]. *)
Definition float_0_5 : float := S754_finite false 8388608 (-24).

Section Dialog.

(** ** [input_count] *)

(** The loop [for(o = prim->firstChild(); o; o = o->next, ++count);]. *)
Fixpoint count_children (o : list SPObject) (count : Z) : Z :=
  match o with
  | [] => count
  | _ :: next => count_children next (count + 1)
  end.

(** [prim] is a pointer: [None] is the null pointer. *)
Definition input_count (prim : option SPFilterPrimitive) : Z :=
  match prim with
  | None => 0
  | Some prim =>
      if SP_IS_FEBLEND prim || SP_IS_FECOMPOSITE prim || SP_IS_FEDISPLACEMENTMAP prim
      then 2
      else if SP_IS_FEMERGE prim
      then count_children (children prim) 1
      else 1
  end.

(** ** [find_result] *)

(** The two values of the attribute enumeration that name the slots of an
    ordinary primitive.  The header that declares the enumeration is not part
    of the source tree, so the values are parameters; all that is used of
    them is that they are two different enumerators. *)
Variable SP_ATTR_IN SP_ATTR_IN2 : Z.
Hypothesis SP_ATTR_distinct : SP_ATTR_IN <> SP_ATTR_IN2.

(** The loop over the children of a [feMerge]: [image] is assigned (and
    [found] set) at the child whose index [c] is [attr], when that child is a
    [feMergeNode].  [None] is "[found] is still false". *)
Fixpoint merge_node_input (o : list SPObject) (c attr : Z) (image : option Z)
  : option Z :=
  match o with
  | [] => image
  | o1 :: next =>
      merge_node_input next (c + 1) attr
        (match o1 with
         | SPFeMergeNode input => if c =? attr then Some input else image
         | SPOtherObject => image
         end)
  end.

(** First half of [find_result]: the slot number stored in input [attr] of
    [prim]; [None] where the function returns the end iterator at once. *)
Definition slot_image (prim : SPFilterPrimitive) (attr : Z) : option Z :=
  if SP_IS_FEMERGE prim then merge_node_input (children prim) 0 attr None
  else if attr =? SP_ATTR_IN then Some (image_in prim)
  else if attr =? SP_ATTR_IN2 then
    match prim_type prim with
    | FEBLEND in2 => Some in2
    | FECOMPOSITE in2 => Some in2
    | FEDISPLACEMENTMAP in2 => Some in2
    | _ => None
    end
  else None.

(** The loop [for(i = begin; i != start; ++i) if(i->image_out == image) target = i;]
    over the rows before [start]; [i] is the position of the head of [rows]. *)
Fixpoint scan_results (rows : list SPFilterPrimitive) (i : nat) (image : Z)
    (target : nat) : nat :=
  match rows with
  | [] => target
  | prim :: rest =>
      scan_results rest (S i) image
        (if image_out prim =? image then i else target)
  end.

(** [find_result start attr src_id] returns the iterator and the value left
    in the reference parameter [src_id].  The end iterator: no result; [start]
    itself: a standard input, its number in [src_id]; an earlier row: the
    primitive whose result is used. *)
Definition find_result (model : list SPFilterPrimitive) (start : nat)
    (attr : Z) (src_id : Z) : nat * Z :=
  let target := length model in
  match model !! start with
  | None => (target, src_id)
  | Some prim =>
      match slot_image prim attr with
      | None => (target, src_id)
      | Some image =>
          if image >=? 0 then
            (scan_results (take start model) 0 image target, src_id)
          else if image <? -1 then (start, - (image + 2))
          else (target, src_id)
      end
  end.

(** [find_index]: the number of steps from the first row to [target]. *)
Fixpoint find_index (target : nat) : Z :=
  match target with
  | O => 0
  | S iter => find_index iter + 1
  end.

(** ** The reference codec *)

Inductive InputReference : Type :=
  | Unspecified
  | StandardSource (index : Z)
  | NamedResult (output_id : Z).

(** The case analysis [find_result] makes on a stored slot number. *)
Definition decode_image (image : Z) : InputReference :=
  if image >=? 0 then NamedResult image
  else if image <? -1 then StandardSource (- (image + 2))
  else Unspecified.

(** [None] is an attribute that is absent. *)
Definition decode (raw : option Z) : InputReference :=
  match raw with
  | None => Unspecified
  | Some image => decode_image image
  end.

(** Modelled from the spec: the encoder, which the dialog does not have (it
    writes attribute strings, and the object layer that turns them into slot
    numbers is not in the source tree).  "Inverse mapping; Unspecified ->
    absent attribute". *)
Definition encode (r : InputReference) : option Z :=
  match r with
  | Unspecified => None
  | StandardSource index => Some (- (index + 2))
  | NamedResult output_id => Some output_id
  end.

(** References as the data model has them: result numbers and standard
    source indices are non-negative. *)
Definition valid_reference (r : InputReference) : Prop :=
  match r with
  | Unspecified => True
  | StandardSource index => 0 <= index
  | NamedResult output_id => 0 <= output_id
  end.

(** The legal raw values: absent, [>= 0], or [< -1]. *)
Definition legal_raw (raw : option Z) : Prop :=
  match raw with
  | None => True
  | Some image => 0 <= image \/ image < -1
  end.

(** ** [draw_connection] *)

Record Rectangle : Type := mkRect {
  rect_x : Z; rect_y : Z; rect_width : Z; rect_height : Z
}.

(** The two graphics contexts of [draw_connection]: [darkgc] is the style's
    black GC, [lightgc] its dark GC for the normal state. *)
Inductive GdkGC : Type := black_gc | dark_gc_normal.

Inductive DrawOp : Type :=
  | draw_rectangle (gc : GdkGC) (filled : bool) (x y width height : Z)
  | draw_line (gc : GdkGC) (x1 y1 x2 y2 : Z).

Definition op_gc (op : DrawOp) : GdkGC :=
  match op with
  | draw_rectangle gc _ _ _ _ _ => gc
  | draw_line gc _ _ _ _ => gc
  end.

(** What the widget toolkit supplies: the constant [CellRendererConnection::size],
    the text width of the connection cell, and the cell area of each row in
    the connections column. *)
Variable CellRendererConnection_size : Z.
Variable text_width : Z.
Variable get_cell_area : nat -> Rectangle.

Definition iter_valid (model : list SPFilterPrimitive) (iter : nat) : bool :=
  (iter <? length model)%nat.

Definition row_is_merge (model : list SPFilterPrimitive) (iter : nat) : bool :=
  match model !! iter with
  | Some prim => SP_IS_FEMERGE prim
  | None => false
  end.

(** The first branch: a straight line to the column of standard input
    [src_id].  [(int)(tw * 0.5f)] is a single-precision product, cast back. *)
Definition straight_connection (gc : GdkGC) (src_id text_start_x x1 y1 : Z)
  : list DrawOp :=
  let tw := text_width in
  let end_x := text_start_x + tw * (src_id + 1)
               + int_of_float (float_mul (float_of_int tw) float_0_5) + 1 in
  [ draw_rectangle gc true (end_x - 2) (y1 - 2) 5 5;
    draw_line gc x1 y1 end_x y1 ].

(** The three [draw_line] calls of the bevelled 'L': each is passed
    [get_style()->get_black_gc()], not the local [gc]. *)
Definition L_shaped_connection (res : nat) (x1 y1 row_count : Z) : list DrawOp :=
  let rct := get_cell_area res in
  let fheight := CellRendererConnection_size in
  let row_index := find_index res in
  let x2 := rect_x rct + fheight * (row_count - row_index) - Z.quot fheight 2 in
  let y2 := rect_y rct + rect_height rct in
  [ draw_line black_gc x1 y1 (x2 - Z.quot fheight 4) y1;
    draw_line black_gc (x2 - Z.quot fheight 4) y1 x2 (y1 - Z.quot fheight 4);
    draw_line black_gc x2 (y1 - Z.quot fheight 4) x2 y2 ].

Definition draw_connection (model : list SPFilterPrimitive) (input : nat)
    (attr text_start_x x1 y1 row_count : Z) : list DrawOp :=
  let '(res, src_id) := find_result model input attr 0 in
  let darkgc := black_gc in
  let lightgc := dark_gc_normal in
  let is_first := (input =? 0)%nat in
  let is_merge := row_is_merge model input in
  let use_default := negb (iter_valid model res) && negb is_merge in
  if (res =? input)%nat || (use_default && is_first) then
    let gc := if use_default && is_first then lightgc else darkgc in
    straight_connection gc src_id text_start_x x1 y1
  else
    let gc := if use_default then lightgc else darkgc in
    let res := if use_default then (input - 1)%nat else res in
    if iter_valid model res then L_shaped_connection res x1 y1 row_count
    else [].

(** The source a slot is connected to, as [draw_connection] decides it from
    the answer of [find_result]. *)
Inductive ResolvedSource : Type :=
  | Producer (node : nat)
  | Standard (index : Z)
  | ImplicitPrevious (node : option nat)
  | Unresolved.

Definition resolve (model : list SPFilterPrimitive) (input : nat) (attr : Z)
  : ResolvedSource :=
  let '(res, src_id) := find_result model input attr 0 in
  let is_first := (input =? 0)%nat in
  let is_merge := row_is_merge model input in
  let use_default := negb (iter_valid model res) && negb is_merge in
  if (res =? input)%nat then Standard src_id
  else if use_default && is_first then ImplicitPrevious None
  else if use_default then ImplicitPrevious (Some (input - 1)%nat)
  else if iter_valid model res then Producer res
  else Unresolved.

(** ** [do_connection_node] *)

(** [(int)(fheight * 0.35f)], a single-precision product, is taken as given. *)
Variable con_w : Z.

(** The triangle of slot [input] of row [row] and whether [(ix, iy)] is inside
    it.  [h] is the integer quotient [rct.get_height() / icnt] stored in a
    [float]; [None] is the division by zero.  [con_y] is computed in [float]
    ([rct.get_y()], [2], [con_w] and [input] are converted as they meet [h])
    and cast back to [int]; so is [x - h], which [ix] is compared with as a
    [float].  The other three comparisons are between [int]s. *)
Definition do_connection_node (model : list SPFilterPrimitive) (row : nat)
    (input ix iy : Z) : option (list (Z * Z) * bool) :=
  let icnt := input_count (model !! row) in
  let fheight := CellRendererConnection_size in
  let rct := get_cell_area row in
  if icnt =? 0 then None
  else
    let h := float_of_int (Z.quot (rect_height rct) icnt) in
    let x := rect_x rct + fheight * (Z.of_nat (length model) - find_index row) in
    let con_y :=
      int_of_float
        (float_add
           (float_sub
              (float_add (float_of_int (rect_y rct))
                         (float_div h (float_of_int 2)))
              (float_of_int con_w))
           (float_mul (float_of_int input) h)) in
    let points := [ (x, con_y); (x, con_y + con_w * 2); (x - con_w, con_y + con_w) ] in
    Some (points,
          float_ge (float_of_int ix) (float_sub (float_of_int x) h)
          && (iy >=? con_y) && (ix <=? x) && (iy <=? con_y + con_w * 2)).

(** ** [check_single_connection] and [sanitize_connections] *)

(** Modelled from the spec: the slot number an input has once its attribute
    is removed.  The object layer that re-reads the attribute is not in the
    source tree; the spec has the document store act at once and an absent
    attribute decode to Unspecified, and [-1] is the one number that
    [find_result] treats so. *)
Definition NR_FILTER_SLOT_NOT_SET : Z := -1.

(** [SP_OBJECT_REPR(prim)->setAttribute("in", 0)] *)
Definition remove_in (prim : SPFilterPrimitive) : SPFilterPrimitive :=
  mkPrim (prim_type prim) NR_FILTER_SLOT_NOT_SET (image_out prim) (children prim).

Definition set_prim_type (prim : SPFilterPrimitive) (t : PrimitiveType)
  : SPFilterPrimitive :=
  mkPrim t (image_in prim) (image_out prim) (children prim).

Definition check_single_connection (prim : SPFilterPrimitive) (result : Z)
  : SPFilterPrimitive :=
  if result >=? 0 then
    let prim := if image_in prim =? result then remove_in prim else prim in
    match prim_type prim with
    | FEBLEND in2 =>
        if in2 =? result then set_prim_type prim (FEBLEND NR_FILTER_SLOT_NOT_SET)
        else prim
    | FECOMPOSITE in2 =>
        if in2 =? result then set_prim_type prim (FECOMPOSITE NR_FILTER_SLOT_NOT_SET)
        else prim
    | FEDISPLACEMENTMAP in2 =>
        if in2 =? result
        then set_prim_type prim (FEDISPLACEMENTMAP NR_FILTER_SLOT_NOT_SET)
        else prim
    | _ => prim
    end
  else prim.

(** The two ways the check reads: on one slot number, and on the [in2] of
    the primitives that have one (used to state what the check does). *)
Definition cleared (result x : Z) : Z :=
  if x =? result then NR_FILTER_SLOT_NOT_SET else x.

Definition map_in2 (f : Z -> Z) (t : PrimitiveType) : PrimitiveType :=
  match t with
  | FEBLEND in2 => FEBLEND (f in2)
  | FECOMPOSITE in2 => FECOMPOSITE (f in2)
  | FEDISPLACEMENTMAP in2 => FEDISPLACEMENTMAP (f in2)
  | t => t
  end.

(** One turn of the loop of [sanitize_connections]; the state is the list of
    primitives and the flag [before].  [prim] and [cur_prim] are read from the
    current list, since the objects are changed in place. *)
Definition sanitize_step (prim_iter : nat)
    (st : list SPFilterPrimitive * bool) (iter : nat)
  : list SPFilterPrimitive * bool :=
  let '(model, before) := st in
  if (iter =? prim_iter)%nat then (model, false)
  else
    match model !! prim_iter, model !! iter with
    | Some prim, Some cur_prim =>
        if before
        then (<[iter := check_single_connection cur_prim (image_out prim)]> model, before)
        else (<[prim_iter := check_single_connection prim (image_out cur_prim)]> model, before)
    | _, _ => (model, before)
    end.

Definition sanitize_connections (model : list SPFilterPrimitive) (prim_iter : nat)
  : list SPFilterPrimitive :=
  fst (foldl (sanitize_step prim_iter) (model, true) (seq 0 (length model))).

(** ** The connection part of [on_button_release_event] *)

(** The release handler works on the XML nodes of the primitives: it reads
    and writes attribute strings.  A [feMergeNode] child carries [in] and
    the [inkscape:collect] mark the handler gives the nodes it creates. *)
Inductive ChildRepr : Type :=
  | FeMergeNodeRepr (collect : option string) (attr_in : option string)
  | OtherRepr.

Record PrimitiveRepr : Type := mkRepr {
  repr_is_femerge : bool;
  attr_result : option string;
  repr_in : option string;
  repr_in2 : option string;
  repr_children : list ChildRepr
}.

(** The fields of the list and of the dialog the handler uses: the rows, the
    selected row, the slot being dragged ([0]: none) and the dialog's
    attribute lock. *)
Record PrimitiveList : Type := mkList {
  _model : list PrimitiveRepr;
  selected : option nat;
  _in_drag : Z;
  _locked : bool
}.

(** What the toolkit reports for the release: the row under the pointer, if
    any ([get_path_at_pos]), the pointer's x inside that cell and the width
    of the cell. *)
Record ReleaseEvent : Type := mkRelease {
  path_at_pos : option nat;
  cx : Z;
  cell_width : Z
}.

(** The table of standard inputs ([FPInputConverter]) and the number
    formatter [Glib::Ascii::dtostr], declared outside the source tree. *)
Variable FPInputConverter_end : Z.
Variable FPInputConverter_get_key : Z -> string.
Variable dtostr : Z -> string.

Definition set_result (target : PrimitiveRepr) (val : option string) : PrimitiveRepr :=
  mkRepr (repr_is_femerge target) val (repr_in target) (repr_in2 target)
         (repr_children target).
Definition set_in (prim : PrimitiveRepr) (val : option string) : PrimitiveRepr :=
  mkRepr (repr_is_femerge prim) (attr_result prim) val (repr_in2 prim)
         (repr_children prim).
Definition set_in2 (prim : PrimitiveRepr) (val : option string) : PrimitiveRepr :=
  mkRepr (repr_is_femerge prim) (attr_result prim) (repr_in prim) val
         (repr_children prim).
Definition set_children (prim : PrimitiveRepr) (c : list ChildRepr) : PrimitiveRepr :=
  mkRepr (repr_is_femerge prim) (attr_result prim) (repr_in prim) (repr_in2 prim) c.

(** [FilterEffectsDialog::set_attr] on a [feMergeNode]: nothing is written
    while the dialog is locked.  (The filter, the attribute name and the
    object are not null where the handler calls it.) *)
Definition set_attr_child (locked : bool) (o : ChildRepr) (val : option string)
  : ChildRepr :=
  if locked then o
  else match o with
       | FeMergeNodeRepr collect _ => FeMergeNodeRepr collect val
       | OtherRepr => OtherRepr
       end.

Definition is_femergenode (o : ChildRepr) : bool :=
  match o with FeMergeNodeRepr _ _ => true | OtherRepr => false end.

(** The standard input under the pointer, right of [sources_x]. *)
Definition source_under_pointer (e : ReleaseEvent) (sources_x twidth : Z) : string :=
  let src := Z.quot (cx e - sources_x) twidth in
  let src := if src <? 0 then 0
             else if src >=? FPInputConverter_end then FPInputConverter_end - 1
             else src in
  FPInputConverter_get_key src.

(** The loop [for(iter = begin; iter != selected; ++iter) if(iter == target_iter) ...]
    over the rows before the selected one: is [target_iter] met? *)
Fixpoint target_before (rows : list nat) (target_iter : nat) : bool :=
  match rows with
  | [] => false
  | iter :: rest =>
      if (iter =? target_iter)%nat then true else target_before rest target_iter
  end.

(** The branch for a release left of the standard inputs: the rows and
    [in_val].  A target without [result] is given one first. *)
Definition result_of_target (model : list PrimitiveRepr) (sel target_iter : nat)
    (_image_number_next : Z) : list PrimitiveRepr * option string :=
  if target_before (seq 0 sel) target_iter then
    match model !! target_iter with
    | Some target =>
        match attr_result target with
        | None =>
            let result := String.append "result" (dtostr _image_number_next) in
            (<[target_iter := set_result target (Some result)]> model, Some result)
        | Some gres => (model, Some gres)
        end
    | None => (model, None)
    end
  else (model, None).

(** The loop over the children of the selected [feMerge], [c] counting from
    1: the children afterwards, [handled], and [c] when the loop ends. *)
Fixpoint merge_release_loop (locked : bool) (in_drag : Z) (in_val : option string)
    (o : list ChildRepr) (c : Z) : list ChildRepr * bool * Z :=
  match o with
  | [] => ([], false, c)
  | o1 :: next =>
      if (c =? in_drag) && is_femergenode o1 then
        (match in_val with
         | None => next
         | Some _ => set_attr_child locked o1 in_val :: next
         end, true, c + 1)
      else
        let '(next', handled, c') :=
          merge_release_loop locked in_drag in_val next (c + 1) in
        (o1 :: next', handled, c')
  end.

(** [if(SP_IS_FEMERGE(prim)) { ... }]: the loop, then "Add new input?". *)
Definition release_on_merge (locked : bool) (in_drag : Z) (in_val : option string)
    (o : list ChildRepr) : list ChildRepr :=
  let '(o', handled, c) := merge_release_loop locked in_drag in_val o 1 in
  if negb handled && (c =? in_drag) && bool_decide (is_Some in_val) then
    o' ++ [set_attr_child locked (FeMergeNodeRepr (Some "always") None) in_val]
  else o'.

(** Lines 1715-1749: the write to the selected primitive. *)
Definition commit_connection (locked : bool) (in_drag : Z) (in_val : option string)
    (prim : PrimitiveRepr) : PrimitiveRepr :=
  if repr_is_femerge prim then
    set_children prim (release_on_merge locked in_drag in_val (repr_children prim))
  else if in_drag =? 1 then (if locked then prim else set_in prim in_val)
  else if in_drag =? 2 then (if locked then prim else set_in2 prim in_val)
  else prim.

Definition on_button_release_event (l : PrimitiveList) (e : ReleaseEvent)
    (_image_number_next : Z) : PrimitiveList :=
  match selected l with
  | Some sel =>
      if negb (_in_drag l =? 0) && bool_decide (is_Some (_model l !! sel)) then
        match path_at_pos e with
        | Some target_iter =>
            let twidth := text_width in
            let sources_x := cell_width e - twidth * FPInputConverter_end in
            let '(model, in_val) :=
              if cx e >? sources_x
              then (_model l, Some (source_under_pointer e sources_x twidth))
              else result_of_target (_model l) sel target_iter _image_number_next in
            let model :=
              match model !! sel with
              | Some prim =>
                  <[sel := commit_connection (_locked l) (_in_drag l) in_val prim]> model
              | None => model
              end in
            mkList model (selected l) 0 (_locked l)
        | None => mkList (_model l) (selected l) 0 (_locked l)
        end
      else l
  | None => l
  end.

(** The second input of the primitives that have one, and "an [in] or [in2]
    of [prim] names result [result]" (to state what the pass achieves). *)
Definition in2_of (t : PrimitiveType) : option Z :=
  match t with
  | FEBLEND in2 => Some in2
  | FECOMPOSITE in2 => Some in2
  | FEDISPLACEMENTMAP in2 => Some in2
  | _ => None
  end.

Definition uses_result (prim : SPFilterPrimitive) (result : Z) : Prop :=
  image_in prim = result \/ in2_of (prim_type prim) = Some result.

(** ** [get_size_vfunc] and [on_button_press_event] *)

(** [CellRendererConnection::get_size_vfunc]: the width and the height asked
    for the connection cell of a row; [_primitive] is the primitive of the
    row, [primitive_count()] the number of rows. *)
Definition get_size_vfunc (model : list SPFilterPrimitive)
    (_primitive : option SPFilterPrimitive) : Z * Z :=
  (CellRendererConnection_size * Z.of_nat (length model) + text_width * 7,
   CellRendererConnection_size * input_count _primitive).

(** Whether [do_connection_node] answers true for slot [input] of [row]. *)
Definition inside_connection_node (model : list SPFilterPrimitive) (row : nat)
    (input x y : Z) : bool :=
  match do_connection_node model row input x y with
  | Some (_, inside) => inside
  | None => false
  end.

(** The loop [for(i = 0; i < icnt; ++i) if(do_connection_node(...)) { _in_drag = i + 1; break; }]
    with [count] turns left. *)
Fixpoint press_loop (model : list SPFilterPrimitive) (row : nat) (x y : Z)
    (i : Z) (count : nat) (_in_drag : Z) : Z :=
  match count with
  | O => _in_drag
  | S count' =>
      if inside_connection_node model row i x y then i + 1
      else press_loop model row x y (i + 1) count' _in_drag
  end.

(** [on_button_press_event]: the new [_in_drag], the row of [_drag_prim], and
    whether the handler keeps the event (it then selects the row and starts
    the scroll timer) or hands it to the tree view.  [path] is the row under
    the pointer, if any. *)
Definition on_button_press_event (model : list SPFilterPrimitive)
    (_in_drag : Z) (path : option nat) (x y : Z) : Z * option nat * bool :=
  let '(_in_drag, _drag_prim) :=
    match path with
    | Some row =>
        let icnt := input_count (model !! row) in
        (press_loop model row x y 0 (Z.to_nat icnt) _in_drag, Some row)
    | None => (_in_drag, None)
    end in
  (_in_drag, _drag_prim, negb (_in_drag =? 0)).

(** ** The rows of the list: [update], [get_selected], [select], [remove_selected] *)

(** A child of the selected filter: its address and whether it is a filter
    primitive.  A row of the list holds the address of its primitive. *)
Record FilterChild : Type := mkChild {
  child_address : nat;
  SP_IS_FILTER_PRIMITIVE : bool
}.

(** The list store and the selection of the tree view (a row number). *)
Record PrimitiveRows : Type := mkRows {
  primitive_rows : list nat;
  selected_row : option nat
}.

(** [get_selected]; [f] is [get_selected_filter()], the children of the
    selected filter, [None] when no filter is selected. *)
Definition get_selected (f : option (list FilterChild)) (l : PrimitiveRows)
  : option nat :=
  match f with
  | Some _ =>
      match selected_row l with
      | Some i => primitive_rows l !! i
      | None => None
      end
  | None => None
  end.

(** The loop of [update] over the children of the filter: it stops at the
    first child that is not a filter primitive. *)
Fixpoint update_loop (prim_obj : list FilterChild) (active_prim : option nat)
    (l : PrimitiveRows) (active_found : bool) : PrimitiveRows * bool :=
  match prim_obj with
  | [] => (l, active_found)
  | o :: next =>
      if SP_IS_FILTER_PRIMITIVE o then
        let row := length (primitive_rows l) in
        let rows := primitive_rows l ++ [child_address o] in
        if bool_decide (Some (child_address o) = active_prim)
        then update_loop next active_prim (mkRows rows (Some row)) true
        else update_loop next active_prim (mkRows rows (selected_row l)) active_found
      else (l, active_found)
  end.

Definition update (f : option (list FilterChild)) (l : PrimitiveRows)
  : PrimitiveRows :=
  let active_prim := get_selected f l in
  let cleared := mkRows [] None in
  match f with
  | Some children =>
      let '(l, active_found) := update_loop children active_prim cleared false in
      if negb active_found && bool_decide (primitive_rows l <> [])
      then mkRows (primitive_rows l) (Some 0%nat)
      else l
  | None => cleared
  end.

(** [select(prim)]: every row that holds [prim] is selected in turn. *)
Fixpoint select_loop (rows : list nat) (i : nat) (prim : nat)
    (selection : option nat) : option nat :=
  match rows with
  | [] => selection
  | p :: rest =>
      select_loop rest (S i) prim (if bool_decide (p = prim) then Some i else selection)
  end.

Definition select (prim : nat) (l : PrimitiveRows) : PrimitiveRows :=
  mkRows (primitive_rows l) (select_loop (primitive_rows l) 0 prim (selected_row l)).

(** [sp_repr_unparent(prim->repr)]: the object leaves the children of its
    parent. *)
Definition sp_repr_unparent (prim : nat) (children : list FilterChild)
  : list FilterChild :=
  filter (fun o => child_address o <> prim) children.

(** [remove_selected]: the children of the filter and the list afterwards. *)
Definition remove_selected (f : option (list FilterChild)) (l : PrimitiveRows)
  : option (list FilterChild) * PrimitiveRows :=
  match get_selected f l with
  | Some prim =>
      let f := sp_repr_unparent prim <$> f in
      (f, update f l)
  | None => (f, l)
  end.

(** The children [update] reaches: those before the first child that is not
    a filter primitive (used to state what the list shows). *)
Fixpoint leading_primitives (prim_obj : list FilterChild) : list FilterChild :=
  match prim_obj with
  | [] => []
  | o :: next =>
      if SP_IS_FILTER_PRIMITIVE o then o :: leading_primitives next else []
  end.

(** ** [FilterModifier::update_selection] *)

(** An object of the selection, with what the handler reads of it: whether it
    has a style, whether it is an item, [style->filter.set] and the address
    [style->getFilter()] returns ([None]: null). *)
Record SelectedObject : Type := mkObject {
  has_style : bool;
  SP_IS_ITEM : bool;
  filter_set : bool;
  getFilter : option nat
}.

(** A row of the filter list: the address of the filter and its [sel]. *)
Record FilterRow : Type := mkFilterRow {
  row_filter : nat;
  row_sel : Z
}.

Record FilterList : Type := mkFilterList {
  filter_rows : list FilterRow;
  filter_selected : option nat
}.

(** An object is skipped ([continue]) unless it has a style and is an item;
    otherwise its filter goes into [used], or null when it has none. *)
Definition counted (obj : SelectedObject) : bool :=
  has_style obj && SP_IS_ITEM obj.

Definition inserted_filter (obj : SelectedObject) : option nat :=
  if filter_set obj && bool_decide (is_Some (getFilter obj))
  then getFilter obj
  else None.

(** The set [used] after the loop over the selection. *)
Definition used_filters (itemList : list SelectedObject) : gset (option nat) :=
  foldl (fun used obj =>
           if negb (counted obj) then used
           else {[ inserted_filter obj ]} ∪ used)
        ∅ itemList.

(** The loop over the rows: the rows with their new [sel], and the row
    selected in the tree view. *)
Fixpoint update_selection_loop (rows : list FilterRow) (iter : nat)
    (used : gset (option nat)) (used_size : Z) (selection : option nat)
  : list FilterRow * option nat :=
  match rows with
  | [] => ([], selection)
  | row :: rest =>
      if bool_decide (Some (row_filter row) ∈ used) then
        let selection := if used_size =? 1 then Some iter else selection in
        let '(rest, selection) :=
          update_selection_loop rest (S iter) used used_size selection in
        (mkFilterRow (row_filter row) used_size :: rest, selection)
      else
        let '(rest, selection) :=
          update_selection_loop rest (S iter) used used_size selection in
        (mkFilterRow (row_filter row) 0 :: rest, selection)
  end.

Definition update_selection (itemList : list SelectedObject) (m : FilterList)
  : FilterList :=
  let used := used_filters itemList in
  let used_size := Z.of_nat (size used) in
  let '(rows, selection) :=
    update_selection_loop (filter_rows m) 0 used used_size (filter_selected m) in
  mkFilterList rows selection.

(** ** [LightSourceControl] *)

(** The first child of a lighting primitive, by type. *)
Inductive LightObject : Type :=
  | SPFeDistantLight
  | SPFePointLight
  | SPFeSpotLight
  | SPOtherLightChild.

(** The object the document builds for the element named by the key of row
    [ls] of the light source combo ([LightSourceConverter] is declared
    outside the source tree). *)
Variable light_source_element : Z -> LightObject.

Definition SP_IS_FEDISTANTLIGHT (child : option LightObject) : bool :=
  match child with Some SPFeDistantLight => true | _ => false end.
Definition SP_IS_FEPOINTLIGHT (child : option LightObject) : bool :=
  match child with Some SPFePointLight => true | _ => false end.
Definition SP_IS_FESPOTLIGHT (child : option LightObject) : bool :=
  match child with Some SPFeSpotLight => true | _ => false end.
Definition is_null (child : option LightObject) : bool :=
  match child with None => true | Some _ => false end.

(** The row [set_from_attribute] makes active for [child = o->children]. *)
Definition light_source_row (child : option LightObject) : Z :=
  if SP_IS_FEDISTANTLIGHT child then 0
  else if SP_IS_FEPOINTLIGHT child then 1
  else if SP_IS_FESPOTLIGHT child then 2
  else -1.

(** [LightSourceControl::set_from_attribute]: the active row of the combo
    afterwards; [children] are the children of [o]. *)
Definition light_set_from_attribute (locked : bool) (active : Z)
    (children : list LightObject) : Z :=
  if locked then active else light_source_row (head children).

(** [LightSourceControl::on_source_changed]: the children of the selected
    primitive afterwards ([None]: no primitive selected); [ls] is the active
    row of the combo. *)
Definition on_source_changed (locked : bool) (prim : option (list LightObject))
    (ls : Z) : option (list LightObject) :=
  if locked then prim
  else
    match prim with
    | None => None
    | Some children =>
        let child := head children in
        if negb ((ls =? -1) && is_null child)
           && negb ((ls =? 0) && SP_IS_FEDISTANTLIGHT child)
           && negb ((ls =? 1) && SP_IS_FEPOINTLIGHT child)
           && negb ((ls =? 2) && SP_IS_FESPOTLIGHT child)
        then
          let children :=
            match child with
            | Some _ => tail children
            | None => children
            end in
          Some (if negb (ls =? -1)
                then children ++ [light_source_element ls]
                else children)
        else Some children
    end.

(** ** [CheckButtonAttr] and [ColorButton] *)

Record CheckButtonAttr : Type := mkCheckButton {
  _true_val : string;
  _false_val : string;
  check_active : bool
}.

Definition check_get_as_attribute (cb : CheckButtonAttr) : string :=
  if check_active cb then _true_val cb else _false_val cb.

(** [val] is [attribute_value(o)], [None] when the attribute is absent. *)
Definition check_set_from_attribute (cb : CheckButtonAttr) (val : option string)
  : CheckButtonAttr :=
  match val with
  | Some val =>
      if bool_decide (_true_val cb = val)
      then mkCheckButton (_true_val cb) (_false_val cb) true
      else if bool_decide (_false_val cb = val)
      then mkCheckButton (_true_val cb) (_false_val cb) false
      else cb
  | None => cb
  end.

(** A [Gdk::Color]: three 16-bit channels. *)
Record GdkColor : Type := mkColor { red : Z; green : Z; blue : Z }.

Definition gushort (v : Z) : Z := v mod 65536.

Definition set_rgb (r g b : Z) : GdkColor :=
  mkColor (gushort r) (gushort g) (gushort b).

(** The three numbers [ColorButton::get_as_attribute] prints. *)
Definition color_channels (c : GdkColor) : Z * Z * Z :=
  (Z.quot (red c) 257, Z.quot (green c) 257, Z.quot (blue c) 257).

(** The second half of [ColorButton::set_from_attribute]: [r], [g] and [b]
    are the 8-bit fields of the colour read from the attribute. *)
Definition color_set_from_rgb (r g b : Z) : GdkColor :=
  set_rgb (r * 257) (g * 257) (b * 257).

(** ** [MatrixAttr] *)

(** The entries of the matrix are [double]s, which the widget only stores and
    copies; the two values it makes itself are 0 and 1. *)
Variable gdouble : Type.
Variable double_0 double_1 : gdouble.

(** The widget: its lock, the number of columns of the tree view, and the
    rows of the list store, each with the five cells of [MatrixColumns]. *)
Record MatrixAttr : Type := mkMatrix {
  matrix_locked : bool;
  tree_columns : nat;
  matrix_rows : list (list gdouble)
}.

(** The cells of one row that the tree view shows. *)
Definition row_values (columns : nat) (row : list gdouble) : list gdouble :=
  (fun c => default double_0 (row !! c)) <$> seq 0 columns.

Definition get_values (m : MatrixAttr) : list gdouble :=
  concat (row_values (tree_columns m) <$> matrix_rows m).

(** The inner loop of [set_values] from column [c], with [count] columns
    left: the row, and the index [i] afterwards, or [None] when the function
    has returned because [v] is used up. *)
Fixpoint set_values_cells (v : list gdouble) (c count i : nat)
    (row : list gdouble) : list gdouble * option nat :=
  match count with
  | O => (row, Some i)
  | S count' =>
      if (length v <=? i)%nat then (row, None)
      else set_values_cells v (S c) count' (S i)
             (<[c := default double_0 (v !! i)]> row)
  end.

Fixpoint set_values_rows (v : list gdouble) (columns : nat)
    (rows : list (list gdouble)) (i : nat) : list (list gdouble) :=
  match rows with
  | [] => []
  | row :: rest =>
      match set_values_cells v 0 columns i row with
      | (row, Some i) => row :: set_values_rows v columns rest i
      | (row, None) => row :: rest
      end
  end.

Definition set_values (v : list gdouble) (m : MatrixAttr) : MatrixAttr :=
  mkMatrix (matrix_locked m) (tree_columns m)
           (set_values_rows v (tree_columns m) (matrix_rows m) 0).

(** The value [update] gives the cell in row [r], column [c], when it is the
    cell number [ndx]: "Default to identity matrix". *)
Definition update_cell (values : list gdouble) (r c ndx : nat) : gdouble :=
  if (ndx <? length values)%nat then default double_0 (values !! ndx)
  else if (r =? c)%nat then double_1 else double_0.

(** The two loops of [update] that fill the rows; a new row of the list
    store has 0 in its five cells. *)
Fixpoint update_cells (values : list gdouble) (r c count ndx : nat)
    (row : list gdouble) : list gdouble * nat :=
  match count with
  | O => (row, ndx)
  | S count' =>
      update_cells values r (S c) count' (S ndx)
        (<[c := update_cell values r c ndx]> row)
  end.

Fixpoint update_rows (values : list gdouble) (cols r count ndx : nat)
  : list (list gdouble) :=
  match count with
  | O => []
  | S count' =>
      let '(row, ndx) :=
        update_cells values r 0 cols ndx (replicate 5 double_0) in
      row :: update_rows values cols (S r) count' ndx
  end.

(** [update(o, rows, cols)]; [values] is the vector of [o], [None] when [o]
    is neither a feColorMatrix nor a feConvolveMatrix. *)
Definition matrix_update (m : MatrixAttr) (values : option (list gdouble))
    (rows cols : Z) : MatrixAttr :=
  if matrix_locked m then m
  else
    match values with
    | None => mkMatrix false 0 []
    | Some values =>
        mkMatrix false (Z.to_nat cols)
                 (update_rows values (Z.to_nat cols) 0 (Z.to_nat rows) 0)
    end.

(** The object shown: a feConvolveMatrix with its [order] (the number and
    the optional number, each already cast to [int]) and its kernel, a
    feColorMatrix with its values, or something else. *)
Inductive MatrixObject : Type :=
  | SPFeConvolveMatrix (order_number : Z) (order_optNumber : option Z)
                       (kernelMatrix : list gdouble)
  | SPFeColorMatrix (values : list gdouble)
  | SPOtherMatrixObject.

Definition matrix_set_from_attribute (m : MatrixAttr) (o : option MatrixObject)
  : MatrixAttr :=
  match o with
  | Some (SPFeConvolveMatrix order_number order_optNumber kernelMatrix) =>
      let cols := order_number in
      let cols := if cols >? 5 then 5 else cols in
      let rows := match order_optNumber with
                  | Some n => n
                  | None => cols
                  end in
      matrix_update m (Some kernelMatrix) rows cols
  | Some (SPFeColorMatrix values) => matrix_update m (Some values) 4 5
  | _ => m
  end.

(** ** Sample lists *)

Definition gaussian_blur (image_in image_out : Z) : SPFilterPrimitive :=
  mkPrim FEGAUSSIANBLUR image_in image_out [].
Definition offset (image_in image_out : Z) : SPFilterPrimitive :=
  mkPrim FEOFFSET image_in image_out [].
Definition blend (image_in in2 image_out : Z) : SPFilterPrimitive :=
  mkPrim (FEBLEND in2) image_in image_out [].
Definition merge (inputs : list Z) (image_out : Z) : SPFilterPrimitive :=
  mkPrim FEMERGE (-1) image_out (map SPFeMergeNode inputs).

(** Results number 5 declared at rows 0 and 2; row 3 uses result 5. *)
Definition shadowing_model : list SPFilterPrimitive :=
  [ gaussian_blur (-1) 5; offset (-1) 4; gaussian_blur (-1) 5; offset 5 (-1) ].

(** A [feMerge] that uses result 1, followed by the primitive declaring it. *)
Definition merge_forward_model : list SPFilterPrimitive :=
  [ merge [1] (-1); gaussian_blur (-1) 1 ].

(** [B] uses the result of [A], and [A] has been moved behind [B]. *)
Definition reordered_model : list SPFilterPrimitive :=
  [ blend 1 1 2; gaussian_blur (-1) 1; offset (-1) (-1) ].

(** Row 1 left unconnected, and the same row connected to row 0 by name. *)
Definition implicit_model : list SPFilterPrimitive :=
  [ gaussian_blur (-1) 1; offset (-1) (-1) ].
Definition explicit_model : list SPFilterPrimitive :=
  [ gaussian_blur (-1) 1; offset 1 (-1) ].

(** Row 1 uses result 7, which no row declares. *)
Definition dangling_model : list SPFilterPrimitive :=
  [ gaussian_blur (-1) 1; offset 7 (-1) ].

(** Rows as the release handler sees them: [A] without a [result] and with
    [in="SourceAlpha"], [B] with [result="blurred"], [C] with
    [result="result2"], and a feMerge with two merge nodes. *)
Definition repr_A : PrimitiveRepr :=
  mkRepr false None (Some "SourceAlpha") None [].
Definition repr_B : PrimitiveRepr := mkRepr false (Some "blurred") None None [].
Definition repr_merge : PrimitiveRepr :=
  mkRepr true None None None
    [ FeMergeNodeRepr (Some "always") (Some "blurred");
      FeMergeNodeRepr (Some "always") (Some "SourceAlpha") ].

(** The keys of the six standard inputs and a decimal formatter, to run the
    release handler on the samples. *)
Definition standard_input_key (src : Z) : string :=
  nth (Z.to_nat src)
      [ "SourceGraphic"; "SourceAlpha"; "BackgroundImage"; "BackgroundAlpha";
        "FillPaint"; "StrokePaint" ]%string ""%string.
Definition decimal (n : Z) : string := NilZero.string_of_int (Z.to_int n).

(** A drag from the [in] of the selected row; in the first list the selected
    row is the second one, in the second list the first one. *)
Definition drag_from_second : PrimitiveList :=
  mkList [repr_A; repr_B] (Some 1%nat) 1 false.
Definition drag_from_first : PrimitiveList :=
  mkList [repr_A; repr_B] (Some 0%nat) 1 false.


(** Releases over the first and over the second row, left of the labels of
    the standard inputs (with a text width of 10 these start at x = 140). *)
Definition release_over_first : ReleaseEvent := mkRelease (Some 0%nat) 5 200.

(** [ColorButton::get_as_attribute]: the colour in 'rgb(r,g,b)' form. *)
Definition color_get_as_attribute (c : GdkColor) : string :=
  let '(r, g, b) := color_channels c in
  String.append "rgb("
    (String.append (decimal r)
       (String.append ","
          (String.append (decimal g)
             (String.append "," (String.append (decimal b) ")"))))).

(** * Properties *)

Ltac unfold_type_tests :=
  unfold SP_IS_FEBLEND, SP_IS_FECOMPOSITE, SP_IS_FEDISPLACEMENTMAP, SP_IS_FEMERGE in *.

(** ** [input_count] *)

Lemma count_children_length (o : list SPObject) (count : Z) :
  count_children o count = count + Z.of_nat (length o).
Proof.
  revert count. induction o as [|x next IH]; intros count; simpl.
  - lia.
  - rewrite IH. lia.
Qed.

Lemma input_count_positive (prim : SPFilterPrimitive) :
  1 <= input_count (Some prim).
Proof.
  unfold input_count. unfold_type_tests.
  destruct (prim_type prim); simpl; try lia.
  rewrite count_children_length. lia.
Qed.

Lemma input_count_by_type (prim : SPFilterPrimitive) :
  input_count (Some prim) =
  match prim_type prim with
  | FEBLEND _ | FECOMPOSITE _ | FEDISPLACEMENTMAP _ => 2
  | FEMERGE => Z.of_nat (length (children prim)) + 1
  | _ => 1
  end.
Proof.
  unfold input_count. unfold_type_tests.
  destruct (prim_type prim); simpl; try reflexivity.
  rewrite count_children_length. lia.
Qed.

(** C9, as the code has it: [input_count] is 0 for the null pointer, 2 for
    feBlend, feComposite and feDisplacementMap, the number of children plus
    one for feMerge whoever asks, and 1 for every other primitive. *)
Theorem input_count_values :
  input_count None = 0 /\
  forall prim : SPFilterPrimitive,
    input_count (Some prim) =
    match prim_type prim with
    | FEBLEND _ | FECOMPOSITE _ | FEDISPLACEMENTMAP _ => 2
    | FEMERGE => Z.of_nat (length (children prim)) + 1
    | _ => 1
    end.
Proof. split; [reflexivity | exact input_count_by_type]. Qed.

(** C9, as the claim has it, fails: a feMerge with two feMergeNode children
    has an [input_count] of 3, not of 2, the number of its merge nodes. *)
Lemma input_count_merge_is_not_child_count :
  input_count (Some (merge [1; 2] (-1))) = 3 /\
  input_count (Some (merge [1; 2] (-1)))
    <> Z.of_nat (length (children (merge [1; 2] (-1)))).
Proof. split; [reflexivity | discriminate]. Qed.

(** C10: for a primitive that is not null [input_count] is at least 1 (the
    number of children plus one for feMerge, 1 or 2 otherwise), so the
    division [rct.get_height() / icnt] of [do_connection_node] is never a
    division by zero: the hit test returns. *)
Theorem do_connection_node_no_division_by_zero
    (model : list SPFilterPrimitive) (row : nat) (prim : SPFilterPrimitive)
    (input ix iy : Z) :
  model !! row = Some prim ->
  1 <= input_count (Some prim) /\
  (prim_type prim = FEMERGE ->
   input_count (Some prim) = Z.of_nat (length (children prim)) + 1) /\
  (prim_type prim <> FEMERGE ->
   input_count (Some prim) = 1 \/ input_count (Some prim) = 2) /\
  is_Some (do_connection_node model row input ix iy).
Proof.
  intros Hrow. pose proof (input_count_positive prim) as Hpos.
  pose proof input_count_by_type as Hval.
  repeat split.
  - exact Hpos.
  - intros Hm. rewrite Hval, Hm. reflexivity.
  - intros Hm. rewrite Hval. destruct (prim_type prim); auto; congruence.
  - unfold do_connection_node. rewrite Hrow.
    destruct (Z.eqb_spec (input_count (Some prim)) 0) as [E|E]; [lia|].
    eexists; reflexivity.
Qed.

(** ** The reference codec *)

Lemma decode_image_valid (image : Z) : valid_reference (decode_image image).
Proof.
  unfold decode_image.
  destruct (Z.geb_spec image 0); simpl; [lia|].
  destruct (Z.ltb_spec image (-1)); simpl; [lia | exact I].
Qed.

(** [find_result] is [decode_image] followed by the scan. *)
Lemma find_result_decode (model : list SPFilterPrimitive) (start : nat)
    (prim : SPFilterPrimitive) (attr src_id image : Z) :
  model !! start = Some prim ->
  slot_image prim attr = Some image ->
  find_result model start attr src_id =
  match decode_image image with
  | NamedResult id => (scan_results (take start model) 0 id (length model), src_id)
  | StandardSource index => (start, index)
  | Unspecified => (length model, src_id)
  end.
Proof.
  intros Hs Hi. unfold find_result, decode_image. rewrite Hs, Hi.
  destruct (image >=? 0); [reflexivity|].
  destruct (image <? -1); reflexivity.
Qed.

(** C7: [decode] sends an absent value to Unspecified, a value [>= 0] to
    that named result, a value [< -1] to standard source [-(raw+2)] and [-1]
    to Unspecified; decoding an encoded reference gives the reference back,
    and encoding a decoded legal raw value gives the raw value back. *)
Theorem codec_round_trip :
  decode None = Unspecified /\
  (forall raw, 0 <= raw -> decode (Some raw) = NamedResult raw) /\
  (forall raw, raw < -1 -> decode (Some raw) = StandardSource (- (raw + 2))) /\
  decode (Some (-1)) = Unspecified /\
  (forall r, valid_reference r -> decode (encode r) = r) /\
  (forall raw, legal_raw raw -> encode (decode raw) = raw).
Proof.
  repeat split.
  - intros raw H. simpl. unfold decode_image.
    destruct (Z.geb_spec raw 0); [reflexivity | lia].
  - intros raw H. simpl. unfold decode_image.
    destruct (Z.geb_spec raw 0); [lia|].
    destruct (Z.ltb_spec raw (-1)); [reflexivity | lia].
  - intros [|index|id] H; simpl in *; [reflexivity| |].
    + unfold decode_image.
      destruct (Z.geb_spec (- (index + 2)) 0); [lia|].
      destruct (Z.ltb_spec (- (index + 2)) (-1)); [f_equal; lia | lia].
    + unfold decode_image. destruct (Z.geb_spec id 0); [reflexivity | lia].
  - intros [raw|] H; simpl in *; [|reflexivity].
    unfold decode_image.
    destruct (Z.geb_spec raw 0); [reflexivity|].
    destruct (Z.ltb_spec raw (-1)); simpl; [f_equal; lia | lia].
Qed.

(** ** [find_result] *)

(** What the scan leaves in [target]: the value it started with when no row
    declares [image], and otherwise the position of the last row that does. *)
Lemma scan_results_spec (rows : list SPFilterPrimitive) :
  forall (i : nat) (image : Z) (target : nat),
    (scan_results rows i image target = target /\
     forall k q, rows !! k = Some q -> image_out q <> image)
    \/
    (exists k p,
       scan_results rows i image target = (i + k)%nat /\
       rows !! k = Some p /\ image_out p = image /\
       forall k' q, (k < k')%nat -> rows !! k' = Some q -> image_out q <> image).
Proof.
  induction rows as [|prim rest IH]; intros i image target; simpl.
  - left. split; [reflexivity|]. intros k q H. discriminate.
  - destruct (IH (S i) image
                (if image_out prim =? image then i else target))
      as [[Heq Hnone] | (k & p & Heq & Hk & Hp & Hlast)].
    + destruct (Z.eqb_spec (image_out prim) image) as [E|E].
      * right. exists 0%nat, prim. rewrite Heq.
        repeat split; [lia | assumption |].
        intros [|k'] q Hlt Hq; [lia|]. simpl in Hq. eauto.
      * left. split; [assumption|].
        intros [|k] q Hq; simpl in Hq; [congruence | eauto].
    + right. exists (S k), p. rewrite Heq.
      repeat split; [lia | assumption | assumption |].
      intros [|k'] q Hlt Hq; [lia|]. simpl in Hq.
      apply (Hlast k' q); [lia | assumption].
Qed.

Lemma find_index_position (target : nat) : find_index target = Z.of_nat target.
Proof. induction target as [|t IH]; simpl; lia. Qed.

(** The answer of [find_result] is the end iterator, [start] itself, or a
    row before [start]. *)
Lemma find_result_range (model : list SPFilterPrimitive) (start : nat)
    (attr src_id : Z) :
  let res := (find_result model start attr src_id).1 in
  res = length model \/ res = start \/ (res < start)%nat.
Proof.
  unfold find_result.
  destruct (model !! start) as [prim|] eqn:Hs; simpl; [|auto].
  destruct (slot_image prim attr) as [image|]; simpl; [|auto].
  destruct (image >=? 0); simpl.
  - destruct (scan_results_spec (take start model) 0 image (length model))
      as [[Heq _] | (k & p & Heq & Hk & _)]; rewrite Heq; [auto|].
    right; right. apply lookup_lt_Some in Hk.
    rewrite length_take in Hk. lia.
  - destruct (image <? -1); simpl; auto.
Qed.

(** ** [resolve] *)

(** [draw_connection] draws what [resolve] names. *)
Lemma draw_connection_resolve (model : list SPFilterPrimitive) (input : nat)
    (attr text_start_x x1 y1 row_count : Z) :
  (input < length model)%nat ->
  draw_connection model input attr text_start_x x1 y1 row_count =
  match resolve model input attr with
  | Standard src_id => straight_connection black_gc src_id text_start_x x1 y1
  | ImplicitPrevious None => straight_connection dark_gc_normal 0 text_start_x x1 y1
  | ImplicitPrevious (Some res) => L_shaped_connection res x1 y1 row_count
  | Producer res => L_shaped_connection res x1 y1 row_count
  | Unresolved => []
  end.
Proof.
  intros Hin. unfold draw_connection, resolve.
  assert ((find_result model input attr 0).2 = 0
          \/ (find_result model input attr 0).1 = input) as Hsrc.
  { unfold find_result. destruct (model !! input); simpl; [|auto].
    destruct (slot_image _ attr) as [image|]; simpl; [|auto].
    destruct (image >=? 0); simpl; [auto|].
    destruct (image <? -1); simpl; auto. }
  destruct (find_result model input attr 0) as [res src_id]; simpl in *.
  unfold iter_valid.
  destruct (Nat.eqb_spec res input) as [E|E]; simpl.
  - subst res. destruct (Nat.ltb_spec input (length model)); [|lia].
    reflexivity.
  - destruct Hsrc as [-> | ?]; [|congruence].
    destruct (res <? length model)%nat eqn:Hv; simpl;
      [rewrite Hv; reflexivity|].
    destruct (row_is_merge model input); simpl; [rewrite Hv; reflexivity|].
    destruct (Nat.eqb_spec input 0) as [E0|E0]; simpl; [reflexivity|].
    destruct (Nat.ltb_spec (input - 1) (length model)); [reflexivity | lia].
Qed.

(** C6: [resolve] never points at the resolving node or at a later one: a
    producer, named or implied, is at a strictly earlier position; and
    [find_result] itself answers a row before [n], [n] itself (a standard
    input) or the end iterator. *)
Theorem resolve_never_forward (model : list SPFilterPrimitive) (n : nat)
    (attr : Z) (node : nat) :
  resolve model n attr = Producer node \/
  resolve model n attr = ImplicitPrevious (Some node) ->
  (node < n)%nat /\
  (forall src_id,
     let res := (find_result model n attr src_id).1 in
     (res < n)%nat \/ res = n \/ res = length model).
Proof.
  intros H. split.
  - unfold resolve in H.
    pose proof (find_result_range model n attr 0) as Hr.
    destruct (find_result model n attr 0) as [res src_id]; simpl in *.
    unfold iter_valid in H.
    destruct (Nat.eqb_spec res n) as [E|E]; [destruct H; discriminate|].
    destruct (Nat.ltb_spec res (length model)) as [Hv|Hv]; simpl in H.
    + destruct H as [H|H]; [|discriminate].
      injection H as <-. lia.
    + destruct (row_is_merge model n); simpl in H; [destruct H; discriminate|].
      destruct (Nat.eqb_spec n 0) as [E0|E0]; simpl in H;
        [destruct H; discriminate|].
      destruct H as [H|H]; [discriminate|]. injection H as <-. lia.
  - intros src_id.
    pose proof (find_result_range model n attr src_id) as Hr. simpl in *. lia.
Qed.

(** ** [check_single_connection] *)

Lemma cleared_idem (r x : Z) : 0 <= r -> cleared r (cleared r x) = cleared r x.
Proof.
  intros Hr. unfold cleared, NR_FILTER_SLOT_NOT_SET.
  destruct (Z.eqb_spec x r) as [E|E].
  - destruct (Z.eqb_spec (-1) r); [reflexivity | reflexivity].
  - destruct (Z.eqb_spec x r); [contradiction | reflexivity].
Qed.

Lemma cleared_comm (r1 r2 x : Z) :
  0 <= r1 -> 0 <= r2 -> cleared r2 (cleared r1 x) = cleared r1 (cleared r2 x).
Proof.
  intros H1 H2. unfold cleared, NR_FILTER_SLOT_NOT_SET.
  destruct (Z.eqb_spec x r1) as [E1|E1], (Z.eqb_spec x r2) as [E2|E2].
  - subst. reflexivity.
  - destruct (Z.eqb_spec (-1) r2); [lia|].
    destruct (Z.eqb_spec x r1); [reflexivity | contradiction].
  - destruct (Z.eqb_spec (-1) r1); [lia|].
    destruct (Z.eqb_spec x r2); [reflexivity | contradiction].
  - destruct (Z.eqb_spec x r1); [contradiction|].
    destruct (Z.eqb_spec x r2); [contradiction | reflexivity].
Qed.

Lemma map_in2_compose (f g : Z -> Z) (t : PrimitiveType) :
  map_in2 f (map_in2 g t) = map_in2 (fun x => f (g x)) t.
Proof. destruct t; reflexivity. Qed.

Lemma map_in2_ext (f g : Z -> Z) (t : PrimitiveType) :
  (forall x, f x = g x) -> map_in2 f t = map_in2 g t.
Proof. intros H. destruct t; simpl; rewrite ?H; reflexivity. Qed.

(** The check, field by field. *)
Lemma check_single_connection_fields (prim : SPFilterPrimitive) (result : Z) :
  0 <= result ->
  check_single_connection prim result
  = mkPrim (map_in2 (cleared result) (prim_type prim))
           (cleared result (image_in prim)) (image_out prim) (children prim).
Proof.
  intros Hr. unfold check_single_connection, cleared.
  destruct (Z.geb_spec result 0) as [_|]; [|lia].
  destruct prim as [t i o c]. cbn [image_in].
  destruct (Z.eqb_spec i result) as [E|E];
    destruct t as [x| | |x| | |x| | | | | | | | | ];
    cbn [prim_type remove_in set_prim_type map_in2 image_in image_out children];
    try reflexivity;
    destruct (x =? result); reflexivity.
Qed.

Lemma check_single_connection_negative (prim : SPFilterPrimitive) (result : Z) :
  result < 0 -> check_single_connection prim result = prim.
Proof.
  intros Hr. unfold check_single_connection.
  destruct (Z.geb_spec result 0); [lia | reflexivity].
Qed.

Lemma check_single_connection_image_out (prim : SPFilterPrimitive) (result : Z) :
  image_out (check_single_connection prim result) = image_out prim.
Proof.
  destruct (Z.le_gt_cases 0 result).
  - rewrite check_single_connection_fields by assumption. reflexivity.
  - rewrite check_single_connection_negative by lia. reflexivity.
Qed.

(** The inputs of a feMerge are in its children, which the check leaves as
    they are. *)
Lemma check_single_connection_children (prim : SPFilterPrimitive) (result : Z) :
  children (check_single_connection prim result) = children prim.
Proof.
  destruct (Z.le_gt_cases 0 result).
  - rewrite check_single_connection_fields by assumption. reflexivity.
  - rewrite check_single_connection_negative by lia. reflexivity.
Qed.

Lemma check_single_connection_idem (prim : SPFilterPrimitive) (result : Z) :
  check_single_connection (check_single_connection prim result) result
  = check_single_connection prim result.
Proof.
  destruct (Z.le_gt_cases 0 result) as [H|H].
  - rewrite !check_single_connection_fields by assumption.
    cbn [prim_type image_in image_out children].
    rewrite map_in2_compose, cleared_idem by assumption.
    f_equal. apply map_in2_ext. intros x. apply cleared_idem. assumption.
  - rewrite !check_single_connection_negative by lia. reflexivity.
Qed.

Lemma check_single_connection_comm (prim : SPFilterPrimitive) (r1 r2 : Z) :
  check_single_connection (check_single_connection prim r1) r2
  = check_single_connection (check_single_connection prim r2) r1.
Proof.
  destruct (Z.le_gt_cases 0 r1) as [H1|H1], (Z.le_gt_cases 0 r2) as [H2|H2].
  - rewrite !check_single_connection_fields by assumption.
    cbn [prim_type image_in image_out children].
    rewrite !map_in2_compose, (cleared_comm r1 r2) by assumption.
    f_equal. apply map_in2_ext. intros x. apply cleared_comm; assumption.
  - rewrite !(check_single_connection_negative _ r2) by lia. reflexivity.
  - rewrite !(check_single_connection_negative _ r1) by lia. reflexivity.
  - rewrite !(check_single_connection_negative _ r2) by lia. reflexivity.
Qed.

(** What the check does to the two inputs of an ordinary primitive. *)
Lemma check_single_connection_in (prim : SPFilterPrimitive) (result : Z) :
  0 <= result ->
  image_in (check_single_connection prim result) = cleared result (image_in prim).
Proof. intros H. rewrite check_single_connection_fields by assumption. reflexivity. Qed.

Lemma check_single_connection_in2 (prim : SPFilterPrimitive) (result : Z) :
  0 <= result ->
  prim_type prim <> FEMERGE ->
  slot_image (check_single_connection prim result) SP_ATTR_IN2
  = cleared result <$> slot_image prim SP_ATTR_IN2.
Proof.
  intros H Hm. rewrite check_single_connection_fields by assumption.
  unfold slot_image. unfold_type_tests. cbn [prim_type].
  destruct (Z.eqb_spec SP_ATTR_IN2 SP_ATTR_IN) as [E|E];
    [exfalso; apply SP_ATTR_distinct; congruence|].
  rewrite Z.eqb_refl.
  destruct (prim_type prim); try reflexivity. congruence.
Qed.

Lemma foldl_check_image_out (prim : SPFilterPrimitive) (results : list Z) :
  image_out (foldl check_single_connection prim results) = image_out prim.
Proof.
  revert prim. induction results as [|r rest IH]; intros prim; simpl;
    [reflexivity|].
  rewrite IH. apply check_single_connection_image_out.
Qed.

Lemma foldl_check_push (prim : SPFilterPrimitive) (results : list Z) (r : Z) :
  check_single_connection (foldl check_single_connection prim results) r
  = foldl check_single_connection (check_single_connection prim r) results.
Proof.
  revert prim. induction results as [|r' rest IH]; intros prim; simpl;
    [reflexivity|].
  rewrite IH. f_equal. apply check_single_connection_comm.
Qed.

Lemma foldl_check_idem (prim : SPFilterPrimitive) (results : list Z) :
  foldl check_single_connection
    (foldl check_single_connection prim results) results
  = foldl check_single_connection prim results.
Proof.
  revert prim. induction results as [|r rest IH]; intros prim; simpl;
    [reflexivity|].
  rewrite foldl_check_push, check_single_connection_idem. apply IH.
Qed.

(** ** [sanitize_connections] *)

Lemma take_sub_le {A : Type} (a b : nat) (l : list A) :
  (a <= b)%nat -> take (a - b) l = [].
Proof. intros H. replace (a - b)%nat with 0%nat by lia. reflexivity. Qed.

(** The state of the loop after its first [k] turns: the rows before both
    [k] and the moved row have been checked against the result of the moved
    primitive, and the moved primitive against the results of the rows
    between it and [k]. *)
Lemma sanitize_loop_invariant (model : list SPFilterPrimitive) (n : nat)
    (prim : SPFilterPrimitive) :
  model !! n = Some prim ->
  forall k : nat, (k <= length model)%nat ->
    let st := foldl (sanitize_step n) (model, true) (seq 0 k) in
    length st.1 = length model /\
    st.2 = bool_decide (k <= n)%nat /\
    forall i : nat,
      st.1 !! i =
      if decide (i = n) then
        Some (foldl check_single_connection prim
                (image_out <$> take (k - S n) (drop (S n) model)))
      else if decide (i < k /\ i < n)%nat then
        (fun cur => check_single_connection cur (image_out prim)) <$> model !! i
      else model !! i.
Proof.
  intros Hn k. induction k as [|k IH]; intros Hk; cbv zeta.
  - simpl. repeat split. intros i.
    destruct (decide (i = n)) as [->|]; [assumption|].
    destruct (decide (i < 0 /\ i < n)%nat); [lia | reflexivity].
  - rewrite seq_S, foldl_snoc. cbv zeta in IH.
    destruct IH as (Hlen & Hb & Hlook); [lia|].
    destruct (foldl (sanitize_step n) (model, true) (seq 0 k))
      as [modelk before]; cbn [fst snd] in *.
    destruct (lookup_lt_is_Some_2 model k) as [cur Hcur]; [lia|].
    unfold sanitize_step. rewrite Nat.add_0_l.
    destruct (Nat.eqb_spec k n) as [E|E]; cbn [fst snd].
    + subst k. split; [assumption|].
      split; [rewrite bool_decide_false; [reflexivity | lia]|].
      intros i. rewrite Hlook.
      rewrite !take_sub_le by lia.
      destruct (decide (i = n)); [reflexivity|].
      destruct (decide (i < n /\ i < n)%nat), (decide (i < S n /\ i < n)%nat);
        try reflexivity; lia.
    + pose proof (Hlook n) as Hmoved. pose proof (Hlook k) as Hk'.
      rewrite decide_True in Hmoved by reflexivity.
      rewrite decide_False in Hk' by assumption.
      rewrite decide_False in Hk' by lia.
      rewrite Hmoved, Hk', Hcur.
      destruct (decide (k < n)%nat) as [Hlt|Hge].
      * rewrite Hb, bool_decide_true by lia. cbn [fst snd].
        rewrite length_insert. split; [assumption|].
        split; [rewrite bool_decide_true; [reflexivity | lia]|].
        intros i.
        rewrite !take_sub_le by lia. cbn [fmap list_fmap foldl].
        destruct (decide (i = k)) as [->|Hik].
        -- rewrite list_lookup_insert_eq by lia.
           rewrite decide_False by assumption.
           rewrite decide_True by lia. rewrite Hcur. reflexivity.
        -- rewrite list_lookup_insert_ne by congruence. rewrite Hlook.
           rewrite !take_sub_le by lia.
           destruct (decide (i = n)); [reflexivity|].
           destruct (decide (i < k /\ i < n)%nat), (decide (i < S k /\ i < n)%nat);
             try reflexivity; lia.
      * rewrite Hb, bool_decide_false by lia. cbn [fst snd].
        rewrite length_insert. split; [assumption|].
        split; [rewrite bool_decide_false; [reflexivity | lia]|].
        intros i.
        assert (take (S k - S n) (drop (S n) model)
                = take (k - S n) (drop (S n) model) ++ [cur]) as Htake.
        { replace (S k - S n)%nat with (S (k - S n)) by lia.
          apply take_S_r. rewrite lookup_drop.
          replace (S n + (k - S n))%nat with k by lia. assumption. }
        rewrite Htake, fmap_app.
        change (image_out <$> [cur]) with [image_out cur]. rewrite foldl_snoc.
        destruct (decide (i = n)) as [->|Hin].
        -- rewrite list_lookup_insert_eq by (apply lookup_lt_Some in Hn; lia).
           reflexivity.
        -- rewrite list_lookup_insert_ne by congruence. rewrite Hlook.
           rewrite decide_False by assumption.
           destruct (decide (i < k /\ i < n)%nat), (decide (i < S k /\ i < n)%nat);
             try reflexivity; lia.
Qed.

Lemma sanitize_connections_lookup (model : list SPFilterPrimitive) (n : nat)
    (prim : SPFilterPrimitive) (i : nat) :
  model !! n = Some prim ->
  sanitize_connections model n !! i =
  if decide (i = n) then
    Some (foldl check_single_connection prim (image_out <$> drop (S n) model))
  else if decide (i < n)%nat then
    (fun cur => check_single_connection cur (image_out prim)) <$> model !! i
  else model !! i.
Proof.
  intros Hn. unfold sanitize_connections.
  destruct (sanitize_loop_invariant model n prim Hn (length model))
    as (_ & _ & Hlook); [lia|].
  rewrite Hlook.
  rewrite (take_ge (drop (S n) model)) by (rewrite length_drop; lia).
  destruct (decide (i = n)); [reflexivity|].
  destruct (decide (i < n)%nat) as [Hlt|Hge].
  - destruct (decide (i < length model /\ i < n)%nat) as [|Hno];
      [reflexivity|].
    rewrite (lookup_ge_None_2 model i) by lia. reflexivity.
  - rewrite decide_False by lia. reflexivity.
Qed.

Lemma sanitize_connections_length (model : list SPFilterPrimitive) (n : nat)
    (prim : SPFilterPrimitive) :
  model !! n = Some prim ->
  length (sanitize_connections model n) = length model.
Proof.
  intros Hn. unfold sanitize_connections.
  destruct (sanitize_loop_invariant model n prim Hn (length model))
    as (Hlen & _); [lia | exact Hlen].
Qed.

(** With no primitive at [prim_iter] the model of the loop has nothing to
    check (the handler always passes the row of a primitive). *)
Lemma sanitize_connections_no_row (model : list SPFilterPrimitive) (n : nat) :
  model !! n = None -> sanitize_connections model n = model.
Proof.
  intros Hn. unfold sanitize_connections.
  generalize (seq 0 (length model)) as iters. generalize true as before.
  intros before iters. revert before.
  induction iters as [|iter rest IH]; intros before; simpl; [reflexivity|].
  rewrite Hn. destruct (iter =? n)%nat; apply IH.
Qed.

(** What the pass does to a primitive before the moved one: its [in], and its
    [in2] when it has one, are cleared where they name the result of the
    moved primitive. *)
Lemma sanitize_connections_before (model : list SPFilterPrimitive) (n i : nat)
    (prim cur : SPFilterPrimitive) :
  model !! n = Some prim -> model !! i = Some cur -> (i < n)%nat ->
  0 <= image_out prim ->
  exists cur',
    sanitize_connections model n !! i = Some cur' /\
    image_in cur' = cleared (image_out prim) (image_in cur) /\
    prim_type cur' = map_in2 (cleared (image_out prim)) (prim_type cur) /\
    image_out cur' = image_out cur /\ children cur' = children cur.
Proof.
  intros Hn Hi Hlt Hout.
  rewrite (sanitize_connections_lookup model n prim i Hn).
  rewrite decide_False by lia. rewrite decide_True by assumption.
  rewrite Hi. simpl. eexists. split; [reflexivity|].
  rewrite check_single_connection_fields by assumption. auto.
Qed.

(** C8: the pass is idempotent: run a second time on its own outcome, for the
    same moved row, it changes nothing. *)
Theorem sanitize_connections_idempotent (model : list SPFilterPrimitive)
    (n : nat) :
  sanitize_connections (sanitize_connections model n) n
  = sanitize_connections model n.
Proof.
  destruct (model !! n) as [prim|] eqn:Hn.
  - set (model' := sanitize_connections model n).
    set (prim' := foldl check_single_connection prim
                    (image_out <$> drop (S n) model)).
    assert (model' !! n = Some prim') as Hn'.
    { unfold model'. rewrite (sanitize_connections_lookup model n prim n Hn).
      rewrite decide_True by reflexivity. reflexivity. }
    assert (drop (S n) model' = drop (S n) model) as Hdrop.
    { apply list_eq. intros i. rewrite !lookup_drop. unfold model'.
      rewrite (sanitize_connections_lookup model n prim _ Hn).
      rewrite decide_False by lia. rewrite decide_False by lia. reflexivity. }
    apply list_eq. intros i.
    rewrite (sanitize_connections_lookup model' n prim' i Hn').
    rewrite Hdrop. unfold model'.
    rewrite (sanitize_connections_lookup model n prim i Hn).
    destruct (decide (i = n)).
    + unfold prim'. rewrite foldl_check_idem. reflexivity.
    + destruct (decide (i < n)%nat); [|reflexivity].
      unfold prim'. rewrite foldl_check_image_out.
      destruct (model !! i) as [cur|]; simpl; [|reflexivity].
      rewrite check_single_connection_idem. reflexivity.
  - rewrite !(sanitize_connections_no_row model n Hn). reflexivity.
Qed.

(** The reorder scenario: [B] used the result of [A] in both inputs, [A] now
    stands behind it; the pass clears both and keeps the rest. *)
Lemma sanitize_connections_reordered :
  sanitize_connections reordered_model 1
  = [ blend (-1) (-1) 2; gaussian_blur (-1) 1; offset (-1) (-1) ].
Proof. reflexivity. Qed.

(** C2, at a feMerge: the feMerge at row 0 uses result 1 in its merge node,
    the primitive that declares result 1 has been moved behind it, and the
    pass leaves the list as it is: the merge node still names result 1,
    which is now declared after it.  Neither does a moved feMerge lose a
    merge node that names the result of a later row. *)
Theorem sanitize_connections_skips_merge_nodes :
  (merge_forward_model !! 0%nat = Some (merge [1] (-1)) /\
   (image_out <$> merge_forward_model !! 1%nat) = Some 1) /\
  sanitize_connections merge_forward_model 1 = merge_forward_model /\
  sanitize_connections merge_forward_model 0 = merge_forward_model /\
  slot_image (merge [1] (-1)) 0 = Some 1.
Proof. repeat split; reflexivity. Qed.

(** ** Unconnected inputs *)

Lemma find_result_unspecified (model : list SPFilterPrimitive) (n : nat)
    (prim : SPFilterPrimitive) (attr src_id : Z) :
  model !! n = Some prim ->
  decode (slot_image prim attr) = Unspecified ->
  find_result model n attr src_id = (length model, src_id).
Proof.
  intros Hn Hdec.
  destruct (slot_image prim attr) as [image|] eqn:Hslot.
  - rewrite (find_result_decode model n prim attr src_id image Hn Hslot).
    simpl in Hdec. rewrite Hdec. reflexivity.
  - unfold find_result. rewrite Hn, Hslot. reflexivity.
Qed.

(** An unconnected merge node has no source. *)
Lemma resolve_unspecified_merge (model : list SPFilterPrimitive) (n : nat)
    (prim : SPFilterPrimitive) (attr : Z) :
  model !! n = Some prim ->
  prim_type prim = FEMERGE ->
  decode (slot_image prim attr) = Unspecified ->
  resolve model n attr = Unresolved.
Proof.
  intros Hn Hm Hdec. unfold resolve.
  rewrite (find_result_unspecified model n prim attr 0 Hn Hdec).
  pose proof (lookup_lt_Some _ _ _ Hn) as Hlt.
  unfold iter_valid, row_is_merge. rewrite Hn. unfold_type_tests. rewrite Hm.
  destruct (Nat.eqb_spec (length model) n); [lia|].
  rewrite Nat.ltb_irrefl. reflexivity.
Qed.

(** An unconnected input of an ordinary primitive takes the primitive of the
    row before, and at the first row no primitive at all. *)
Lemma resolve_unspecified_ordinary (model : list SPFilterPrimitive) (n : nat)
    (prim : SPFilterPrimitive) (attr : Z) :
  model !! n = Some prim ->
  prim_type prim <> FEMERGE ->
  decode (slot_image prim attr) = Unspecified ->
  resolve model n attr
  = ImplicitPrevious (match n with O => None | S m => Some m end).
Proof.
  intros Hn Hm Hdec. unfold resolve.
  rewrite (find_result_unspecified model n prim attr 0 Hn Hdec).
  pose proof (lookup_lt_Some _ _ _ Hn) as Hlt.
  unfold iter_valid, row_is_merge. rewrite Hn. unfold_type_tests.
  destruct (Nat.eqb_spec (length model) n); [lia|].
  rewrite Nat.ltb_irrefl.
  assert (match prim_type prim with FEMERGE => true | _ => false end = false)
    as -> by (destruct (prim_type prim); congruence).
  destruct n as [|m]; simpl; [reflexivity|].
  rewrite Nat.sub_0_r. reflexivity.
Qed.

(** [draw_connection] cannot tell a named result that no earlier row declares
    from an input left unconnected: on an ordinary primitive both get the
    default, on a feMerge neither does. *)
Lemma resolve_undeclared_result (model : list SPFilterPrimitive) (n : nat)
    (prim : SPFilterPrimitive) (attr id : Z) :
  model !! n = Some prim ->
  decode (slot_image prim attr) = NamedResult id ->
  (forall j q, (j < n)%nat -> model !! j = Some q -> image_out q <> id) ->
  resolve model n attr
  = if SP_IS_FEMERGE prim then Unresolved
    else ImplicitPrevious (match n with O => None | S m => Some m end).
Proof.
  intros Hn Hdec Hnone.
  assert (find_result model n attr 0 = (length model, 0)) as Hfind.
  { destruct (slot_image prim attr) as [image|] eqn:Hslot; [|discriminate].
    rewrite (find_result_decode model n prim attr 0 image Hn Hslot).
    simpl in Hdec. rewrite Hdec. f_equal.
    destruct (scan_results_spec (take n model) 0 id (length model))
      as [[Heq _] | (k & p & _ & Hk & Hp & _)]; [exact Heq|].
    exfalso. pose proof (lookup_lt_Some _ _ _ Hk) as Hlt.
    rewrite length_take in Hlt.
    rewrite lookup_take_lt in Hk by lia.
    apply (Hnone k p); [lia | assumption | assumption]. }
  unfold resolve. rewrite Hfind.
  pose proof (lookup_lt_Some _ _ _ Hn) as Hlt.
  unfold iter_valid, row_is_merge. rewrite Hn.
  destruct (Nat.eqb_spec (length model) n); [lia|].
  rewrite Nat.ltb_irrefl.
  destruct (SP_IS_FEMERGE prim); simpl; [reflexivity|].
  destruct n as [|m]; simpl; [reflexivity|].
  rewrite Nat.sub_0_r. reflexivity.
Qed.

(** At the first row the implied connection is drawn with the light GC, a
    connection to standard input 0 made in the document with the black one. *)
Lemma draw_connection_implicit_first (model : list SPFilterPrimitive)
    (prim : SPFilterPrimitive) (attr text_start_x x1 y1 row_count : Z) :
  model !! 0%nat = Some prim ->
  prim_type prim <> FEMERGE ->
  decode (slot_image prim attr) = Unspecified ->
  draw_connection model 0 attr text_start_x x1 y1 row_count
  = straight_connection dark_gc_normal 0 text_start_x x1 y1.
Proof.
  intros Hn Hm Hdec.
  rewrite draw_connection_resolve by (eapply lookup_lt_Some; eassumption).
  rewrite (resolve_unspecified_ordinary model 0 prim attr Hn Hm Hdec).
  reflexivity.
Qed.

(** At a later row the implied connection is the 'L' to the row before,
    drawn with the black GC throughout. *)
Lemma draw_connection_implicit_previous (model : list SPFilterPrimitive)
    (m : nat) (prim : SPFilterPrimitive) (attr text_start_x x1 y1 row_count : Z) :
  model !! S m = Some prim ->
  prim_type prim <> FEMERGE ->
  decode (slot_image prim attr) = Unspecified ->
  draw_connection model (S m) attr text_start_x x1 y1 row_count
  = L_shaped_connection m x1 y1 row_count /\
  Forall (fun op => op_gc op = black_gc)
         (draw_connection model (S m) attr text_start_x x1 y1 row_count).
Proof.
  intros Hn Hm Hdec.
  assert (draw_connection model (S m) attr text_start_x x1 y1 row_count
          = L_shaped_connection m x1 y1 row_count) as ->.
  { rewrite draw_connection_resolve by (eapply lookup_lt_Some; eassumption).
    rewrite (resolve_unspecified_ordinary model (S m) prim attr Hn Hm Hdec).
    reflexivity. }
  split; [reflexivity|].
  unfold L_shaped_connection. repeat constructor.
Qed.

(** C3, at a row that is not the first: row 1 of [implicit_model] has no
    [in], so its connection is the implied one to row 0; it is drawn by the
    very operations, all with the black GC, that draw the connection row 1
    of [explicit_model] makes to row 0 by name.  The light GC is used for
    the implied connection of the first row only. *)
Theorem implicit_previous_drawn_like_explicit
    (text_start_x x1 y1 row_count : Z) :
  resolve implicit_model 1 SP_ATTR_IN = ImplicitPrevious (Some 0%nat) /\
  resolve explicit_model 1 SP_ATTR_IN = Producer 0 /\
  draw_connection implicit_model 1 SP_ATTR_IN text_start_x x1 y1 row_count
  = draw_connection explicit_model 1 SP_ATTR_IN text_start_x x1 y1 row_count /\
  Forall (fun op => op_gc op = black_gc)
    (draw_connection implicit_model 1 SP_ATTR_IN text_start_x x1 y1 row_count) /\
  draw_connection implicit_model 0 SP_ATTR_IN text_start_x x1 y1 row_count
  = straight_connection dark_gc_normal 0 text_start_x x1 y1.
Proof.
  assert (resolve implicit_model 1 SP_ATTR_IN = ImplicitPrevious (Some 0%nat))
    as Hi.
  { unfold resolve, find_result, slot_image. simpl. rewrite Z.eqb_refl.
    reflexivity. }
  assert (resolve explicit_model 1 SP_ATTR_IN = Producer 0) as He.
  { unfold resolve, find_result, slot_image. simpl. rewrite Z.eqb_refl.
    reflexivity. }
  assert (resolve implicit_model 0 SP_ATTR_IN = ImplicitPrevious None) as H0.
  { unfold resolve, find_result, slot_image. simpl. rewrite Z.eqb_refl.
    reflexivity. }
  split; [exact Hi|]. split; [exact He|].
  rewrite !draw_connection_resolve by (simpl; lia).
  rewrite Hi, He, H0. split; [reflexivity|]. split; [|reflexivity].
  unfold L_shaped_connection. repeat constructor.
Qed.

(** ** The release handler *)

Lemma merge_release_loop_handled (locked : bool) (in_val : option string)
    (o : list ChildRepr) :
  forall (c : Z) (k : nat) (collect a : option string),
    o !! k = Some (FeMergeNodeRepr collect a) ->
    merge_release_loop locked (c + Z.of_nat k) in_val o c
    = (match in_val with
       | None => delete k o
       | Some _ => <[k := set_attr_child locked (FeMergeNodeRepr collect a) in_val]> o
       end, true, c + Z.of_nat k + 1).
Proof.
  induction o as [|o1 next IH]; intros c k collect a Hk; [discriminate|].
  destruct k as [|k]; simpl in Hk.
  - injection Hk as ->. cbn [merge_release_loop].
    replace (c + Z.of_nat 0) with c by lia.
    rewrite Z.eqb_refl. cbn [is_femergenode andb].
    destruct in_val; reflexivity.
  - cbn [merge_release_loop].
    destruct (Z.eqb_spec c (c + Z.of_nat (S k))) as [E|E]; [lia|].
    cbn [andb].
    replace (c + Z.of_nat (S k)) with (c + 1 + Z.of_nat k) by lia.
    rewrite (IH (c + 1) k collect a Hk).
    destruct in_val; reflexivity.
Qed.

Lemma merge_release_loop_unhandled (locked : bool) (in_drag : Z)
    (in_val : option string) (o : list ChildRepr) :
  forall c : Z,
    (forall (k : nat) (x : ChildRepr),
        o !! k = Some x -> in_drag = c + Z.of_nat k -> is_femergenode x = false) ->
    merge_release_loop locked in_drag in_val o c
    = (o, false, c + Z.of_nat (length o)).
Proof.
  induction o as [|o1 next IH]; intros c H; cbn [merge_release_loop length].
  - f_equal. lia.
  - destruct (Z.eqb_spec c in_drag) as [E|E].
    + rewrite (H 0%nat o1 eq_refl) by lia.
      cbn [andb]. rewrite IH.
      * f_equal. lia.
      * intros k x Hk Hd. lia.
    + cbn [andb]. rewrite IH.
      * f_equal. lia.
      * intros k x Hk Hd. apply (H (S k) x); [exact Hk | lia].
Qed.

(** C5: a commit on slot [k] (counted from 0) of a feMerge.  With no target
    and a merge node at the slot, the node is removed and the feMerge has one
    input less; at the slot after the last child, with a target, a new merge
    node is appended whose [in] is the target; with a target and a merge node
    at the slot, the [in] of that node is set and nothing else changes; at
    the slot after the last child with no target nothing happens. *)
Theorem commit_on_merge_slot (prim : PrimitiveRepr) (k : nat) :
  repr_is_femerge prim = true ->
  (forall collect a,
      repr_children prim !! k = Some (FeMergeNodeRepr collect a) ->
      repr_children (commit_connection false (Z.of_nat k + 1) None prim)
      = delete k (repr_children prim) /\
      S (length (repr_children
                   (commit_connection false (Z.of_nat k + 1) None prim)))
      = length (repr_children prim)) /\
  (forall val,
      k = length (repr_children prim) ->
      repr_children (commit_connection false (Z.of_nat k + 1) (Some val) prim)
      = repr_children prim ++ [FeMergeNodeRepr (Some "always") (Some val)]) /\
  (forall collect a val,
      repr_children prim !! k = Some (FeMergeNodeRepr collect a) ->
      repr_children (commit_connection false (Z.of_nat k + 1) (Some val) prim)
      = <[k := FeMergeNodeRepr collect (Some val)]> (repr_children prim)) /\
  (k = length (repr_children prim) ->
   repr_children (commit_connection false (Z.of_nat k + 1) None prim)
   = repr_children prim).
Proof.
  intros Hm. unfold commit_connection. rewrite Hm.
  cbn [set_children repr_children]. unfold release_on_merge.
  replace (Z.of_nat k + 1) with (1 + Z.of_nat k) by lia.
  repeat split.
  - rewrite (merge_release_loop_handled _ _ _ 1 k collect a H). reflexivity.
  - rewrite (merge_release_loop_handled _ _ _ 1 k collect a H).
    cbn [negb andb]. rewrite length_delete by eauto.
    apply lookup_lt_Some in H. lia.
  - intros val Hk. rewrite merge_release_loop_unhandled.
    + cbn [negb andb]. subst k. rewrite Z.eqb_refl.
      rewrite bool_decide_true by eauto. reflexivity.
    + intros j x Hj Hd. apply lookup_lt_Some in Hj. lia.
  - intros collect a val H.
    rewrite (merge_release_loop_handled _ _ _ 1 k collect a H). reflexivity.
  - intros Hk. rewrite merge_release_loop_unhandled.
    + rewrite andb_false_r. reflexivity.
    + intros j x Hj Hd. apply lookup_lt_Some in Hj. lia.
Qed.








(** ** More on [find_result] and [input_count] *)

(** A slot that holds a standard input resolves to that input: [find_result]
    answers the row itself and leaves the index in [src_id], and the
    connection is the straight line in the black GC. *)
Theorem resolve_standard_source (model : list SPFilterPrimitive) (n : nat)
    (prim : SPFilterPrimitive) (attr index text_start_x x1 y1 row_count : Z) :
  model !! n = Some prim ->
  decode (slot_image prim attr) = StandardSource index ->
  find_result model n attr 0 = (n, index) /\
  resolve model n attr = Standard index /\
  draw_connection model n attr text_start_x x1 y1 row_count
  = straight_connection black_gc index text_start_x x1 y1.
Proof.
  intros Hn Hdec.
  assert (find_result model n attr 0 = (n, index)) as Hfind.
  { destruct (slot_image prim attr) as [image|] eqn:Hslot; [|discriminate].
    rewrite (find_result_decode model n prim attr 0 image Hn Hslot).
    simpl in Hdec. rewrite Hdec. reflexivity. }
  assert (resolve model n attr = Standard index) as Hres.
  { unfold resolve. rewrite Hfind. rewrite Nat.eqb_refl. reflexivity. }
  split; [exact Hfind|]. split; [exact Hres|].
  rewrite draw_connection_resolve by (eapply lookup_lt_Some; eassumption).
  rewrite Hres. reflexivity.
Qed.

Lemma merge_node_input_lookup (o : list SPObject) :
  forall (c attr : Z) (image : option Z),
    merge_node_input o c attr image =
    if (c <=? attr) && (attr <? c + Z.of_nat (length o)) then
      match o !! Z.to_nat (attr - c) with
      | Some (SPFeMergeNode input) => Some input
      | _ => image
      end
    else image.
Proof.
  induction o as [|o1 next IH]; intros c attr image; cbn [merge_node_input length].
  - destruct (Z.leb_spec c attr), (Z.ltb_spec attr (c + Z.of_nat 0));
      try reflexivity; lia.
  - rewrite IH. destruct (Z.eqb_spec c attr) as [E|E].
    + subst attr. replace (Z.to_nat (c - c)) with 0%nat by lia.
      destruct (Z.leb_spec (c + 1) c); [lia|].
      destruct (Z.leb_spec c c); [|lia].
      destruct (Z.ltb_spec c (c + Z.of_nat (S (length next)))); [|lia].
      cbn [andb]. destruct o1; reflexivity.
    + assert (match o1 with
              | SPFeMergeNode input => image
              | SPOtherObject => image
              end = image) as -> by (destruct o1; reflexivity).
      destruct (Z.leb_spec (c + 1) attr), (Z.leb_spec c attr); try lia;
        destruct (Z.ltb_spec attr (c + 1 + Z.of_nat (length next))),
          (Z.ltb_spec attr (c + Z.of_nat (S (length next)))); try lia;
        cbn [andb]; try reflexivity.
      replace (Z.to_nat (attr - c)) with (S (Z.to_nat (attr - (c + 1)))) by lia.
      reflexivity.
Qed.

Lemma slot_image_of_merge (prim : SPFilterPrimitive) (attr : Z) :
  prim_type prim = FEMERGE ->
  slot_image prim attr =
  if (0 <=? attr) then
    match children prim !! Z.to_nat attr with
    | Some (SPFeMergeNode input) => Some input
    | _ => None
    end
  else None.
Proof.
  intros Hm. unfold slot_image. unfold_type_tests. rewrite Hm.
  rewrite merge_node_input_lookup. rewrite Z.sub_0_r.
  destruct (Z.leb_spec 0 attr); cbn [andb]; [|reflexivity].
  destruct (Z.ltb_spec attr (0 + Z.of_nat (length (children prim))));
    [reflexivity|].
  rewrite lookup_ge_None_2 by lia. reflexivity.
Qed.

(** ** Named results *)

Lemma decode_image_named (image id : Z) :
  decode_image image = NamedResult id -> image = id /\ 0 <= id.
Proof.
  unfold decode_image.
  destruct (Z.geb_spec image 0); [intros [= <-]; split; [reflexivity | lia]|].
  destruct (image <? -1); discriminate.
Qed.

(** A named result found in a slot is stored in the field the slot names. *)
Lemma slot_image_field (prim : SPFilterPrimitive) (attr image : Z) :
  slot_image prim attr = Some image ->
  if SP_IS_FEMERGE prim
  then 0 <= attr /\ children prim !! Z.to_nat attr = Some (SPFeMergeNode image)
  else (attr = SP_ATTR_IN /\ image_in prim = image) \/
       (attr = SP_ATTR_IN2 /\ in2_of (prim_type prim) = Some image).
Proof.
  intros Hslot. destruct (SP_IS_FEMERGE prim) eqn:Hm.
  - assert (prim_type prim = FEMERGE) as Ht.
    { unfold SP_IS_FEMERGE in Hm. destruct (prim_type prim); congruence. }
    rewrite (slot_image_of_merge prim attr Ht) in Hslot.
    destruct (Z.leb_spec 0 attr); [|discriminate]. split; [assumption|].
    destruct (children prim !! Z.to_nat attr) as [[input|]|]; congruence.
  - unfold slot_image in Hslot. rewrite Hm in Hslot.
    destruct (Z.eqb_spec attr SP_ATTR_IN) as [E|E]; [left; split; congruence|].
    destruct (Z.eqb_spec attr SP_ATTR_IN2) as [E2|E2]; [|discriminate].
    right. split; [assumption|].
    unfold in2_of. destruct (prim_type prim); congruence.
Qed.

(** C1, as the code has it: a slot that holds named result [id] is the [in]
    or the [in2] of the node, or the [in] of one of its merge nodes.
    [find_result] looks at the rows before the node only and answers the last
    of them that declares [id], the one closest to the node, and that row is
    the producer the connection is drawn to.  When no earlier row declares
    [id], [find_result] answers the end iterator, and [draw_connection] makes
    of it what it makes of an unconnected input: no source on a feMerge, and
    on any other primitive the row before (at the first row, the default
    standard input). *)
Theorem resolve_named_result (model : list SPFilterPrimitive) (n : nat)
    (prim : SPFilterPrimitive) (attr id : Z) :
  model !! n = Some prim ->
  decode (slot_image prim attr) = NamedResult id ->
  (0 <= id /\
   if SP_IS_FEMERGE prim
   then 0 <= attr /\ children prim !! Z.to_nat attr = Some (SPFeMergeNode id)
   else (attr = SP_ATTR_IN /\ image_in prim = id) \/
        (attr = SP_ATTR_IN2 /\ in2_of (prim_type prim) = Some id)) /\
  ((exists target p,
      (target < n)%nat /\ model !! target = Some p /\ image_out p = id /\
      (forall j q, (target < j < n)%nat -> model !! j = Some q ->
                   image_out q <> id) /\
      (forall src_id, find_result model n attr src_id = (target, src_id)) /\
      resolve model n attr = Producer target)
   \/
   ((forall j q, (j < n)%nat -> model !! j = Some q -> image_out q <> id) /\
    (forall src_id, find_result model n attr src_id = (length model, src_id)) /\
    resolve model n attr
    = if SP_IS_FEMERGE prim then Unresolved
      else ImplicitPrevious (match n with O => None | S m => Some m end))).
Proof.
  intros Hn Hdec.
  destruct (slot_image prim attr) as [image|] eqn:Hslot; [|discriminate].
  cbn [decode] in Hdec.
  destruct (decode_image_named image id Hdec) as [-> Hid].
  split; [split; [exact Hid | exact (slot_image_field prim attr id Hslot)]|].
  assert (forall src_id,
             find_result model n attr src_id
             = (scan_results (take n model) 0 id (length model), src_id)) as Hfind.
  { intros src_id.
    rewrite (find_result_decode model n prim attr src_id id Hn Hslot), Hdec.
    reflexivity. }
  pose proof (lookup_lt_Some _ _ _ Hn) as Hlt.
  destruct (scan_results_spec (take n model) 0 id (length model))
    as [[Heq Hnone] | (k & p & Heq & Hk & Hp & Hlast)].
  - right.
    assert (forall j q, (j < n)%nat -> model !! j = Some q -> image_out q <> id)
      as Hnone'.
    { intros j q Hj Hq. apply (Hnone j q). rewrite lookup_take_lt; assumption. }
    split; [exact Hnone'|]. split.
    + intros src_id. rewrite Hfind, Heq. reflexivity.
    + apply (resolve_undeclared_result model n prim attr id);
        [assumption | | assumption].
      rewrite Hslot. exact Hdec.
  - left.
    assert (k < n)%nat as Hkn.
    { apply lookup_lt_Some in Hk. rewrite length_take in Hk. lia. }
    rewrite lookup_take_lt in Hk by assumption.
    exists k, p. split; [assumption|]. split; [assumption|].
    split; [assumption|]. split; [|split].
    + intros j q Hj Hq. apply (Hlast j q); [lia|].
      rewrite lookup_take_lt; [assumption | lia].
    + intros src_id. rewrite Hfind, Heq. reflexivity.
    + unfold resolve. rewrite Hfind, Heq. cbn [Nat.add].
      unfold iter_valid.
      destruct (Nat.eqb_spec k n); [lia|].
      destruct (Nat.ltb_spec k (length model)); [|lia].
      reflexivity.
Qed.

(** The slots of a feMerge are its children, counted from 0: slot [attr] reads
    the input of child number [attr] when that child is a feMergeNode, and
    there is no such slot for a negative number, a number past the last
    child, or a child of another type. *)
Theorem slot_image_merge (prim : SPFilterPrimitive) (attr : Z) :
  prim_type prim = FEMERGE ->
  slot_image prim attr =
  if (0 <=? attr) then
    match children prim !! Z.to_nat attr with
    | Some (SPFeMergeNode input) => Some input
    | _ => None
    end
  else None.
Proof. exact (slot_image_of_merge prim attr). Qed.

(** [input_count] and the slots [find_result] knows agree on an ordinary
    primitive; on a feMerge the last slot counted is the one past the last
    child, which holds nothing: [find_result] answers the end iterator there
    and leaves [src_id] alone. *)
Theorem input_count_slots (model : list SPFilterPrimitive) (n : nat)
    (prim : SPFilterPrimitive) (src_id : Z) :
  model !! n = Some prim ->
  (prim_type prim <> FEMERGE ->
   is_Some (slot_image prim SP_ATTR_IN) /\
   (is_Some (slot_image prim SP_ATTR_IN2) <-> input_count (Some prim) = 2)) /\
  (prim_type prim = FEMERGE ->
   find_result model n (input_count (Some prim) - 1) src_id
   = (length model, src_id)).
Proof.
  intros Hn. split.
  - intros Hm. unfold slot_image. unfold_type_tests.
    rewrite input_count_by_type.
    destruct (Z.eqb_spec SP_ATTR_IN2 SP_ATTR_IN) as [E|E];
      [exfalso; apply SP_ATTR_distinct; congruence|].
    rewrite !Z.eqb_refl.
    destruct (prim_type prim); try congruence;
      (split; [eauto|]); split; intros H;
      try reflexivity; try (eexists; reflexivity); try discriminate;
      try (destruct H; discriminate).
  - intros Hm. unfold find_result. rewrite Hn.
    rewrite (slot_image_of_merge prim _ Hm), input_count_by_type, Hm.
    replace (Z.of_nat (length (children prim)) + 1 - 1)
      with (Z.of_nat (length (children prim))) by lia.
    destruct (Z.leb_spec 0 (Z.of_nat (length (children prim)))); [|lia].
    rewrite Nat2Z.id. rewrite lookup_ge_None_2 by lia. reflexivity.
Qed.

(** ** What [sanitize_connections] achieves and what it keeps *)

Lemma cleared_not_result (r x : Z) : 0 <= r -> cleared r x <> r.
Proof.
  intros Hr. unfold cleared, NR_FILTER_SLOT_NOT_SET.
  destruct (Z.eqb_spec x r); [lia | assumption].
Qed.

Lemma cleared_keeps_not_result (r r' x : Z) :
  0 <= r -> x <> r -> cleared r' x <> r.
Proof.
  intros Hr Hx. unfold cleared, NR_FILTER_SLOT_NOT_SET.
  destruct (Z.eqb_spec x r'); [lia | assumption].
Qed.

Lemma in2_of_map_in2 (f : Z -> Z) (t : PrimitiveType) :
  in2_of (map_in2 f t) = f <$> in2_of t.
Proof. destruct t; reflexivity. Qed.

Lemma check_single_connection_not_uses (prim : SPFilterPrimitive) (r : Z) :
  0 <= r -> ~ uses_result (check_single_connection prim r) r.
Proof.
  intros Hr. rewrite check_single_connection_fields by assumption.
  unfold uses_result. cbn [image_in prim_type]. rewrite in2_of_map_in2.
  intros [H|H].
  - exact (cleared_not_result r _ Hr H).
  - destruct (in2_of (prim_type prim)) as [x|]; [|discriminate].
    simpl in H. injection H as H. exact (cleared_not_result r _ Hr H).
Qed.

Lemma check_single_connection_keeps_not_uses (prim : SPFilterPrimitive)
    (r r' : Z) :
  0 <= r -> ~ uses_result prim r ->
  ~ uses_result (check_single_connection prim r') r.
Proof.
  intros Hr Hnot. destruct (Z.le_gt_cases 0 r') as [Hr'|Hr'].
  - rewrite check_single_connection_fields by assumption.
    unfold uses_result in *. cbn [image_in prim_type]. rewrite in2_of_map_in2.
    intros [H|H].
    + apply (cleared_keeps_not_result r r' (image_in prim) Hr); [|exact H].
      intros E. apply Hnot. left. exact E.
    + destruct (in2_of (prim_type prim)) as [x|]; [|discriminate].
      simpl in H. injection H as H.
      apply (cleared_keeps_not_result r r' x Hr); [|exact H].
      intros E. apply Hnot. right. congruence.
  - rewrite check_single_connection_negative by lia. exact Hnot.
Qed.

Lemma foldl_check_keeps_not_uses (prim : SPFilterPrimitive)
    (results : list Z) (r : Z) :
  0 <= r -> ~ uses_result prim r ->
  ~ uses_result (foldl check_single_connection prim results) r.
Proof.
  intros Hr. revert prim.
  induction results as [|r' rest IH]; intros prim Hnot; simpl; [exact Hnot|].
  apply IH. apply check_single_connection_keeps_not_uses; assumption.
Qed.

Lemma foldl_check_not_uses (prim : SPFilterPrimitive) (results : list Z)
    (r : Z) :
  0 <= r -> r ∈ results ->
  ~ uses_result (foldl check_single_connection prim results) r.
Proof.
  intros Hr. revert prim.
  induction results as [|r' rest IH]; intros prim Hin; simpl.
  - inversion Hin.
  - apply elem_of_cons in Hin as [->|Hin].
    + apply foldl_check_keeps_not_uses; [assumption|].
      apply check_single_connection_not_uses. assumption.
    + apply IH. assumption.
Qed.

Lemma check_single_connection_in_kept_or_removed (prim : SPFilterPrimitive)
    (r : Z) :
  image_in (check_single_connection prim r) = image_in prim \/
  image_in (check_single_connection prim r) = NR_FILTER_SLOT_NOT_SET.
Proof.
  destruct (Z.le_gt_cases 0 r) as [Hr|Hr].
  - rewrite check_single_connection_fields by assumption. cbn [image_in].
    unfold cleared. destruct (image_in prim =? r); auto.
  - rewrite check_single_connection_negative by lia. auto.
Qed.

Lemma foldl_check_children (prim : SPFilterPrimitive) (results : list Z) :
  children (foldl check_single_connection prim results) = children prim.
Proof.
  revert prim. induction results as [|r rest IH]; intros prim; simpl;
    [reflexivity|].
  rewrite IH. apply check_single_connection_children.
Qed.

(** After the pass no [in] or [in2] of a row before the moved primitive names
    the result the moved primitive declares, and no [in] or [in2] of the
    moved primitive names a result declared by a row after it. *)
Theorem sanitize_connections_no_forward_reference
    (model : list SPFilterPrimitive) (n : nat) (prim : SPFilterPrimitive) :
  model !! n = Some prim ->
  (forall i cur',
      (i < n)%nat -> 0 <= image_out prim ->
      sanitize_connections model n !! i = Some cur' ->
      ~ uses_result cur' (image_out prim)) /\
  (forall j later moved',
      (n < j)%nat -> model !! j = Some later -> 0 <= image_out later ->
      sanitize_connections model n !! n = Some moved' ->
      ~ uses_result moved' (image_out later)).
Proof.
  intros Hn. split.
  - intros i cur' Hi Hout Hcur'.
    rewrite (sanitize_connections_lookup model n prim i Hn) in Hcur'.
    rewrite decide_False in Hcur' by lia.
    rewrite decide_True in Hcur' by assumption.
    destruct (model !! i) as [cur|]; [|discriminate].
    simpl in Hcur'. injection Hcur' as <-.
    apply check_single_connection_not_uses. assumption.
  - intros j later moved' Hj Hlater Hout Hmoved'.
    rewrite (sanitize_connections_lookup model n prim n Hn) in Hmoved'.
    rewrite decide_True in Hmoved' by reflexivity.
    injection Hmoved' as <-.
    apply foldl_check_not_uses; [assumption|].
    apply list_elem_of_fmap. exists later. split; [reflexivity|].
    apply list_elem_of_lookup. exists (j - S n)%nat.
    rewrite lookup_drop. replace (S n + (j - S n))%nat with j by lia.
    assumption.
Qed.

(** The pass only removes connections: it keeps the number of rows, the
    result each row declares and the children of each row, it leaves the
    rows after the moved one as they are, and when the moved primitive
    declares no result it leaves the rows before it as they are too. *)
Theorem sanitize_connections_frame (model : list SPFilterPrimitive) (n : nat)
    (prim : SPFilterPrimitive) :
  model !! n = Some prim ->
  length (sanitize_connections model n) = length model /\
  (forall i, (image_out <$> sanitize_connections model n !! i)
             = (image_out <$> model !! i)) /\
  (forall i, (children <$> sanitize_connections model n !! i)
             = (children <$> model !! i)) /\
  (forall i, (n < i)%nat -> sanitize_connections model n !! i = model !! i) /\
  (image_out prim < 0 ->
   forall i, (i < n)%nat -> sanitize_connections model n !! i = model !! i).
Proof.
  intros Hn. split; [exact (sanitize_connections_length model n prim Hn)|].
  split; [|split; [|split]].
  - intros i. rewrite (sanitize_connections_lookup model n prim i Hn).
    destruct (decide (i = n)) as [->|].
    + rewrite Hn. simpl. rewrite foldl_check_image_out. reflexivity.
    + destruct (decide (i < n)%nat); [|reflexivity].
      destruct (model !! i); simpl; [|reflexivity].
      rewrite check_single_connection_image_out. reflexivity.
  - intros i. rewrite (sanitize_connections_lookup model n prim i Hn).
    destruct (decide (i = n)) as [->|].
    + rewrite Hn. simpl. rewrite foldl_check_children. reflexivity.
    + destruct (decide (i < n)%nat); [|reflexivity].
      destruct (model !! i); simpl; [|reflexivity].
      rewrite check_single_connection_children. reflexivity.
  - intros i Hi. rewrite (sanitize_connections_lookup model n prim i Hn).
    rewrite decide_False by lia. rewrite decide_False by lia. reflexivity.
  - intros Hout i Hi. rewrite (sanitize_connections_lookup model n prim i Hn).
    rewrite decide_False by lia. rewrite decide_True by assumption.
    destruct (model !! i); simpl; [|reflexivity].
    rewrite check_single_connection_negative by assumption. reflexivity.
Qed.

(** ** More on the release handler *)

(** A release that is not the end of a connection drag ([_in_drag] is 0)
    changes nothing; a release with no row under the pointer changes no row,
    and ends the drag when a primitive is selected (with none selected
    [_in_drag] keeps its value). *)
Theorem release_without_target (l : PrimitiveList) (e : ReleaseEvent)
    (_image_number_next : Z) :
  (_in_drag l = 0 -> on_button_release_event l e _image_number_next = l) /\
  (path_at_pos e = None ->
   _model (on_button_release_event l e _image_number_next) = _model l /\
   ((exists sel prim, selected l = Some sel /\ _model l !! sel = Some prim) ->
    _in_drag (on_button_release_event l e _image_number_next) = 0) /\
   (selected l = None ->
    _in_drag (on_button_release_event l e _image_number_next) = _in_drag l)).
Proof.
  unfold on_button_release_event. split.
  - intros H0. rewrite H0. destruct (selected l); reflexivity.
  - intros Hpath. rewrite Hpath.
    destruct (selected l) as [sel|] eqn:Hsel.
    + destruct (negb (_in_drag l =? 0) && bool_decide (is_Some (_model l !! sel)))
        eqn:Hcond.
      * split; [reflexivity|]. split; [reflexivity | discriminate].
      * split; [reflexivity|]. split; [|discriminate].
        intros (sel' & prim & Hs & Hp). injection Hs as <-.
        rewrite bool_decide_true in Hcond by eauto.
        rewrite andb_true_r in Hcond.
        destruct (Z.eqb_spec (_in_drag l) 0); [assumption | discriminate].
    + split; [reflexivity|]. split; [|reflexivity].
      intros (sel' & prim & Hs & _). discriminate.
Qed.

(** Whatever the release, the list keeps its length, the selection and the
    lock stay, and only two rows can change: the selected one and the one
    under the pointer. *)
Theorem release_frame (l : PrimitiveList) (e : ReleaseEvent)
    (_image_number_next : Z) :
  let l' := on_button_release_event l e _image_number_next in
  length (_model l') = length (_model l) /\
  selected l' = selected l /\ _locked l' = _locked l /\
  forall i : nat,
    selected l <> Some i -> path_at_pos e <> Some i ->
    _model l' !! i = _model l !! i.
Proof.
  cbv zeta. unfold on_button_release_event.
  destruct (selected l) as [sel|] eqn:Hsel;
    [|repeat (split; [first [reflexivity | exact Hsel]|]); intros; reflexivity].
  destruct (negb (_in_drag l =? 0) && bool_decide (is_Some (_model l !! sel)));
    [|repeat (split; [first [reflexivity | exact Hsel]|]); intros; reflexivity].
  destruct (path_at_pos e) as [target_iter|];
    [|repeat (split; [first [reflexivity | exact Hsel]|]); intros; reflexivity].
  assert (forall model in_val,
             length model = length (_model l) ->
             (forall i, Some target_iter <> Some i -> model !! i = _model l !! i) ->
             let model' :=
               match model !! sel with
               | Some prim =>
                   <[sel := commit_connection (_locked l) (_in_drag l) in_val prim]>
                     model
               | None => model
               end in
             length model' = length (_model l) /\
             forall i, Some sel <> Some i -> Some target_iter <> Some i ->
                       model' !! i = _model l !! i) as Hcommit.
  { intros model in_val Hlen Hlook. cbv zeta.
    destruct (model !! sel); [|split; [assumption | auto]].
    rewrite length_insert. split; [assumption|].
    intros i Hs Ht. rewrite list_lookup_insert_ne by congruence. auto. }
  destruct (cx e >? cell_width e - text_width * FPInputConverter_end).
  - destruct (Hcommit (_model l)
                (Some (source_under_pointer e
                         (cell_width e - text_width * FPInputConverter_end)
                         text_width)) eq_refl (fun _ _ => eq_refl))
      as [Hlen Hlook].
    cbn [_model selected _locked]. repeat split; assumption.
  - unfold result_of_target.
    destruct (target_before (seq 0 sel) target_iter);
      [|destruct (Hcommit (_model l) None eq_refl (fun _ _ => eq_refl));
        cbn [_model selected _locked]; repeat split; assumption].
    destruct (_model l !! target_iter) as [target|];
      [|destruct (Hcommit (_model l) None eq_refl (fun _ _ => eq_refl));
        cbn [_model selected _locked]; repeat split; assumption].
    destruct (attr_result target) as [gres|].
    + destruct (Hcommit (_model l) (Some gres) eq_refl (fun _ _ => eq_refl)).
      cbn [_model selected _locked]. repeat split; assumption.
    + destruct (Hcommit
                  (<[target_iter := set_result target
                       (Some (String.append "result" (dtostr _image_number_next)))]>
                     (_model l))
                  (Some (String.append "result" (dtostr _image_number_next))))
        as [Hlen Hlook].
      * apply length_insert.
      * intros i Hi. apply list_lookup_insert_ne. congruence.
      * cbn [_model selected _locked]. repeat split; assumption.
Qed.

(** A release right of [sources_x] commits a standard input: the one whose
    label column the pointer is in, and the last one when the pointer is
    further right; the row under the pointer plays no part. *)
Theorem release_over_standard_input (l : PrimitiveList) (e : ReleaseEvent)
    (_image_number_next : Z) (sel target_iter : nat) (prim : PrimitiveRepr) :
  selected l = Some sel ->
  _in_drag l <> 0 ->
  _model l !! sel = Some prim ->
  path_at_pos e = Some target_iter ->
  0 < text_width -> 0 < FPInputConverter_end ->
  cell_width e - text_width * FPInputConverter_end < cx e ->
  let sources_x := cell_width e - text_width * FPInputConverter_end in
  let src := Z.min ((cx e - sources_x) / text_width) (FPInputConverter_end - 1) in
  0 <= src < FPInputConverter_end /\
  _model (on_button_release_event l e _image_number_next)
  = <[sel := commit_connection (_locked l) (_in_drag l)
               (Some (FPInputConverter_get_key src)) prim]> (_model l).
Proof.
  intros Hsel Hdrag Hprim Hpath Htw Hend Hcx. cbv zeta.
  set (sources_x := cell_width e - text_width * FPInputConverter_end) in *.
  assert (0 <= (cx e - sources_x) / text_width) as Hq
    by (apply Z.div_pos; lia).
  split; [lia|].
  unfold on_button_release_event. rewrite Hsel, Hpath, Hprim.
  destruct (Z.eqb_spec (_in_drag l) 0) as [|_]; [contradiction|].
  rewrite bool_decide_true by eauto. cbn [negb andb]. fold sources_x.
  destruct (Z.gtb_spec (cx e) sources_x) as [_|]; [|lia].
  rewrite Hprim. cbn [_model]. unfold source_under_pointer.
  rewrite Z.quot_div_nonneg by lia.
  destruct (Z.ltb_spec ((cx e - sources_x) / text_width) 0); [lia|].
  destruct (Z.geb_spec ((cx e - sources_x) / text_width) FPInputConverter_end).
  - rewrite Z.min_r by lia. reflexivity.
  - rewrite Z.min_l by lia. reflexivity.
Qed.

(** ** Single-precision arithmetic on the integers it holds *)

(** The number of binary digits of a mantissa. *)
Lemma digits2_pos_log2 (p : positive) :
  Zpos (digits2_pos p) = Z.log2 (Zpos p) + 1.
Proof.
  assert (forall q, digits2_pos q = Pos.size q) as Hsize.
  { induction q as [q IH|q IH|]; simpl; congruence. }
  destruct p as [p|p|]; simpl; rewrite ?Hsize; lia.
Qed.

Lemma Zdigits2_log2 (m : Z) : 0 < m -> Zdigits2 m = Z.log2 m + 1.
Proof. destruct m as [|p|p]; try lia. intros _. apply digits2_pos_log2. Qed.

Lemma Zdigits2_bounds (m : Z) :
  0 < m -> 2 ^ (Zdigits2 m - 1) <= m < 2 ^ Zdigits2 m.
Proof.
  intros Hm. rewrite Zdigits2_log2 by assumption.
  replace (Z.log2 m + 1 - 1) with (Z.log2 m) by lia.
  replace (Z.log2 m + 1) with (Z.succ (Z.log2 m)) by lia.
  apply Z.log2_spec. assumption.
Qed.

Lemma Zdigits2_unique (m d : Z) :
  2 ^ (d - 1) <= m < 2 ^ d -> 0 < d -> Zdigits2 m = d.
Proof.
  intros H Hd.
  assert (0 < m) by (pose proof (Z.pow_pos_nonneg 2 (d - 1)); lia).
  rewrite Zdigits2_log2 by assumption.
  rewrite (Z.log2_unique m (d - 1)); [lia | lia |].
  replace (Z.succ (d - 1)) with d by lia. assumption.
Qed.

Lemma Zdigits2_mul_pow2 (m p : Z) :
  0 < m -> 0 <= p -> Zdigits2 (m * 2 ^ p) = Zdigits2 m + p.
Proof.
  intros Hm Hp.
  assert (0 < 2 ^ p) by (apply Z.pow_pos_nonneg; lia).
  rewrite !Zdigits2_log2 by nia.
  rewrite Z.log2_mul_pow2 by lia. lia.
Qed.

(** Shifting a mantissa right and left. *)
Lemma iter_pos_iter {A : Type} (f : A -> A) (p : positive) :
  forall x, SpecFloat.iter_pos f p x = Pos.iter f x p.
Proof.
  induction p as [p IH|p IH|]; intros x; simpl.
  - rewrite !IH. rewrite <- !Pos.iter_swap. reflexivity.
  - rewrite !IH. reflexivity.
  - reflexivity.
Qed.

Lemma shr_1_double (m : Z) :
  0 < m ->
  shr_1 (Build_shr_record (2 * m) false false) = Build_shr_record m false false.
Proof. destruct m; try lia. reflexivity. Qed.

Lemma shr_exact (p : positive) :
  forall m, 0 < m ->
  SpecFloat.iter_pos shr_1 p (Build_shr_record (m * 2 ^ Zpos p) false false)
  = Build_shr_record m false false.
Proof.
  intros m Hm. rewrite iter_pos_iter. revert m Hm.
  induction p as [|p IH] using Pos.peano_ind; intros m Hm.
  - replace (m * 2 ^ 1) with (2 * m) by lia.
    change (Pos.iter shr_1 ?x 1) with (shr_1 x).
    apply shr_1_double. assumption.
  - rewrite Pos.iter_succ_r.
    rewrite Pos2Z.inj_succ, Z.pow_succ_r by lia.
    replace (m * (2 * 2 ^ Z.pos p)) with (2 * (m * 2 ^ Z.pos p)) by lia.
    rewrite shr_1_double.
    + apply IH. assumption.
    + assert (0 < 2 ^ Zpos p) by (apply Z.pow_pos_nonneg; lia). nia.
Qed.

Lemma iter_xO_pow2 (m d : positive) :
  Zpos (Pos.iter xO m d) = Zpos m * 2 ^ Zpos d.
Proof.
  induction d as [|d IH] using Pos.peano_ind.
  - simpl. lia.
  - rewrite Pos.iter_succ, Pos2Z.inj_succ, Z.pow_succ_r by lia.
    rewrite Pos2Z.inj_xO, IH. lia.
Qed.

(** Rounding a value that fits the format as it is leaves it unchanged. *)
Lemma binary_round_aux_exact (sx : bool) (m e p : Z) :
  0 < m -> 0 <= p ->
  fexp 24 128 (Zdigits2 (m * 2 ^ p) + e) = e + p ->
  e + p <= 104 ->
  binary_round_aux 24 128 sx (m * 2 ^ p) e loc_Exact
  = S754_finite sx (Z.to_pos m) (e + p).
Proof.
  intros Hm Hp Hfexp Hmax.
  unfold binary_round_aux, shr_fexp. rewrite Hfexp.
  replace (e + p - e) with p by lia.
  assert (shr (shr_record_of_loc (m * 2 ^ p) loc_Exact) e p
          = (Build_shr_record m false false, e + p)) as ->.
  { unfold shr_record_of_loc.
    destruct p as [|p|p]; [| |lia].
    - change (2 ^ 0) with 1. rewrite Z.mul_1_r, Z.add_0_r. reflexivity.
    - unfold shr. rewrite shr_exact by assumption. reflexivity. }
  cbn [shr_m loc_of_shr_record round_nearest_even].
  rewrite Zdigits2_mul_pow2 in Hfexp by assumption.
  replace (Zdigits2 m + (e + p)) with (Zdigits2 m + p + e) by lia.
  rewrite Hfexp, Z.sub_diag. cbn [shr shr_record_of_loc shr_m].
  destruct m as [|q|q]; try lia.
  destruct (Z.leb_spec (e + p) (128 - 24)); [reflexivity | lia].
Qed.

(** Integers below 2^24 = 16777216 in magnitude are floats, and their sums,
    differences and products are computed exactly while they stay below it. *)
Lemma small_digits (n : Z) :
  0 < n < 16777216 -> 1 <= Zdigits2 n <= 24.
Proof.
  intros Hn. pose proof (Zdigits2_bounds n (proj1 Hn)) as [Hlo Hhi].
  rewrite Zdigits2_log2 in * by lia.
  pose proof (Z.log2_nonneg n). split; [lia|].
  destruct (Z.le_gt_cases (Z.log2 n + 1) 24) as [|Hgt]; [assumption|exfalso].
  assert (2 ^ 24 <= 2 ^ (Z.log2 n + 1 - 1)) by (apply Z.pow_le_mono_r; lia).
  change (2 ^ 24) with 16777216 in *. lia.
Qed.

Lemma binary_round_int (sx : bool) (n k : Z) :
  0 < n < 16777216 -> 0 <= k ->
  binary_round 24 128 sx (Z.to_pos (n * 2 ^ k)) (- k)
  = S754_finite sx (Z.to_pos (n * 2 ^ (24 - Zdigits2 n))) (Zdigits2 n - 24).
Proof.
  intros Hn Hk. pose proof (small_digits n Hn) as Hd.
  assert (0 < 2 ^ k) as Hpk by (apply Z.pow_pos_nonneg; lia).
  assert (0 < 2 ^ (24 - Zdigits2 n)) as Hpd by (apply Z.pow_pos_nonneg; lia).
  unfold binary_round.
  assert (Zpos (digits2_pos (Z.to_pos (n * 2 ^ k))) = Zdigits2 n + k) as ->.
  { rewrite <- Zdigits2_mul_pow2 by lia.
    destruct (n * 2 ^ k) eqn:E; try nia. reflexivity. }
  assert (fexp 24 128 (Zdigits2 n + k + - k) = Zdigits2 n - 24) as ->
    by (unfold fexp, emin; lia).
  destruct (Z.le_gt_cases 0 (Zdigits2 n - 24 + k)) as [Hshr|Hshl].
  - assert (shl_align (Z.to_pos (n * 2 ^ k)) (- k) (Zdigits2 n - 24)
            = (Z.to_pos (n * 2 ^ k), - k)) as ->.
    { unfold shl_align.
      destruct (Zdigits2 n - 24 - - k) eqn:Hs; try lia; reflexivity. }
    rewrite Z2Pos.id by nia.
    replace (n * 2 ^ k)
      with (n * 2 ^ (24 - Zdigits2 n) * 2 ^ (Zdigits2 n - 24 + k)).
    + rewrite binary_round_aux_exact; try lia.
      * f_equal. lia.
      * rewrite <- Z.mul_assoc, <- Z.pow_add_r by lia.
        rewrite Zdigits2_mul_pow2 by lia. unfold fexp, emin. lia.
    + rewrite <- Z.mul_assoc, <- Z.pow_add_r by lia. f_equal. f_equal. lia.
  - assert (shl_align (Z.to_pos (n * 2 ^ k)) (- k) (Zdigits2 n - 24)
            = (Z.to_pos (n * 2 ^ (24 - Zdigits2 n)), Zdigits2 n - 24)) as ->.
    { unfold shl_align.
      destruct (Zdigits2 n - 24 - - k) as [|q|q] eqn:Hs; try lia.
      f_equal. apply Pos2Z.inj.
      rewrite iter_xO_pow2, !Z2Pos.id by nia.
      rewrite <- Z.mul_assoc, <- Z.pow_add_r by lia. f_equal. f_equal. lia. }
    rewrite Z2Pos.id by nia.
    rewrite <- (Z.mul_1_r (n * 2 ^ (24 - Zdigits2 n))) at 1.
    change 1 with (2 ^ 0) at 1.
    rewrite binary_round_aux_exact; try lia.
    + f_equal. lia.
    + rewrite Z.pow_0_r, Z.mul_1_r, Zdigits2_mul_pow2 by lia.
      unfold fexp, emin. lia.
Qed.

Lemma float_of_int_pos (n : Z) :
  0 < n < 16777216 ->
  float_of_int n
  = S754_finite false (Z.to_pos (n * 2 ^ (24 - Zdigits2 n))) (Zdigits2 n - 24).
Proof.
  intros Hn. rewrite <- (binary_round_int false n 0) by lia.
  rewrite Z.pow_0_r, Z.mul_1_r. destruct n; try lia. reflexivity.
Qed.

Lemma float_of_int_neg (n : Z) :
  0 < n < 16777216 ->
  float_of_int (- n)
  = S754_finite true (Z.to_pos (n * 2 ^ (24 - Zdigits2 n))) (Zdigits2 n - 24).
Proof.
  intros Hn. rewrite <- (binary_round_int true n 0) by lia.
  rewrite Z.pow_0_r, Z.mul_1_r. destruct n; try lia. reflexivity.
Qed.

(** A small integer is zero or has a sign and a magnitude. *)
Lemma float_of_int_cases (z : Z) :
  Z.abs z < 16777216 ->
  (z = 0 /\ float_of_int z = S754_zero false) \/
  (exists s n, 0 < n < 16777216 /\ z = cond_Zopp s n /\
     float_of_int z
     = S754_finite s (Z.to_pos (n * 2 ^ (24 - Zdigits2 n))) (Zdigits2 n - 24)).
Proof.
  intros Hz. destruct (Z.lt_trichotomy z 0) as [Hneg|[->|Hpos]].
  - right. exists true, (- z). split; [lia|]. split; [simpl; lia|].
    rewrite <- float_of_int_neg by lia. f_equal. lia.
  - left. split; reflexivity.
  - right. exists false, z. split; [lia|]. split; [reflexivity|].
    apply float_of_int_pos. lia.
Qed.

Lemma binary_normalize_int (z k : Z) :
  Z.abs z < 16777216 -> 0 <= k ->
  binary_normalize 24 128 (z * 2 ^ k) (- k) false = float_of_int z.
Proof.
  intros Hz Hk.
  assert (0 < 2 ^ k) as Hpk by (apply Z.pow_pos_nonneg; lia).
  destruct (Z.lt_trichotomy z 0) as [Hneg|[->|Hpos]].
  - replace z with (- (- z)) by lia.
    rewrite float_of_int_neg by lia.
    rewrite <- (binary_round_int true (- z) k) by lia.
    destruct (- z) as [|q|q] eqn:E; try lia.
    replace (- Zpos q * 2 ^ k) with (- (Zpos q * 2 ^ k)) by lia.
    destruct (Zpos q * 2 ^ k) eqn:E2; try nia. reflexivity.
  - reflexivity.
  - rewrite float_of_int_pos by lia.
    rewrite <- (binary_round_int false z k) by lia.
    destruct (z * 2 ^ k) eqn:E2; try nia. reflexivity.
Qed.

Lemma shl_align_value (m : positive) (e ez : Z) :
  ez <= e -> Zpos (fst (shl_align m e ez)) = Zpos m * 2 ^ (e - ez).
Proof.
  intros Hle. unfold shl_align.
  destruct (ez - e) as [|q|q] eqn:Hs; try lia.
  - replace (e - ez) with 0 by lia. simpl. lia.
  - cbn [fst]. rewrite iter_xO_pow2. f_equal. f_equal. lia.
Qed.

Lemma cond_Zopp_mul (s : bool) (n k : Z) :
  cond_Zopp s (n * k) = cond_Zopp s n * k.
Proof. destruct s; simpl; lia. Qed.

(** The sum of the aligned mantissas of two small integers. *)
Lemma aligned_mantissa (n ez : Z) :
  0 < n < 16777216 -> ez <= Zdigits2 n - 24 ->
  Zpos (fst (shl_align (Z.to_pos (n * 2 ^ (24 - Zdigits2 n))) (Zdigits2 n - 24) ez))
  = n * 2 ^ (- ez).
Proof.
  intros Hn Hez. pose proof (small_digits n Hn) as Hd.
  assert (0 < 2 ^ (24 - Zdigits2 n)) as Hpd by (apply Z.pow_pos_nonneg; lia).
  rewrite shl_align_value by assumption.
  rewrite Z2Pos.id by nia.
  rewrite <- Z.mul_assoc, <- Z.pow_add_r by lia. f_equal. f_equal. lia.
Qed.

Lemma float_add_exact (a b : Z) :
  Z.abs a < 16777216 -> Z.abs b < 16777216 -> Z.abs (a + b) < 16777216 ->
  float_add (float_of_int a) (float_of_int b) = float_of_int (a + b).
Proof.
  intros Ha Hb Hab.
  destruct (float_of_int_cases a Ha) as [[-> Ea]|(sa & na & Hna & -> & Ea)];
    destruct (float_of_int_cases b Hb) as [[-> Eb]|(sb & nb & Hnb & -> & Eb)].
  - reflexivity.
  - rewrite Z.add_0_l, Ea, Eb. reflexivity.
  - rewrite Z.add_0_r, Ea, Eb. reflexivity.
  - rewrite Ea, Eb. unfold float_add, SFadd.
    pose proof (small_digits na Hna). pose proof (small_digits nb Hnb).
    set (ez := Z.min (Zdigits2 na - 24) (Zdigits2 nb - 24)).
    cbv zeta.
    rewrite !aligned_mantissa by (subst ez; lia).
    rewrite !cond_Zopp_mul, <- Z.mul_add_distr_r.
    assert (0 <= - ez) as Hk by (subst ez; lia).
    pose proof (binary_normalize_int _ _ Hab Hk) as Hn.
    rewrite Z.opp_involutive in Hn. exact Hn.
Qed.

Lemma float_sub_exact (a b : Z) :
  Z.abs a < 16777216 -> Z.abs b < 16777216 -> Z.abs (a - b) < 16777216 ->
  float_sub (float_of_int a) (float_of_int b) = float_of_int (a - b).
Proof.
  intros Ha Hb Hab.
  destruct (float_of_int_cases a Ha) as [[-> Ea]|(sa & na & Hna & -> & Ea)];
    destruct (float_of_int_cases b Hb) as [[-> Eb]|(sb & nb & Hnb & -> & Eb)].
  - reflexivity.
  - rewrite Ea, Eb. rewrite Z.sub_0_l.
    destruct sb; cbn [cond_Zopp].
    + rewrite Z.opp_involutive, float_of_int_pos by lia. reflexivity.
    + rewrite float_of_int_neg by lia. reflexivity.
  - rewrite Z.sub_0_r, Ea, Eb. reflexivity.
  - rewrite Ea, Eb. unfold float_sub, SFsub.
    pose proof (small_digits na Hna). pose proof (small_digits nb Hnb).
    set (ez := Z.min (Zdigits2 na - 24) (Zdigits2 nb - 24)).
    cbv zeta.
    rewrite !aligned_mantissa by (subst ez; lia).
    rewrite !cond_Zopp_mul, <- Z.mul_sub_distr_r.
    assert (0 <= - ez) as Hk by (subst ez; lia).
    pose proof (binary_normalize_int _ _ Hab Hk) as Hn.
    rewrite Z.opp_involutive in Hn. exact Hn.
Qed.

Lemma digits_of_product (a b : Z) :
  0 < a -> 0 < b -> Zdigits2 a + Zdigits2 b - 1 <= Zdigits2 (a * b).
Proof.
  intros Ha Hb.
  pose proof (Zdigits2_bounds a Ha) as [Hla _].
  pose proof (Zdigits2_bounds b Hb) as [Hlb _].
  assert (0 < a * b) as Hab by nia.
  pose proof (Zdigits2_bounds (a * b) Hab) as [_ Hhi].
  rewrite (Zdigits2_log2 a), (Zdigits2_log2 b), (Zdigits2_log2 (a * b)) in *
    by assumption.
  pose proof (Z.log2_nonneg a). pose proof (Z.log2_nonneg b).
  pose proof (Z.log2_nonneg (a * b)).
  destruct (Z.le_gt_cases (Z.log2 a + 1 + (Z.log2 b + 1) - 1) (Z.log2 (a * b) + 1))
    as [|Hgt]; [assumption|exfalso].
  assert (2 ^ (Z.log2 (a * b) + 1)
          <= 2 ^ (Z.log2 a + 1 - 1) * 2 ^ (Z.log2 b + 1 - 1))
    by (rewrite <- Z.pow_add_r by lia; apply Z.pow_le_mono_r; lia).
  assert (0 < 2 ^ (Z.log2 a + 1 - 1)) by (apply Z.pow_pos_nonneg; lia).
  assert (0 < 2 ^ (Z.log2 b + 1 - 1)) by (apply Z.pow_pos_nonneg; lia).
  assert (2 ^ (Z.log2 a + 1 - 1) * 2 ^ (Z.log2 b + 1 - 1) <= a * b)
    by (apply Z.mul_le_mono_nonneg; lia).
  lia.
Qed.

Lemma float_mul_exact (a b : Z) :
  Z.abs a < 16777216 -> 0 < b < 16777216 -> Z.abs (a * b) < 16777216 ->
  float_mul (float_of_int a) (float_of_int b) = float_of_int (a * b).
Proof.
  intros Ha Hb Hab.
  rewrite (float_of_int_pos b Hb).
  destruct (float_of_int_cases a Ha) as [[-> Ea]|(sa & na & Hna & -> & Ea)].
  - reflexivity.
  - rewrite Ea. unfold float_mul, SFmul. rewrite xorb_false_r.
    pose proof (small_digits na Hna) as Hda. pose proof (small_digits b Hb) as Hdb.
    assert (0 < na * b < 16777216) as Hnab by (destruct sa; simpl in Hab; nia).
    pose proof (small_digits (na * b) Hnab) as Hdab.
    pose proof (digits_of_product na b ltac:(lia) ltac:(lia)) as Hprod.
    assert (0 < 2 ^ (24 - Zdigits2 na)) by (apply Z.pow_pos_nonneg; lia).
    assert (0 < 2 ^ (24 - Zdigits2 b)) by (apply Z.pow_pos_nonneg; lia).
    assert (0 < 2 ^ (24 - Zdigits2 (na * b))) by (apply Z.pow_pos_nonneg; lia).
    rewrite Pos2Z.inj_mul, !Z2Pos.id by nia.
    replace (na * 2 ^ (24 - Zdigits2 na) * (b * 2 ^ (24 - Zdigits2 b)))
      with (na * b * 2 ^ (24 - Zdigits2 (na * b))
            * 2 ^ (24 - Zdigits2 na - Zdigits2 b + Zdigits2 (na * b))).
    + rewrite binary_round_aux_exact; try lia.
      * replace (cond_Zopp sa na * b) with (cond_Zopp sa (na * b))
          by (destruct sa; simpl; lia).
        destruct sa; cbn [cond_Zopp];
          [rewrite float_of_int_neg by lia | rewrite float_of_int_pos by lia];
          f_equal; lia.
      * rewrite <- Z.mul_assoc, <- Z.pow_add_r by lia.
        rewrite Zdigits2_mul_pow2 by lia. unfold fexp, emin. lia.
    + rewrite <- (Z.mul_assoc (na * b)), <- Z.pow_add_r by lia.
      replace (na * 2 ^ (24 - Zdigits2 na) * (b * 2 ^ (24 - Zdigits2 b)))
        with (na * b * (2 ^ (24 - Zdigits2 na) * 2 ^ (24 - Zdigits2 b))) by lia.
      rewrite <- Z.pow_add_r by lia. f_equal. f_equal. lia.
Qed.

Lemma div_eucl_div_mod (a b : Z) : Z.div_eucl a b = (a / b, a mod b).
Proof. unfold Z.div, Z.modulo. destruct (Z.div_eucl a b). reflexivity. Qed.

(** Halving a float that has a full mantissa lowers its exponent. *)
Lemma float_div_2 (half : Z) :
  0 < half -> 2 * half < 16777216 ->
  float_div (float_of_int (2 * half)) (float_of_int 2) = float_of_int half.
Proof.
  intros Hh Hb.
  rewrite (float_of_int_pos (2 * half)), (float_of_int_pos half) by lia.
  change (float_of_int 2) with (S754_finite false 8388608 (-22)).
  pose proof (small_digits half ltac:(lia)) as Hdh.
  assert (Zdigits2 (2 * half) = Zdigits2 half + 1) as Hd.
  { replace (2 * half) with (half * 2 ^ 1) by lia.
    apply Zdigits2_mul_pow2; lia. }
  rewrite Hd.
  assert (0 < 2 ^ (24 - (Zdigits2 half + 1))) as Hp by (apply Z.pow_pos_nonneg;
    pose proof (small_digits (2 * half) ltac:(lia)); lia).
  pose proof (small_digits (2 * half) ltac:(lia)) as Hd2. rewrite Hd in Hd2.
  set (m := 2 * half * 2 ^ (24 - (Zdigits2 half + 1))).
  assert (0 < m) as Hm by (subst m; nia).
  assert (Zdigits2 m = 24) as Hdm.
  { subst m. rewrite Zdigits2_mul_pow2 by lia. lia. }
  assert (half * 2 ^ (24 - Zdigits2 half) = m) as ->.
  { subst m. replace (24 - Zdigits2 half) with (1 + (24 - (Zdigits2 half + 1))) by lia.
    rewrite Z.pow_add_r by lia. lia. }
  unfold float_div, SFdiv, SFdiv_core_binary.
  rewrite Z2Pos.id by assumption. rewrite Hdm.
  change (Zdigits2 8388608) with 24.
  set (ex := Zdigits2 half + 1 - 24).
  assert (Z.min (fexp 24 128 (24 + ex - (24 + -22))) (ex - -22) = ex - 2) as ->
    by (unfold fexp, emin; subst ex; lia).
  replace (ex - -22 - (ex - 2)) with 24 by lia.
  rewrite Z.shiftl_mul_pow2 by lia.
  rewrite div_eucl_div_mod.
  change (2 ^ 24) with (2 * 8388608).
  rewrite Z.mul_assoc, Z.div_mul, Z.mod_mul by lia.
  change (new_location 8388608 0) with loc_Exact.
  cbn [xorb].
  replace (m * 2) with (m * 2 ^ 1) by lia.
  rewrite binary_round_aux_exact; try lia.
  - f_equal. subst ex. lia.
  - rewrite Zdigits2_mul_pow2, Hdm by lia. unfold fexp, emin. subst ex. lia.
Qed.

Lemma int_of_float_of_int (z : Z) :
  Z.abs z < 16777216 -> int_of_float (float_of_int z) = z.
Proof.
  intros Hz.
  destruct (float_of_int_cases z Hz) as [[-> E]|(s & n & Hn & -> & E)];
    rewrite E; [reflexivity|].
  pose proof (small_digits n Hn) as Hd.
  assert (0 < 2 ^ (24 - Zdigits2 n)) by (apply Z.pow_pos_nonneg; lia).
  unfold int_of_float. f_equal.
  rewrite Z2Pos.id by nia.
  replace (Zdigits2 n - 24) with (- (24 - Zdigits2 n)) by lia.
  change (Z.shiftl ?a (- ?b)) with (Z.shiftr a b).
  rewrite Z.shiftr_div_pow2 by lia. apply Z.div_mul. lia.
Qed.

Lemma compare_canonical (a b : Z) :
  0 < a < 16777216 -> 0 < b < 16777216 ->
  match Zdigits2 a - 24 ?= Zdigits2 b - 24 with
  | Lt => Lt
  | Gt => Gt
  | Eq => Pos.compare_cont Eq (Z.to_pos (a * 2 ^ (24 - Zdigits2 a)))
                              (Z.to_pos (b * 2 ^ (24 - Zdigits2 b)))
  end = (a ?= b).
Proof.
  intros Ha Hb.
  pose proof (small_digits a Ha) as Hda. pose proof (small_digits b Hb) as Hdb.
  pose proof (Zdigits2_bounds a ltac:(lia)) as [Hla Hha].
  pose proof (Zdigits2_bounds b ltac:(lia)) as [Hlb Hhb].
  destruct (Z.compare_spec (Zdigits2 a - 24) (Zdigits2 b - 24)) as [E|E|E].
  - assert (Zdigits2 a = Zdigits2 b) as Hd by lia. rewrite Hd.
    assert (0 < 2 ^ (24 - Zdigits2 b)) by (apply Z.pow_pos_nonneg; lia).
    change (Pos.compare_cont Eq ?x ?y) with (Pos.compare x y).
    rewrite Pos2Z.inj_compare, !Z2Pos.id by nia.
    destruct (Z.compare_spec a b) as [C|C|C]; subst;
      [apply Z.compare_refl | apply Z.compare_lt_iff; nia | apply Z.compare_gt_iff; nia].
  - symmetry. apply Z.compare_lt_iff.
    assert (2 ^ Zdigits2 a <= 2 ^ (Zdigits2 b - 1)) by (apply Z.pow_le_mono_r; lia).
    lia.
  - symmetry. apply Z.compare_gt_iff.
    assert (2 ^ Zdigits2 b <= 2 ^ (Zdigits2 a - 1)) by (apply Z.pow_le_mono_r; lia).
    lia.
Qed.

Lemma SFcompare_int (a b : Z) :
  Z.abs a < 16777216 -> Z.abs b < 16777216 ->
  SFcompare (float_of_int a) (float_of_int b) = Some (a ?= b).
Proof.
  intros Ha Hb.
  destruct (float_of_int_cases a Ha) as [[-> Ea]|(sa & na & Hna & -> & Ea)];
    destruct (float_of_int_cases b Hb) as [[-> Eb]|(sb & nb & Hnb & -> & Eb)];
    rewrite ?Ea, ?Eb; cbn [SFcompare].
  - reflexivity.
  - f_equal. destruct sb; cbn [cond_Zopp]; symmetry;
      [apply Z.compare_gt_iff | apply Z.compare_lt_iff]; lia.
  - f_equal. destruct sa; cbn [cond_Zopp]; symmetry;
      [apply Z.compare_lt_iff | apply Z.compare_gt_iff]; lia.
  - f_equal. destruct sa, sb; cbn [cond_Zopp].
    + rewrite Z.compare_opp.
      rewrite <- (compare_canonical nb na) by assumption.
      rewrite (Z.compare_antisym (Zdigits2 nb - 24)).
      rewrite Pos.compare_cont_antisym. cbn [CompOpp].
      destruct (Zdigits2 nb - 24 ?= Zdigits2 na - 24); reflexivity.
    + symmetry. apply Z.compare_lt_iff. lia.
    + symmetry. apply Z.compare_gt_iff. lia.
    + apply compare_canonical; assumption.
Qed.

Lemma float_ge_exact (a b : Z) :
  Z.abs a < 16777216 -> Z.abs b < 16777216 ->
  float_ge (float_of_int a) (float_of_int b) = (a >=? b).
Proof.
  intros Ha Hb. unfold float_ge, SFleb.
  rewrite SFcompare_int by assumption.
  rewrite Z.geb_leb. unfold Z.leb.
  destruct (b ?= a); reflexivity.
Qed.

(** Half of a small integer, cast back: the integer quotient. *)
Lemma int_of_float_half (n : Z) :
  Z.abs n < 16777216 ->
  int_of_float (float_mul (float_of_int n) float_0_5) = Z.quot n 2.
Proof.
  intros Hn.
  destruct (float_of_int_cases n Hn) as [[-> E]|(s & m & Hm & -> & E)];
    rewrite E; [reflexivity|].
  pose proof (small_digits m Hm) as Hd.
  assert (0 < 2 ^ (24 - Zdigits2 m)) as Hp by (apply Z.pow_pos_nonneg; lia).
  unfold float_mul, float_0_5, SFmul. rewrite xorb_false_r.
  rewrite Pos2Z.inj_mul, Z2Pos.id by nia.
  change (Zpos 8388608) with (2 ^ 23).
  rewrite binary_round_aux_exact; try lia.
  - unfold int_of_float. rewrite Z2Pos.id by nia.
    replace (Zdigits2 m - 24 + -24 + 23) with (- (25 - Zdigits2 m)) by lia.
    change (Z.shiftl ?a (- ?b)) with (Z.shiftr a b).
    rewrite Z.shiftr_div_pow2 by lia.
    replace (25 - Zdigits2 m) with (1 + (24 - Zdigits2 m)) by lia.
    rewrite Z.pow_add_r by lia. change (2 ^ 1) with 2.
    rewrite Z.div_mul_cancel_r by lia.
    destruct s; cbn [cond_Zopp].
    + rewrite Z.quot_opp_l by lia. rewrite Z.quot_div_nonneg by lia. reflexivity.
    + rewrite Z.quot_div_nonneg by lia. reflexivity.
  - rewrite Zdigits2_mul_pow2, Zdigits2_mul_pow2 by nia.
    unfold fexp, emin. lia.
Qed.

(** While the text width is below 2^24 = 16777216, the straight connection
    ends half a text width (the half truncated) and one pixel into the
    column of the standard input: a filled square of 5 by 5 pixels centred
    there, and a horizontal line to it from [(x1, y1)], both in the GC
    given. *)
Theorem straight_connection_end (gc : GdkGC) (src_id text_start_x x1 y1 : Z) :
  Z.abs text_width < 16777216 ->
  let end_x := text_start_x + text_width * (src_id + 1)
               + Z.quot text_width 2 + 1 in
  straight_connection gc src_id text_start_x x1 y1
  = [ draw_rectangle gc true (end_x - 2) (y1 - 2) 5 5;
      draw_line gc x1 y1 end_x y1 ].
Proof.
  intros Htw. cbv zeta. unfold straight_connection.
  rewrite int_of_float_half by assumption. reflexivity.
Qed.

(** ** [get_size_vfunc] and [on_button_press_event] *)

Lemma press_loop_spec (model : list SPFilterPrimitive) (row : nat) (x y : Z)
    (count : nat) :
  forall (i _in_drag : Z),
    let k := press_loop model row x y i count _in_drag in
    (k = _in_drag /\
     forall j, i <= j < i + Z.of_nat count ->
               inside_connection_node model row j x y = false)
    \/
    (i + 1 <= k <= i + Z.of_nat count /\
     inside_connection_node model row (k - 1) x y = true /\
     forall j, i <= j < k - 1 ->
               inside_connection_node model row j x y = false).
Proof.
  induction count as [|count IH]; intros i _in_drag; cbn [press_loop].
  - left. split; [reflexivity|]. intros j Hj. lia.
  - destruct (inside_connection_node model row i x y) eqn:Hi.
    + right. split; [lia|]. replace (i + 1 - 1) with i by lia.
      split; [exact Hi|]. intros j Hj. lia.
    + destruct (IH (i + 1) _in_drag) as [[Hk Hmiss] | (Hk & Hhit & Hmiss)].
      * left. split; [exact Hk|]. intros j Hj.
        destruct (Z.eq_dec j i) as [->|]; [exact Hi|]. apply Hmiss. lia.
      * right. split; [lia|]. split; [exact Hhit|]. intros j Hj.
        destruct (Z.eq_dec j i) as [->|]; [exact Hi|]. apply Hmiss. lia.
Qed.

(** A press over a row starts a drag from the first input whose triangle
    holds the pointer: [_in_drag] becomes the number of that input counted
    from 1, which is at most [input_count] of the row; when no triangle holds
    the pointer [_in_drag] keeps the value it had.  A press over no row
    leaves [_in_drag] alone and forgets [_drag_prim]. *)
Theorem press_starts_drag_at_first_hit (model : list SPFilterPrimitive)
    (_in_drag : Z) (x y : Z) :
  (forall row prim,
      model !! row = Some prim ->
      let '(k, _drag_prim, _) :=
        on_button_press_event model _in_drag (Some row) x y in
      _drag_prim = Some row /\
      ((k = _in_drag /\
        forall j, 0 <= j < input_count (Some prim) ->
                  inside_connection_node model row j x y = false)
       \/
       (1 <= k <= input_count (Some prim) /\
        inside_connection_node model row (k - 1) x y = true /\
        forall j, 0 <= j < k - 1 ->
                  inside_connection_node model row j x y = false))) /\
  on_button_press_event model _in_drag None x y
  = (_in_drag, None, negb (_in_drag =? 0)).
Proof.
  split; [|reflexivity].
  intros row prim Hrow. unfold on_button_press_event. rewrite Hrow.
  split; [reflexivity|].
  pose proof (input_count_positive prim) as Hpos.
  destruct (press_loop_spec model row x y
              (Z.to_nat (input_count (Some prim))) 0 _in_drag)
    as [[Hk Hmiss] | (Hk & Hhit & Hmiss)].
  - left. split; [exact Hk|]. intros j Hj. apply Hmiss. lia.
  - right. split; [lia|]. split; [exact Hhit|]. exact Hmiss.
Qed.

(** When the cell of a row has the height [get_size_vfunc] asks for,
    [CellRendererConnection::size] is even, and the row, the base of the
    triangles and the pointer lie less than 2^24 = 16777216 pixels from the
    origin (where single precision still holds every pixel), every input of
    the row gets a band of that size: the triangle of input [input] has its
    tip at the middle of band [input] and its other two corners [con_w]
    above and below it, and holds only points at most [size] left of its
    base. *)
Theorem connection_nodes_tile_the_row (model : list SPFilterPrimitive)
    (row : nat) (prim : SPFilterPrimitive) (input ix iy half : Z) :
  model !! row = Some prim ->
  CellRendererConnection_size = 2 * half -> 0 < half ->
  rect_height (get_cell_area row) = (get_size_vfunc model (Some prim)).2 ->
  0 <= input -> 0 <= con_w ->
  let x := rect_x (get_cell_area row)
           + CellRendererConnection_size * (Z.of_nat (length model) - Z.of_nat row) in
  let tip := rect_y (get_cell_area row)
             + input * CellRendererConnection_size + half in
  Z.abs (rect_y (get_cell_area row))
  + (input + 1) * CellRendererConnection_size + con_w < 16777216 ->
  Z.abs x + CellRendererConnection_size < 16777216 ->
  Z.abs ix < 16777216 ->
  do_connection_node model row input ix iy
  = Some ([ (x, tip - con_w); (x, tip + con_w); (x - con_w, tip) ],
          (ix >=? x - CellRendererConnection_size) && (iy >=? tip - con_w)
          && (ix <=? x) && (iy <=? tip + con_w)).
Proof.
  intros Hrow Hsize Hhalf Hheight Hinput Hcon_w x tip Hy Hx Hix.
  subst x tip.
  unfold do_connection_node. rewrite Hrow.
  pose proof (input_count_positive prim) as Hpos.
  destruct (Z.eqb_spec (input_count (Some prim)) 0); [lia|].
  rewrite Hheight. cbn [get_size_vfunc snd].
  rewrite find_index_position.
  assert (Z.quot (CellRendererConnection_size * input_count (Some prim))
                 (input_count (Some prim)) = CellRendererConnection_size) as ->.
  { apply Z.quot_mul. lia. }
  rewrite Hsize in *.
  set (y := rect_y (get_cell_area row)) in *.
  assert (input * (2 * half) <= (input + 1) * (2 * half)) as Hband by nia.
  assert (0 <= input * (2 * half)) as Hband0 by nia.
  assert (input <= input * (2 * half)) as Hinput_le by nia.
  rewrite float_div_2 by lia.
  rewrite float_add_exact by lia.
  rewrite float_sub_exact by lia.
  rewrite float_mul_exact by lia.
  rewrite float_add_exact by lia.
  rewrite int_of_float_of_int by lia.
  rewrite float_sub_exact by lia.
  rewrite float_ge_exact by lia.
  f_equal. apply (f_equal2 pair).
  - repeat (apply (f_equal2 cons); [apply (f_equal2 pair); lia|]). reflexivity.
  - repeat apply (f_equal2 andb).
    + reflexivity.
    + apply (f_equal (Z.geb iy)). lia.
    + reflexivity.
    + apply (f_equal (Z.leb iy)). lia.
Qed.

(** ** The rows of the list *)

Lemma leading_primitives_prefix (prim_obj : list FilterChild) :
  exists rest,
    prim_obj = leading_primitives prim_obj ++ rest /\
    Forall (fun o => SP_IS_FILTER_PRIMITIVE o = true) (leading_primitives prim_obj) /\
    match rest with
    | [] => True
    | o :: _ => SP_IS_FILTER_PRIMITIVE o = false
    end.
Proof.
  induction prim_obj as [|o next IH]; simpl.
  - exists []. repeat split. constructor.
  - destruct (SP_IS_FILTER_PRIMITIVE o) eqn:Ho.
    + destruct IH as (rest & Heq & Hall & Hrest). exists rest.
      split; [simpl; congruence|]. split; [constructor; assumption | assumption].
    + exists (o :: next). repeat split; [constructor | assumption].
Qed.

Lemma update_loop_not_found (prim_obj : list FilterChild)
    (active_prim : option nat) :
  (forall a, active_prim = Some a ->
             a ∉ child_address <$> leading_primitives prim_obj) ->
  forall (l : PrimitiveRows) (active_found : bool),
    update_loop prim_obj active_prim l active_found
    = (mkRows (primitive_rows l ++ (child_address <$> leading_primitives prim_obj))
              (selected_row l), active_found).
Proof.
  induction prim_obj as [|o next IH]; intros Hnot l active_found; simpl in *.
  - rewrite app_nil_r. destruct l; reflexivity.
  - destruct (SP_IS_FILTER_PRIMITIVE o) eqn:Ho; simpl in *.
    + rewrite bool_decide_false.
      * rewrite IH.
        -- simpl. rewrite <- app_assoc. reflexivity.
        -- intros a Ha Hin. apply (Hnot a Ha). right. exact Hin.
      * intros E. apply (Hnot _ (eq_sym E)). left.
    + rewrite app_nil_r. destruct l; reflexivity.
Qed.

Lemma update_loop_found (prim_obj : list FilterChild) (a : nat) :
  NoDup (child_address <$> leading_primitives prim_obj) ->
  forall (j : nat) (l : PrimitiveRows) (active_found : bool),
    (child_address <$> leading_primitives prim_obj) !! j = Some a ->
    update_loop prim_obj (Some a) l active_found
    = (mkRows (primitive_rows l ++ (child_address <$> leading_primitives prim_obj))
              (Some (length (primitive_rows l) + j)%nat), true).
Proof.
  induction prim_obj as [|o next IH]; intros Hnd j l active_found Hj; simpl in *.
  - discriminate.
  - destruct (SP_IS_FILTER_PRIMITIVE o) eqn:Ho; simpl in *; [|discriminate].
    apply NoDup_cons in Hnd as [Hnotin Hnd].
    destruct (decide (child_address o = a)) as [E|E].
    + rewrite bool_decide_true by congruence.
      assert (j = 0%nat) as ->.
      { destruct j as [|j]; [reflexivity|]. simpl in Hj. exfalso.
        apply Hnotin. rewrite E. apply list_elem_of_lookup. eauto. }
      rewrite update_loop_not_found.
      * simpl. rewrite <- app_assoc, Nat.add_0_r. reflexivity.
      * intros a' Ha'. injection Ha' as <-. rewrite <- E. exact Hnotin.
    + rewrite bool_decide_false by congruence.
      destruct j as [|j]; simpl in Hj; [congruence|].
      rewrite (IH Hnd j _ _ Hj). simpl.
      rewrite <- app_assoc, length_app. simpl.
      replace (length (primitive_rows l) + 1 + j)%nat
        with (length (primitive_rows l) + S j)%nat by lia.
      reflexivity.
Qed.

Lemma update_rows_leading (children : list FilterChild) (l : PrimitiveRows) :
  primitive_rows (update (Some children) l)
  = child_address <$> leading_primitives children.
Proof.
  unfold update.
  set (active_prim := get_selected (Some children) l).
  assert (forall active_found l0,
             primitive_rows (update_loop children active_prim l0 active_found).1
             = primitive_rows l0 ++ (child_address <$> leading_primitives children))
    as Hrows.
  { clearbody active_prim. clear l.
    induction children as [|o next IH]; intros active_found l0; simpl.
    - rewrite app_nil_r. reflexivity.
    - destruct (SP_IS_FILTER_PRIMITIVE o); simpl; [|rewrite app_nil_r; reflexivity].
      destruct (bool_decide (Some (child_address o) = active_prim));
        rewrite IH; simpl; rewrite <- app_assoc; reflexivity. }
  specialize (Hrows false (mkRows [] None)).
  destruct (update_loop children active_prim (mkRows [] None) false)
    as [l1 active_found]. simpl in Hrows.
  destruct (negb active_found && bool_decide (primitive_rows l1 <> []));
    exact Hrows.
Qed.

(** [update] shows the children of the selected filter up to the first one
    that is not a filter primitive, whatever comes after it; with no filter
    selected the list is empty and nothing is selected. *)
Theorem update_lists_leading_primitives (children : list FilterChild)
    (l : PrimitiveRows) :
  primitive_rows (update (Some children) l)
  = child_address <$> leading_primitives children /\
  (exists rest,
      children = leading_primitives children ++ rest /\
      Forall (fun o => SP_IS_FILTER_PRIMITIVE o = true)
             (leading_primitives children) /\
      match rest with
      | [] => True
      | o :: _ => SP_IS_FILTER_PRIMITIVE o = false
      end) /\
  update None l = mkRows [] None.
Proof.
  split; [apply update_rows_leading|].
  split; [apply leading_primitives_prefix | reflexivity].
Qed.

(** [update] keeps the selected primitive when the list still shows it, and
    otherwise selects the first row; an empty list has no selection. *)
Theorem update_keeps_selection (children : list FilterChild)
    (l : PrimitiveRows) :
  NoDup (child_address <$> children) ->
  let rows := child_address <$> leading_primitives children in
  get_selected (Some children) (update (Some children) l)
  = match get_selected (Some children) l with
    | Some prim => if bool_decide (prim ∈ rows) then Some prim else head rows
    | None => head rows
    end.
Proof using.
  clear SP_ATTR_distinct SP_ATTR_IN SP_ATTR_IN2 CellRendererConnection_size
    text_width get_cell_area con_w FPInputConverter_end
    FPInputConverter_get_key dtostr light_source_element double_0 double_1
    gdouble.
  intros Hnd. cbv zeta.
  assert (NoDup (child_address <$> leading_primitives children)) as Hnd'.
  { destruct (leading_primitives_prefix children) as (rest & Heq & _).
    rewrite Heq, fmap_app in Hnd. apply NoDup_app in Hnd. tauto. }
  unfold update.
  set (active_prim := get_selected (Some children) l).
  set (rows := child_address <$> leading_primitives children) in *.
  assert (forall r : list nat,
             get_selected (Some children)
               (let '(l1, active_found) := (mkRows ([] ++ r) None, false) in
                if negb active_found && bool_decide (primitive_rows l1 <> [])
                then mkRows (primitive_rows l1) (Some 0%nat) else l1)
             = head r) as Hfirst.
  { intros [|p ps]; cbn [app primitive_rows negb andb].
    - rewrite bool_decide_false by congruence. reflexivity.
    - rewrite bool_decide_true by congruence. reflexivity. }
  destruct active_prim as [prim|].
  - destruct (decide (prim ∈ rows)) as [Hin|Hnotin].
    + rewrite bool_decide_true by assumption.
      apply list_elem_of_lookup in Hin as [j Hj].
      rewrite (update_loop_found children prim Hnd' j _ _ Hj). simpl. exact Hj.
    + rewrite bool_decide_false by assumption.
      rewrite update_loop_not_found
        by (intros a Ha; injection Ha as <-; exact Hnotin).
      apply Hfirst.
  - rewrite update_loop_not_found by (intros a Ha; discriminate).
    apply Hfirst.
Qed.

(** Removing the selected primitive takes it out of the filter and out of
    the list, and the selection moves to the first row that is left, not to
    a neighbour of the row removed. *)
Theorem remove_selected_selects_first (children : list FilterChild)
    (l : PrimitiveRows) (prim : nat) :
  get_selected (Some children) l = Some prim ->
  let '(f, l') := remove_selected (Some children) l in
  f = Some (sp_repr_unparent prim children) /\
  primitive_rows l'
  = child_address <$> leading_primitives (sp_repr_unparent prim children) /\
  (prim ∉ primitive_rows l') /\
  get_selected f l' = head (primitive_rows l').
Proof.
  intros Hsel. unfold remove_selected. rewrite Hsel. cbn [fmap option_fmap option_map].
  assert (prim ∉ child_address <$> sp_repr_unparent prim children) as Hgone.
  { intros Hin. apply list_elem_of_fmap in Hin as (o & Ho & Hin).
    apply list_elem_of_filter in Hin as [Hne _]. congruence. }
  assert (prim ∉ child_address <$> leading_primitives (sp_repr_unparent prim children))
    as Hgone'.
  { intros Hin. apply Hgone.
    destruct (leading_primitives_prefix (sp_repr_unparent prim children))
      as (rest & Heq & _).
    rewrite Heq, fmap_app. apply elem_of_app. left. exact Hin. }
  split; [reflexivity|].
  pose proof (update_rows_leading (sp_repr_unparent prim children) l) as Hrows.
  split; [exact Hrows|]. split; [rewrite Hrows; exact Hgone'|].
  unfold update.
  assert (get_selected (Some (sp_repr_unparent prim children)) l = Some prim)
    as -> by exact Hsel.
  rewrite update_loop_not_found
    by (intros a Ha; injection Ha as <-; exact Hgone').
  simpl.
  destruct (child_address <$> leading_primitives (sp_repr_unparent prim children))
    as [|p ps] eqn:Hp.
  - rewrite bool_decide_false by congruence. reflexivity.
  - rewrite bool_decide_true by congruence. reflexivity.
Qed.

Lemma select_loop_spec (rows : list nat) (prim : nat) :
  forall (i : nat) (selection : option nat),
    ((prim ∉ rows) /\ select_loop rows i prim selection = selection) \/
    (exists j, rows !! j = Some prim /\
               select_loop rows i prim selection = Some (i + j)%nat).
Proof.
  induction rows as [|p rest IH]; intros i selection; simpl.
  - left. split; [apply not_elem_of_nil | reflexivity].
  - destruct (IH (S i) (if bool_decide (p = prim) then Some i else selection))
      as [[Hnot Heq] | (j & Hj & Heq)].
    + destruct (decide (p = prim)) as [E|E].
      * right. exists 0%nat. rewrite Heq, bool_decide_true by assumption.
        split; [simpl; congruence | f_equal; lia].
      * left. rewrite Heq, bool_decide_false by assumption.
        split; [|reflexivity]. intros Hin.
        apply elem_of_cons in Hin as [Hin|Hin]; [congruence | contradiction].
    + right. exists (S j). split; [exact Hj|]. rewrite Heq. f_equal. lia.
Qed.

(** [select] makes a primitive of the list the selected one, and leaves the
    selection alone when the list does not show the primitive. *)
Theorem select_then_get_selected (children : list FilterChild)
    (l : PrimitiveRows) (prim : nat) :
  (prim ∈ primitive_rows l ->
   get_selected (Some children) (select prim l) = Some prim) /\
  (prim ∉ primitive_rows l -> select prim l = l).
Proof.
  unfold select, get_selected. cbn [primitive_rows selected_row].
  destruct (select_loop_spec (primitive_rows l) prim 0 (selected_row l))
    as [[Hnot Heq] | (j & Hj & Heq)]; rewrite Heq.
  - split; [contradiction|]. intros _. destruct l; reflexivity.
  - split; [intros _; exact Hj|]. intros Hnot. exfalso. apply Hnot.
    apply list_elem_of_lookup. eauto.
Qed.

(** ** [FilterModifier::update_selection] *)

Lemma inserted_filter_Some (obj : SelectedObject) (f : nat) :
  inserted_filter obj = Some f <-> filter_set obj = true /\ getFilter obj = Some f.
Proof.
  unfold inserted_filter. destruct (filter_set obj); simpl.
  - destruct (getFilter obj) as [g|].
    + rewrite bool_decide_true by eauto. split; [intros ->; auto | intros [_ H]; exact H].
    + rewrite bool_decide_false by (intros [? ?]; discriminate).
      split; [discriminate | intros [_ H]; discriminate].
  - split; [discriminate | intros [H _]; discriminate].
Qed.

Lemma used_filters_elem_of (itemList : list SelectedObject) (x : option nat) :
  x ∈ used_filters itemList <->
  exists obj, obj ∈ itemList /\ counted obj = true /\ inserted_filter obj = x.
Proof.
  unfold used_filters.
  assert (forall acc : gset (option nat),
             x ∈ foldl (fun used obj =>
                          if negb (counted obj) then used
                          else {[ inserted_filter obj ]} ∪ used) acc itemList
             <-> x ∈ acc \/
                 exists obj, obj ∈ itemList /\ counted obj = true
                             /\ inserted_filter obj = x) as H.
  { induction itemList as [|obj rest IH]; intros acc; simpl.
    - split; [auto|]. intros [H | (obj & Hin & _)]; [exact H|]. inversion Hin.
    - rewrite IH. split.
      + intros [Hacc | (o & Hin & Hc & Hf)].
        * destruct (counted obj) eqn:Hc; simpl in Hacc; [|auto].
          apply elem_of_union in Hacc as [Hx | Hacc]; [|auto].
          apply elem_of_singleton in Hx. right. exists obj.
          split; [left|]. auto.
        * right. exists o. split; [right; exact Hin | auto].
      + intros [Hacc | (o & Hin & Hc & Hf)].
        * left. destruct (counted obj); simpl; [|exact Hacc].
          apply elem_of_union. auto.
        * apply elem_of_cons in Hin as [-> | Hin].
          -- left. rewrite Hc. simpl. apply elem_of_union. left.
             apply elem_of_singleton. auto.
          -- right. exists o. auto. }
  rewrite H. split; [|auto]. intros [Hx | Hx]; [|exact Hx].
  apply elem_of_empty in Hx. contradiction.
Qed.

Lemma update_selection_loop_rows (rows : list FilterRow)
    (used : gset (option nat)) (used_size : Z) :
  forall (iter : nat) (selection : option nat),
    (update_selection_loop rows iter used used_size selection).1
    = (fun row =>
         mkFilterRow (row_filter row)
           (if bool_decide (Some (row_filter row) ∈ used) then used_size else 0))
        <$> rows.
Proof.
  induction rows as [|row rest IH]; intros iter selection; simpl; [reflexivity|].
  destruct (bool_decide (Some (row_filter row) ∈ used)).
  - specialize (IH (S iter) (if used_size =? 1 then Some iter else selection)).
    destruct (update_selection_loop rest (S iter) used used_size
                (if used_size =? 1 then Some iter else selection)).
    simpl in *. rewrite IH. reflexivity.
  - specialize (IH (S iter) selection).
    destruct (update_selection_loop rest (S iter) used used_size selection).
    simpl in *. rewrite IH. reflexivity.
Qed.

Lemma update_selection_loop_selection (rows : list FilterRow)
    (used : gset (option nat)) (used_size : Z) :
  forall (iter : nat) (selection : option nat),
    let selection' :=
      (update_selection_loop rows iter used used_size selection).2 in
    (selection' = selection /\
     (used_size <> 1 \/
      forall j row, rows !! j = Some row -> Some (row_filter row) ∉ used))
    \/
    (used_size = 1 /\
     exists j row,
       rows !! j = Some row /\ Some (row_filter row) ∈ used /\
       selection' = Some (iter + j)%nat /\
       forall j' row', (j < j')%nat -> rows !! j' = Some row' ->
                       Some (row_filter row') ∉ used).
Proof.
  induction rows as [|row rest IH]; intros iter selection; simpl.
  - left. split; [reflexivity|]. right. intros j row H. discriminate.
  - destruct (decide (Some (row_filter row) ∈ used)) as [Hin|Hnot].
    + rewrite bool_decide_true by assumption.
      specialize (IH (S iter) (if used_size =? 1 then Some iter else selection)).
      destruct (update_selection_loop rest (S iter) used used_size
                  (if used_size =? 1 then Some iter else selection))
        as [rest' sel']. simpl in *.
      destruct IH as [[Heq Hwhy] | (H1 & j & r & Hj & Hr & Hs & Hlast)].
      * destruct (Z.eqb_spec used_size 1) as [E|E].
        -- right. split; [exact E|]. exists 0%nat, row.
           split; [reflexivity|]. split; [exact Hin|].
           split; [rewrite Heq; f_equal; lia|].
           intros [|j'] row' Hlt Hj'; [lia|]. simpl in Hj'.
           destruct Hwhy as [Hne | Hnone]; [contradiction | eauto].
        -- left. split; [exact Heq | left; exact E].
      * right. split; [exact H1|]. exists (S j), r.
        split; [exact Hj|]. split; [exact Hr|].
        split; [rewrite Hs; f_equal; lia|].
        intros [|j'] row' Hlt Hj'; [lia|]. simpl in Hj'.
        apply (Hlast j' row'); [lia | exact Hj'].
    + rewrite bool_decide_false by assumption.
      specialize (IH (S iter) selection).
      destruct (update_selection_loop rest (S iter) used used_size selection)
        as [rest' sel']. simpl in *.
      destruct IH as [[Heq Hwhy] | (H1 & j & r & Hj & Hr & Hs & Hlast)].
      * left. split; [exact Heq|]. destruct Hwhy as [Hne | Hnone]; [auto|].
        right. intros [|j] r Hj; simpl in Hj; [|eauto].
        injection Hj as <-. exact Hnot.
      * right. split; [exact H1|]. exists (S j), r.
        split; [exact Hj|]. split; [exact Hr|].
        split; [rewrite Hs; f_equal; lia|].
        intros [|j'] row' Hlt Hj'; [lia|]. simpl in Hj'.
        apply (Hlast j' row'); [lia | exact Hj'].
Qed.

(** Every row keeps its filter; its [sel] becomes the number of different
    filters in use by the counted objects of the selection ("none" counting
    as one) when one of them uses the filter of the row, and 0 otherwise. *)
Theorem update_selection_marks_used_filters (itemList : list SelectedObject)
    (m : FilterList) (i : nat) (row : FilterRow) :
  filter_rows m !! i = Some row ->
  let in_use :=
    exists obj, obj ∈ itemList /\ counted obj = true /\
                filter_set obj = true /\ getFilter obj = Some (row_filter row) in
  let used_size := Z.of_nat (size (used_filters itemList)) in
  (in_use ->
   filter_rows (update_selection itemList m) !! i
   = Some (mkFilterRow (row_filter row) used_size) /\ 1 <= used_size) /\
  (~ in_use ->
   filter_rows (update_selection itemList m) !! i
   = Some (mkFilterRow (row_filter row) 0)).
Proof using.
  clear SP_ATTR_distinct SP_ATTR_IN SP_ATTR_IN2 CellRendererConnection_size
    text_width get_cell_area con_w FPInputConverter_end
    FPInputConverter_get_key dtostr light_source_element double_0 double_1
    gdouble.
  intros Hrow. cbv zeta.
  assert (filter_rows (update_selection itemList m) !! i
          = Some (mkFilterRow (row_filter row)
                    (if bool_decide (Some (row_filter row) ∈ used_filters itemList)
                     then Z.of_nat (size (used_filters itemList)) else 0)))
    as Hlook.
  { unfold update_selection.
    pose proof (update_selection_loop_rows (filter_rows m)
                  (used_filters itemList)
                  (Z.of_nat (size (used_filters itemList))) 0
                  (filter_selected m)) as Hrows.
    destruct (update_selection_loop (filter_rows m) 0 (used_filters itemList)
                (Z.of_nat (size (used_filters itemList))) (filter_selected m))
      as [rows selection].
    simpl in *. rewrite Hrows, list_lookup_fmap, Hrow. reflexivity. }
  rewrite Hlook. split.
  - intros (obj & Hin & Hc & Hset & Hget).
    assert (Some (row_filter row) ∈ used_filters itemList) as Hused.
    { apply used_filters_elem_of. exists obj. split; [exact Hin|].
      split; [exact Hc|]. apply inserted_filter_Some. auto. }
    rewrite bool_decide_true by exact Hused. split; [reflexivity|].
    assert (size (used_filters itemList) <> 0%nat); [|lia].
    apply size_non_empty_iff. intros Hempty. set_solver.
  - intros Hnot. rewrite bool_decide_false; [reflexivity|].
    intros Hused. apply Hnot.
    apply used_filters_elem_of in Hused as (obj & Hin & Hc & Hf).
    apply inserted_filter_Some in Hf. exists obj. tauto.
Qed.

(** The selection of the filter list moves only to the one filter that
    every counted object of the selection uses ("If only one filter is in
    use by the selection, select it"): an object without a filter among
    them, or a second filter, leaves the selection where it was. *)
Theorem update_selection_selects_common_filter (itemList : list SelectedObject)
    (m : FilterList) :
  (forall i,
      filter_selected (update_selection itemList m) = Some i ->
      filter_selected m <> Some i ->
      exists row,
        filter_rows m !! i = Some row /\
        forall obj, obj ∈ itemList -> counted obj = true ->
                    filter_set obj = true /\ getFilter obj = Some (row_filter row)) /\
  (forall i row,
      NoDup (row_filter <$> filter_rows m) ->
      filter_rows m !! i = Some row ->
      (exists obj, obj ∈ itemList /\ counted obj = true) ->
      (forall obj, obj ∈ itemList -> counted obj = true ->
                   filter_set obj = true /\ getFilter obj = Some (row_filter row)) ->
      filter_selected (update_selection itemList m) = Some i).
Proof.
  assert (filter_selected (update_selection itemList m)
          = (update_selection_loop (filter_rows m) 0 (used_filters itemList)
               (Z.of_nat (size (used_filters itemList))) (filter_selected m)).2)
    as Hsel.
  { unfold update_selection.
    destruct (update_selection_loop (filter_rows m) 0 (used_filters itemList)
                (Z.of_nat (size (used_filters itemList))) (filter_selected m)).
    reflexivity. }
  rewrite Hsel.
  pose proof (update_selection_loop_selection (filter_rows m)
                (used_filters itemList)
                (Z.of_nat (size (used_filters itemList))) 0 (filter_selected m))
    as Hspec.
  cbv zeta in Hspec. split.
  - intros i Hi Hchanged.
    destruct Hspec as [[Heq _] | (H1 & j & row & Hj & Hused & Hs & _)];
      [congruence|].
    rewrite Hs in Hi. injection Hi as <-. exists row. split; [exact Hj|].
    intros obj Hin Hc. apply inserted_filter_Some.
    assert (size (used_filters itemList) = 1%nat) as Hone by lia.
    apply size_1_elem_of in Hone as [x Hx].
    assert (inserted_filter obj ∈ used_filters itemList) as Hobj
      by (apply used_filters_elem_of; eauto).
    apply Hx, elem_of_singleton in Hobj.
    apply Hx, elem_of_singleton in Hused. congruence.
  - intros i row Hnd Hrow (obj0 & Hin0 & Hc0) Hall.
    assert (used_filters itemList = {[ Some (row_filter row) ]}) as Hused.
    { apply set_eq. intros x. rewrite used_filters_elem_of, elem_of_singleton.
      split.
      - intros (obj & Hin & Hc & Hf). subst x.
        apply inserted_filter_Some. auto.
      - intros ->. exists obj0. split; [exact Hin0|]. split; [exact Hc0|].
        apply inserted_filter_Some. auto. }
    rewrite Hused in *. rewrite size_singleton in *.
    destruct Hspec as [[_ [Hne | Hnone]] | (_ & j & r & Hj & Hr & Hs & _)].
    + contradiction Hne. reflexivity.
    + exfalso. apply (Hnone i row Hrow). apply elem_of_singleton. reflexivity.
    + rewrite Hs. f_equal. simpl.
      apply elem_of_singleton in Hr. injection Hr as Hr.
      eapply NoDup_lookup; [exact Hnd | |].
      * rewrite list_lookup_fmap, Hj. simpl. rewrite Hr. reflexivity.
      * rewrite list_lookup_fmap, Hrow. reflexivity.
Qed.

(** ** [LightSourceControl], [CheckButtonAttr], [ColorButton] *)

(** When the combo shows the row [set_from_attribute] picks for the first
    child, [on_source_changed] leaves a primitive alone whose first child is
    a light source or that has no child; a first child that is not a light
    source is removed, and nothing is put in its place. *)
Theorem on_source_changed_same_source (children : list LightObject) :
  let ls := light_set_from_attribute false 0 children in
  (head children <> Some SPOtherLightChild ->
   on_source_changed false (Some children) ls = Some children) /\
  (head children = Some SPOtherLightChild ->
   on_source_changed false (Some children) ls = Some (tail children)).
Proof.
  cbv zeta. unfold light_set_from_attribute, on_source_changed.
  destruct children as [|[] rest]; simpl; split; intros H;
    try reflexivity; try discriminate; contradiction.
Qed.

(** When the combo shows a light source other than the first child, the
    first child is removed and one element is appended for the row shown;
    a primitive with at most one child then holds exactly that element. *)
Theorem on_source_changed_replaces_source (children : list LightObject)
    (ls : Z) :
  0 <= ls <= 2 ->
  light_source_row (head children) <> ls ->
  on_source_changed false (Some children) ls
  = Some (tail children ++ [light_source_element ls]) /\
  ((length children <= 1)%nat ->
   on_source_changed false (Some children) ls = Some [light_source_element ls]).
Proof.
  intros Hls Hne.
  assert (on_source_changed false (Some children) ls
          = Some (tail children ++ [light_source_element ls])) as Heq.
  { unfold on_source_changed.
    destruct (Z.eqb_spec ls (-1)); [lia|].
    destruct children as [|child rest]; cbn [head tail andb negb].
    - cbn [SP_IS_FEDISTANTLIGHT SP_IS_FEPOINTLIGHT SP_IS_FESPOTLIGHT].
      rewrite !andb_false_r. reflexivity.
    - unfold light_source_row in Hne.
      destruct (Z.eqb_spec ls 0), (Z.eqb_spec ls 1), (Z.eqb_spec ls 2);
        try lia; subst; destruct child; simpl in *;
        try reflexivity; contradiction. }
  split; [exact Heq|]. intros Hlen. rewrite Heq.
  destruct children as [|child [|]]; simpl in *; try reflexivity; lia.
Qed.

(** A check button set from one of its two attribute values gives that value
    back; any other value, or no attribute, leaves the button as it is. *)
Theorem check_button_round_trip (cb : CheckButtonAttr) (val : string) :
  (val = _true_val cb \/ val = _false_val cb ->
   check_get_as_attribute (check_set_from_attribute cb (Some val)) = val) /\
  (val <> _true_val cb -> val <> _false_val cb ->
   check_set_from_attribute cb (Some val) = cb) /\
  check_set_from_attribute cb None = cb.
Proof.
  unfold check_get_as_attribute, check_set_from_attribute.
  split; [|split; [|reflexivity]].
  - intros H. destruct (decide (_true_val cb = val)) as [E|E].
    + rewrite bool_decide_true by assumption. simpl. exact E.
    + rewrite bool_decide_false by assumption.
      destruct H as [H|H]; [congruence|].
      rewrite bool_decide_true by congruence. simpl. congruence.
  - intros H1 H2. rewrite !bool_decide_false by congruence. reflexivity.
Qed.

(** The 8-bit channels of a colour survive the widening to the 16 bits of
    the button and back, and whatever colour the button holds, the numbers
    it prints are 8-bit channels. *)
Theorem color_button_round_trip :
  (forall r g b : Z,
      0 <= r <= 255 -> 0 <= g <= 255 -> 0 <= b <= 255 ->
      color_channels (color_set_from_rgb r g b) = (r, g, b) /\
      color_get_as_attribute (color_set_from_rgb r g b)
      = String.append "rgb("
          (String.append (decimal r)
             (String.append ","
                (String.append (decimal g)
                   (String.append "," (String.append (decimal b) ")")))))) /\
  (forall r16 g16 b16 : Z,
      let '(r, g, b) := color_channels (set_rgb r16 g16 b16) in
      0 <= r <= 255 /\ 0 <= g <= 255 /\ 0 <= b <= 255).
Proof.
  assert (forall v, 0 <= v <= 255 -> Z.quot (gushort (v * 257)) 257 = v) as Hrt.
  { intros v Hv. unfold gushort. rewrite Z.mod_small by lia.
    apply Z.quot_mul. lia. }
  assert (forall v, 0 <= Z.quot (gushort v) 257 <= 255) as Hrange.
  { intros v. unfold gushort.
    pose proof (Z.mod_pos_bound v 65536 ltac:(lia)) as Hb.
    rewrite Z.quot_div_nonneg by lia. split.
    - apply Z.div_pos; lia.
    - apply Z.div_le_upper_bound; lia. }
  split.
  - intros r g b Hr Hg Hb.
    assert (color_channels (color_set_from_rgb r g b) = (r, g, b)) as Hch.
    { unfold color_channels, color_set_from_rgb, set_rgb.
      cbn [red green blue]. rewrite !Hrt by assumption. reflexivity. }
    split; [exact Hch|]. unfold color_get_as_attribute. rewrite Hch.
    reflexivity.
  - intros r16 g16 b16. unfold color_channels, set_rgb. cbn [red green blue].
    auto.
Qed.

(** ** [MatrixAttr] *)

Lemma row_values_take (columns : nat) (row : list gdouble) :
  (columns <= length row)%nat -> row_values columns row = take columns row.
Proof.
  intros Hlen. unfold row_values. apply list_eq. intros i.
  rewrite list_lookup_fmap.
  destruct (decide (i < columns)%nat) as [Hi|Hi].
  - rewrite lookup_seq_lt by assumption. rewrite lookup_take_lt by assumption.
    destruct (lookup_lt_is_Some_2 row i) as [x Hx]; [lia|].
    simpl. rewrite Hx. reflexivity.
  - rewrite lookup_seq_ge by lia. rewrite lookup_take_ge by lia. reflexivity.
Qed.

Lemma length_row_values (columns : nat) (row : list gdouble) :
  length (row_values columns row) = columns.
Proof. unfold row_values. rewrite length_fmap, length_seq. reflexivity. Qed.

Lemma lookup_concat_uniform {A : Type} (n : nat) (ls : list (list A)) :
  Forall (fun l => length l = n) ls ->
  forall r c : nat,
    (c < n)%nat -> concat ls !! (r * n + c)%nat = ls !! r ≫= (fun l => l !! c).
Proof.
  intros Hall. induction Hall as [|l ls Hl Hall IH]; intros r c Hc.
  - reflexivity.
  - destruct r as [|r]; simpl.
    + rewrite lookup_app_l by lia. reflexivity.
    + rewrite lookup_app_r by lia.
      replace (n + r * n + c - length l)%nat with (r * n + c)%nat by lia.
      apply IH. assumption.
Qed.

Lemma length_concat_uniform {A : Type} (n : nat) (ls : list (list A)) :
  Forall (fun l => length l = n) ls ->
  length (concat ls) = (length ls * n)%nat.
Proof.
  intros Hall. induction Hall as [|l ls Hl Hall IH]; simpl; [reflexivity|].
  rewrite length_app, IH, Hl. reflexivity.
Qed.

Lemma update_cells_spec (values : list gdouble) (r : nat) :
  forall (count c ndx : nat) (row : list gdouble),
    (c + count <= length row)%nat ->
    update_cells values r c count ndx row
    = (take c row
       ++ ((fun k => update_cell values r (c + k) (ndx + k)) <$> seq 0 count)
       ++ drop (c + count) row, (ndx + count)%nat).
Proof.
  induction count as [|count IH]; intros c ndx row Hlen; cbn [update_cells].
  - rewrite Nat.add_0_r, Nat.add_0_r. simpl. rewrite take_drop. reflexivity.
  - rewrite IH by (rewrite length_insert; lia).
    f_equal; [|lia].
    rewrite (take_S_r _ c (update_cell values r c ndx))
      by (apply list_lookup_insert_eq; lia).
    rewrite take_insert_ge by lia.
    rewrite drop_insert_lt by lia.
    rewrite <- app_assoc. f_equal. cbn [seq fmap list_fmap app].
    rewrite !Nat.add_0_r. f_equal.
    replace (S c + count)%nat with (c + S count)%nat by lia.
    f_equal. rewrite <- fmap_S_seq, <- list_fmap_compose.
    apply list_fmap_ext. intros _ k _. simpl. f_equal; lia.
Qed.

Lemma update_rows_values (values : list gdouble) (cols : nat) :
  (cols <= 5)%nat ->
  forall (count r ndx : nat),
    row_values cols <$> update_rows values cols r count ndx
    = (fun k =>
         (fun c => update_cell values (r + k) c (ndx + k * cols + c)) <$> seq 0 cols)
        <$> seq 0 count.
Proof.
  intros Hcols. induction count as [|count IH]; intros r ndx;
    cbn [update_rows]; [reflexivity|].
  rewrite update_cells_spec by (rewrite length_replicate; lia).
  cbn [fmap list_fmap seq]. rewrite IH. f_equal.
  - rewrite row_values_take
      by (rewrite !length_app, length_fmap, length_seq, length_drop,
            length_replicate; simpl; lia).
    simpl. rewrite take_app_length' by (rewrite length_fmap, length_seq; reflexivity).
    apply list_fmap_ext. intros _ c _. f_equal; lia.
  - rewrite <- fmap_S_seq, <- list_fmap_compose.
    apply list_fmap_ext. intros _ k _. simpl.
    apply list_fmap_ext. intros _ c _. f_equal; lia.
Qed.

(** [update] shows a grid of [rows] by [cols] cells filled row by row from
    the values of the object; where the values run out the cell gets the
    entry of the identity matrix (1 on the diagonal, 0 off it).  Read back
    with [get_values], the grid gives [rows * cols] numbers. *)
Theorem matrix_update_shows_values (m : MatrixAttr) (values : list gdouble)
    (rows cols : Z) :
  matrix_locked m = false ->
  0 <= rows -> 0 <= cols <= 5 ->
  let m' := matrix_update m (Some values) rows cols in
  tree_columns m' = Z.to_nat cols /\
  length (get_values m') = Z.to_nat (rows * cols) /\
  forall r c : nat,
    (Z.of_nat r < rows) -> (Z.of_nat c < cols) ->
    get_values m' !! (r * Z.to_nat cols + c)%nat
    = Some (match values !! (r * Z.to_nat cols + c)%nat with
            | Some x => x
            | None => if (r =? c)%nat then double_1 else double_0
            end).
Proof.
  intros Hlock Hrows Hcols. cbv zeta. unfold matrix_update. rewrite Hlock.
  unfold get_values. cbn [tree_columns matrix_rows].
  rewrite update_rows_values by lia.
  set (n := Z.to_nat cols). set (k := Z.to_nat rows).
  assert (Forall (fun l : list gdouble => length l = n)
            ((fun k0 : nat =>
                (fun c : nat => update_cell values (0 + k0) c (0 + k0 * n + c))
                  <$> seq 0 n) <$> seq 0 k)) as Hall.
  { apply Forall_fmap, Forall_forall. intros k0 _. simpl.
    rewrite length_fmap, length_seq. reflexivity. }
  split; [reflexivity|]. split.
  - rewrite (length_concat_uniform n _ Hall), length_fmap, length_seq.
    unfold n, k. lia.
  - intros r c Hr Hc.
    rewrite (lookup_concat_uniform n _ Hall) by (unfold n; lia).
    rewrite list_lookup_fmap, lookup_seq_lt by (unfold k; lia). simpl.
    rewrite list_lookup_fmap, lookup_seq_lt by (unfold n; lia). simpl.
    f_equal. unfold update_cell.
    destruct (Nat.ltb_spec (r * n + c) (length values)) as [Hlt|Hge].
    + destruct (lookup_lt_is_Some_2 values (r * n + c)) as [x Hx]; [lia|].
      rewrite Hx. reflexivity.
    + rewrite lookup_ge_None_2 by lia. reflexivity.
Qed.

Lemma set_values_cells_spec (v : list gdouble) :
  forall (count c i : nat) (row : list gdouble),
    (c + count <= length row)%nat -> (i <= length v)%nat ->
    let written := Nat.min count (length v - i) in
    set_values_cells v c count i row
    = (take c row ++ take written (drop i v) ++ drop (c + written) row,
       if (i + count <=? length v)%nat then Some (i + count)%nat else None).
Proof.
  induction count as [|count IH]; intros c i row Hlen Hi; cbv zeta;
    cbn [set_values_cells].
  - replace (Nat.min 0 (length v - i)) with 0%nat by lia.
    rewrite take_0, app_nil_l, !Nat.add_0_r, take_drop.
    destruct (Nat.leb_spec i (length v)); [reflexivity | lia].
  - destruct (Nat.leb_spec (length v) i) as [Hend|Hmore].
    + replace (length v - i)%nat with 0%nat by lia.
      rewrite Nat.min_0_r, take_0, app_nil_l, Nat.add_0_r, take_drop.
      destruct (Nat.leb_spec (i + S count) (length v)); [lia | reflexivity].
    + destruct (lookup_lt_is_Some_2 v i) as [x Hx]; [lia|].
      rewrite Hx. cbn [default from_option id].
      rewrite IH by (rewrite ?length_insert; lia). cbv zeta.
      f_equal.
      * replace (Nat.min (S count) (length v - i))
          with (S (Nat.min count (length v - S i))) by lia.
        rewrite (take_S_r _ c x) by (apply list_lookup_insert_eq; lia).
        rewrite take_insert_ge by lia.
        rewrite drop_insert_lt by lia.
        rewrite <- app_assoc. f_equal.
        rewrite (drop_S v x i Hx). rewrite firstn_cons. cbn [app].
        f_equal. f_equal. f_equal. lia.
      * destruct (Nat.leb_spec (S i + count) (length v)),
          (Nat.leb_spec (i + S count) (length v)); try lia.
        -- f_equal. lia.
        -- reflexivity.
Qed.

Lemma set_values_rows_spec (v : list gdouble) (columns : nat) :
  forall (rows : list (list gdouble)) (i : nat),
    Forall (fun row => (columns <= length row)%nat) rows ->
    (i <= length v)%nat ->
    let old := concat (row_values columns <$> rows) in
    let written := Nat.min (length old) (length v - i) in
    Forall (fun row => (columns <= length row)%nat)
           (set_values_rows v columns rows i) /\
    concat (row_values columns <$> set_values_rows v columns rows i)
    = take written (drop i v) ++ drop written old.
Proof.
  induction rows as [|row rest IH]; intros i Hwf Hi; cbv zeta.
  - split; [constructor | reflexivity].
  - apply Forall_cons in Hwf as [Hrow Hrest].
    cbn [set_values_rows fmap list_fmap concat].
    rewrite set_values_cells_spec by (simpl; lia). cbv zeta.
    rewrite take_0, app_nil_l, !Nat.add_0_l.
    set (old := concat (row_values columns <$> rest)) in *.
    assert (length (concat (row_values columns <$> rest)) = length old)
      as Hold by reflexivity.
    rewrite length_app, length_row_values.
    assert (forall w, (w <= columns)%nat -> (w <= length v - i)%nat ->
              row_values columns (take w (drop i v) ++ drop w row)
              = take w (drop i v) ++ drop w (row_values columns row)) as Hrowv.
    { intros w Hw Hwv.
      rewrite !row_values_take
        by (rewrite ?length_app, ?length_take, ?length_drop; lia).
      rewrite take_app, length_take, length_drop.
      replace (Nat.min w (length v - i)) with w by lia.
      rewrite take_take. replace (Nat.min columns w) with w by lia.
      f_equal. rewrite take_drop_commute.
      replace (w + (columns - w))%nat with columns by lia. reflexivity. }
    assert (forall w, (w <= length v - i)%nat ->
              (columns <= length (take w (drop i v) ++ drop w row))%nat
              \/ (w > columns)%nat) as Hlen'.
    { intros w Hwv. rewrite length_app, length_take, length_drop, length_drop.
      lia. }
    destruct (Nat.leb_spec (i + columns) (length v)) as [Hall|Hpart].
    + replace (Nat.min columns (length v - i)) with columns by lia.
      destruct (IH (i + columns)%nat Hrest) as [Hwf' Heq]; [lia|].
      cbv zeta in Heq. fold old in Heq.
      split.
      * constructor; [|exact Hwf'].
        destruct (Hlen' columns); lia.
      * cbn [fmap list_fmap concat]. rewrite Heq.
        rewrite Hrowv by lia.
        rewrite (drop_ge (row_values columns row))
          by (rewrite length_row_values; lia).
        rewrite app_nil_r.
        replace (Nat.min (columns + length old) (length v - i))
          with (columns + Nat.min (length old) (length v - (i + columns)))%nat
          by lia.
        rewrite <- take_take_drop, drop_drop, <- app_assoc. f_equal. f_equal.
        rewrite drop_app_add' by (rewrite length_row_values; reflexivity).
        reflexivity.
    + replace (Nat.min columns (length v - i)) with (length v - i)%nat by lia.
      split.
      * constructor; [|exact Hrest].
        destruct (Hlen' (length v - i)%nat); lia.
      * cbn [fmap list_fmap concat]. fold old.
        rewrite Hrowv by lia.
        replace (Nat.min (columns + length old) (length v - i))
          with (length v - i)%nat by lia.
        rewrite <- app_assoc. f_equal.
        rewrite drop_app_le by (rewrite length_row_values; lia).
        reflexivity.
Qed.

(** [set_values] writes the numbers of [v] over the cells shown, row by row,
    and stops where [v] or the grid ends: the cells past the end of [v] keep
    their values.  So a vector with one number for each cell is read back
    unchanged by [get_values], and writing back what [get_values] gave
    changes nothing that is shown. *)
Theorem set_values_then_get_values (v : list gdouble) (m : MatrixAttr) :
  Forall (fun row => (tree_columns m <= length row)%nat) (matrix_rows m) ->
  get_values (set_values v m)
  = take (length (get_values m)) v ++ drop (length v) (get_values m) /\
  (length v = length (get_values m) -> get_values (set_values v m) = v) /\
  get_values (set_values (get_values m) m) = get_values m.
Proof.
  intros Hwf.
  assert (forall w : list gdouble,
             get_values (set_values w m)
             = take (length (get_values m)) w ++ drop (length w) (get_values m))
    as Hgen.
  { intros w. unfold get_values, set_values. cbn [tree_columns matrix_rows].
    destruct (set_values_rows_spec w (tree_columns m) (matrix_rows m) 0 Hwf)
      as [_ Heq]; [lia|].
    cbv zeta in Heq. rewrite Heq, drop_0, Nat.sub_0_r.
    set (old := concat (row_values (tree_columns m) <$> matrix_rows m)).
    destruct (Nat.le_ge_cases (length old) (length w)) as [Hle|Hge].
    - rewrite Nat.min_l by assumption.
      rewrite !drop_ge by lia. reflexivity.
    - rewrite Nat.min_r by assumption.
      rewrite !take_ge by lia. reflexivity. }
  split; [apply Hgen|]. split.
  - intros Hlen. rewrite Hgen, <- Hlen, take_ge, drop_ge by lia.
    apply app_nil_r.
  - rewrite Hgen, take_ge, drop_all by lia. apply app_nil_r.
Qed.

Lemma update_cells_length (values : list gdouble) (r : nat) :
  forall (count c ndx : nat) (row : list gdouble),
    length (update_cells values r c count ndx row).1 = length row.
Proof.
  induction count as [|count IH]; intros c ndx row; cbn [update_cells];
    [reflexivity|].
  rewrite IH, length_insert. reflexivity.
Qed.

Lemma update_rows_cells (values : list gdouble) (cols : nat) :
  forall (count r ndx : nat),
    Forall (fun row => length row = 5%nat) (update_rows values cols r count ndx) /\
    length (update_rows values cols r count ndx) = count.
Proof.
  induction count as [|count IH]; intros r ndx; cbn [update_rows].
  - split; [constructor | reflexivity].
  - pose proof (update_cells_length values r cols 0 ndx (replicate 5 double_0))
      as Hlen.
    destruct (update_cells values r 0 cols ndx (replicate 5 double_0))
      as [row ndx']. simpl in Hlen.
    destruct (IH (S r) ndx') as [Hall Hcount].
    split; [constructor; assumption | simpl; congruence].
Qed.

(** Whatever object [set_from_attribute] is given, an unlocked widget ends
    with at most five columns and five cells in every row, so no column of
    the tree view lies outside [MatrixColumns]; a feColorMatrix is shown as
    4 rows of 5, a feConvolveMatrix with the columns of its order cut at 5
    and as many rows as the order's second number, or as columns when there
    is none.  Another object, or none, leaves the widget as it is. *)
Theorem matrix_set_from_attribute_grid (m : MatrixAttr) (o : option MatrixObject) :
  matrix_locked m = false ->
  (tree_columns m <= 5)%nat ->
  Forall (fun row => length row = 5%nat) (matrix_rows m) ->
  let m' := matrix_set_from_attribute m o in
  (tree_columns m' <= 5)%nat /\
  Forall (fun row => length row = 5%nat) (matrix_rows m') /\
  match o with
  | Some (SPFeColorMatrix _) =>
      tree_columns m' = 5%nat /\ length (matrix_rows m') = 4%nat
  | Some (SPFeConvolveMatrix order_number order_optNumber _) =>
      tree_columns m' = Z.to_nat (Z.min order_number 5) /\
      length (matrix_rows m')
      = Z.to_nat (default (Z.min order_number 5) order_optNumber)
  | _ => m' = m
  end.
Proof.
  intros Hlock Hcols Hrows. cbv zeta.
  destruct o as [[order_number order_optNumber kernelMatrix | values |]|];
    cbn [matrix_set_from_attribute]; try (repeat split; assumption).
  - unfold matrix_update. rewrite Hlock. cbn [tree_columns matrix_rows].
    assert ((if order_number >? 5 then 5 else order_number)
            = Z.min order_number 5) as ->.
    { destruct (Z.gtb_spec order_number 5); lia. }
    destruct (update_rows_cells kernelMatrix (Z.to_nat (Z.min order_number 5))
                (Z.to_nat (match order_optNumber with
                           | Some n => n
                           | None => Z.min order_number 5
                           end)) 0 0) as [Hall Hlen].
    split; [lia|]. split; [exact Hall|]. split; [reflexivity|].
    rewrite Hlen. destruct order_optNumber; reflexivity.
  - unfold matrix_update. rewrite Hlock. cbn [tree_columns matrix_rows].
    destruct (update_rows_cells values (Z.to_nat 5) (Z.to_nat 4) 0 0)
      as [Hall Hlen].
    split; [simpl; lia|]. split; [exact Hall|].
    split; [reflexivity | exact Hlen].
Qed.

(** ** A drag on a feMerge, from press to release *)



End Dialog.

(** * The properties on the samples *)

Lemma resolve_named_result_witness :
  (shadowing_model !! 3%nat = Some (offset 5 (-1)) /\
   decode (slot_image 1 2 (offset 5 (-1)) 1) = NamedResult 5) /\
  image_in (offset 5 (-1)) = 5 /\
  resolve 1 2 shadowing_model 3 1 = Producer 2 /\
  exists target p,
    (target < 3)%nat /\ shadowing_model !! target = Some p /\ image_out p = 5 /\
    (forall j q, (target < j < 3)%nat -> shadowing_model !! j = Some q ->
                 image_out q <> 5) /\
    resolve 1 2 shadowing_model 3 1 = Producer target.
Proof.
  split; [split; reflexivity|].
  destruct (resolve_named_result 1 2 shadowing_model 3 (offset 5 (-1)) 1 5
              eq_refl eq_refl)
    as [[_ Hfield] [(target & p & Hlt & Hp & Hout & Hlast & _ & Hres)
                   | (Hnone & _)]].
  - split.
    + destruct Hfield as [[_ Hin] | [Hattr _]]; [exact Hin | discriminate].
    + split; [reflexivity|]. exists target, p. repeat split; assumption.
  - exfalso. apply (Hnone 2%nat (gaussian_blur (-1) 5)); [lia | | ]; reflexivity.
Defined.

(** C1, as the claim has it, fails: row 1 of [dangling_model] names result 7
    in its [in], no row before it declares 7 ([find_result] answers the end
    iterator), and the slot is not left without a source: it gets the
    implied connection to row 0. *)
Lemma resolve_undeclared_result_is_not_unresolved :
  dangling_model !! 1%nat = Some (offset 7 (-1)) /\
  decode (slot_image 1 2 (offset 7 (-1)) 1) = NamedResult 7 /\
  (forall j q, (j < 1)%nat -> dangling_model !! j = Some q -> image_out q <> 7) /\
  find_result 1 2 dangling_model 1 1 0 = (length dangling_model, 0) /\
  resolve 1 2 dangling_model 1 1 = ImplicitPrevious (Some 0%nat) /\
  resolve 1 2 dangling_model 1 1 <> Unresolved.
Proof.
  split; [reflexivity|]. split; [reflexivity|]. split.
  - intros [|j] q Hj Hq; [|lia]. injection Hq as <-. discriminate.
  - split; [reflexivity|]. split; [reflexivity | discriminate].
Qed.

Lemma do_connection_node_no_division_by_zero_witness :
  merge_forward_model !! 0%nat = Some (merge [1] (-1)) /\
  input_count (Some (merge [1] (-1))) = 2 /\
  is_Some (do_connection_node 24 (fun _ => mkRect 0 0 100 48) 8
             merge_forward_model 0 1 3 3).
Proof.
  split; [reflexivity|]. split; [reflexivity|].
  apply (do_connection_node_no_division_by_zero 24 (fun _ => mkRect 0 0 100 48) 8
           merge_forward_model 0 (merge [1] (-1)) 1 3 3).
  reflexivity.
Defined.

Lemma codec_round_trip_witness :
  valid_reference (StandardSource 3) /\
  decode (encode (StandardSource 3)) = StandardSource 3 /\
  legal_raw (Some (-4)) /\
  encode (decode (Some (-4))) = Some (-4).
Proof.
  destruct codec_round_trip as (_ & _ & _ & _ & Hde & Hed).
  split; [simpl; lia|]. split; [apply Hde; simpl; lia|].
  split; [right; lia|]. apply Hed. right. lia.
Defined.

Lemma resolve_never_forward_witness :
  resolve 1 2 shadowing_model 3 1 = Producer 2 /\ (2 < 3)%nat.
Proof.
  split; [reflexivity|].
  apply (resolve_never_forward 1 2 shadowing_model 3 1 2). left. reflexivity.
Defined.

Lemma commit_on_merge_slot_witness :
  repr_is_femerge repr_merge = true /\
  repr_children (commit_connection false 3 (Some "SourceGraphic") repr_merge)
  = repr_children repr_merge
    ++ [FeMergeNodeRepr (Some "always") (Some "SourceGraphic")] /\
  repr_children (commit_connection false 2 None repr_merge)
  = [FeMergeNodeRepr (Some "always") (Some "blurred")].
Proof.
  split; [reflexivity|]. split.
  - destruct (commit_on_merge_slot repr_merge 2 eq_refl) as (_ & Hadd & _ & _).
    apply Hadd. reflexivity.
  - destruct (commit_on_merge_slot repr_merge 1 eq_refl) as (Hremove & _).
    apply (Hremove (Some "always") (Some "SourceAlpha")). reflexivity.
Defined.



(** * The further properties on samples *)

Lemma resolve_standard_source_witness :
  [offset (-3) 1] !! 0%nat = Some (offset (-3) 1) /\
  decode (slot_image 1 2 (offset (-3) 1) 1) = StandardSource 1 /\
  resolve 1 2 [offset (-3) 1] 0 1 = Standard 1.
Proof.
  split; [reflexivity|]. split; [reflexivity|].
  apply (resolve_standard_source 1 2 24 10 (fun _ => mkRect 0 0 100 24)
           [offset (-3) 1] 0 (offset (-3) 1) 1 1 0 0 0 1); reflexivity.
Defined.

Lemma slot_image_merge_witness :
  prim_type (merge [7; -2] (-1)) = FEMERGE /\
  slot_image 1 2 (merge [7; -2] (-1)) 1 = Some (-2).
Proof.
  split; [reflexivity|].
  apply (slot_image_merge 1 2 (merge [7; -2] (-1)) 1). reflexivity.
Defined.

Lemma input_count_slots_witness :
  1 <> 2 /\
  merge_forward_model !! 0%nat = Some (merge [1] (-1)) /\
  find_result 1 2 merge_forward_model 0
    (input_count (Some (merge [1] (-1))) - 1) 9 = (2%nat, 9).
Proof.
  assert (1 <> 2) as Hne by lia.
  split; [exact Hne|]. split; [reflexivity|].
  apply (input_count_slots 1 2 Hne merge_forward_model 0 (merge [1] (-1)) 9
           eq_refl).
  reflexivity.
Defined.

Lemma sanitize_connections_no_forward_reference_witness :
  reordered_model !! 1%nat = Some (gaussian_blur (-1) 1) /\
  sanitize_connections reordered_model 1 !! 0%nat = Some (blend (-1) (-1) 2) /\
  ~ uses_result (blend (-1) (-1) 2) 1.
Proof.
  split; [reflexivity|]. split; [reflexivity|].
  apply (proj1 (sanitize_connections_no_forward_reference reordered_model 1
                  (gaussian_blur (-1) 1) eq_refl) 0%nat (blend (-1) (-1) 2)).
  - lia.
  - simpl. lia.
  - reflexivity.
Defined.

Lemma sanitize_connections_frame_witness :
  reordered_model !! 1%nat = Some (gaussian_blur (-1) 1) /\
  length (sanitize_connections reordered_model 1) = length reordered_model /\
  sanitize_connections reordered_model 1 !! 2%nat = reordered_model !! 2%nat.
Proof.
  split; [reflexivity|].
  destruct (sanitize_connections_frame reordered_model 1 (gaussian_blur (-1) 1)
              eq_refl) as (Hlen & _ & _ & Hafter & _).
  split; [exact Hlen|]. apply Hafter. lia.
Defined.

Lemma release_without_target_witness :
  path_at_pos (mkRelease None 5 200) = None /\
  _model (on_button_release_event 10 6 standard_input_key decimal
            drag_from_second (mkRelease None 5 200) 3)
  = _model drag_from_second /\
  _in_drag (on_button_release_event 10 6 standard_input_key decimal
              drag_from_second (mkRelease None 5 200) 3) = 0.
Proof.
  split; [reflexivity|].
  destruct (release_without_target 10 6 standard_input_key decimal
              drag_from_second (mkRelease None 5 200) 3) as [_ Hcancel].
  destruct (Hcancel eq_refl) as (Hmodel & Hdrag & _).
  split; [exact Hmodel|]. apply Hdrag.
  exists 1%nat, repr_B. split; reflexivity.
Defined.

Lemma release_frame_witness :
  selected drag_from_first <> Some 1%nat /\
  path_at_pos release_over_first <> Some 1%nat /\
  _model (on_button_release_event 10 6 standard_input_key decimal
            drag_from_first release_over_first 3) !! 1%nat
  = _model drag_from_first !! 1%nat.
Proof.
  assert (selected drag_from_first <> Some 1%nat) as Hs by discriminate.
  assert (path_at_pos release_over_first <> Some 1%nat) as Hp by discriminate.
  split; [exact Hs|]. split; [exact Hp|].
  destruct (release_frame 10 6 standard_input_key decimal
              drag_from_first release_over_first 3) as (_ & _ & _ & Hrows).
  apply Hrows; assumption.
Defined.

Lemma release_over_standard_input_witness :
  (selected drag_from_second = Some 1%nat /\
   _in_drag drag_from_second <> 0 /\
   _model drag_from_second !! 1%nat = Some repr_B /\
   0 < 10 /\ 0 < 6 /\ 200 - 10 * 6 < 165) /\
  _model (on_button_release_event 10 6 standard_input_key decimal
            drag_from_second (mkRelease (Some 0%nat) 165 200) 3)
  = [repr_A; set_in repr_B (Some "BackgroundImage")].
Proof.
  assert (_in_drag drag_from_second <> 0) as Hdrag by (simpl; lia).
  assert (0 < 10) as H10 by lia.
  assert (0 < 6) as H6 by lia.
  assert (200 - 10 * 6 < 165) as Hcx by lia.
  split; [repeat split; assumption|].
  destruct (release_over_standard_input 10 6 standard_input_key decimal
              drag_from_second (mkRelease (Some 0%nat) 165 200) 3 1 0 repr_B
              eq_refl Hdrag eq_refl eq_refl H10 H6 Hcx) as [_ Hmodel].
  exact Hmodel.
Defined.

Lemma press_starts_drag_at_first_hit_witness :
  merge_forward_model !! 0%nat = Some (merge [1] (-1)) /\
  (on_button_press_event 24 (fun _ => mkRect 0 0 100 48) 8
     merge_forward_model 0 (Some 0%nat) 40 10).1.2 = Some 0%nat.
Proof.
  split; [reflexivity|].
  pose proof (proj1 (press_starts_drag_at_first_hit 24
                       (fun _ => mkRect 0 0 100 48) 8 merge_forward_model 0 40 10)
                0%nat (merge [1] (-1)) eq_refl) as H.
  exact (proj1 H).
Defined.

Lemma connection_nodes_tile_the_row_witness :
  (merge_forward_model !! 0%nat = Some (merge [1] (-1)) /\
   24 = 2 * 12 /\ 0 < 12 /\
   rect_height (mkRect 0 0 100 48)
   = (get_size_vfunc 24 10 merge_forward_model (Some (merge [1] (-1)))).2 /\
   0 <= 1 /\ 0 <= 8 /\
   Z.abs (rect_y (mkRect 0 0 100 48)) + (1 + 1) * 24 + 8 < 16777216 /\
   Z.abs (rect_x (mkRect 0 0 100 48)
          + 24 * (Z.of_nat (length merge_forward_model) - Z.of_nat 0)) + 24
   < 16777216 /\
   Z.abs 40 < 16777216) /\
  do_connection_node 24 (fun _ => mkRect 0 0 100 48) 8 merge_forward_model 0 1 40 30
  = Some ([ (48, 28); (48, 44); (40, 36) ], true).
Proof.
  assert (24 = 2 * 12) as Hsize by reflexivity.
  assert (0 < 12) as Hhalf by lia.
  assert (0 <= 1) as Hinput by lia.
  assert (0 <= 8) as Hcon_w by lia.
  assert (Z.abs (rect_y (mkRect 0 0 100 48)) + (1 + 1) * 24 + 8 < 16777216)
    as Hy by reflexivity.
  assert (Z.abs (rect_x (mkRect 0 0 100 48)
                 + 24 * (Z.of_nat (length merge_forward_model) - Z.of_nat 0)) + 24
          < 16777216) as Hx by reflexivity.
  assert (Z.abs 40 < 16777216) as Hix by reflexivity.
  split; [repeat split; assumption|].
  exact (connection_nodes_tile_the_row 24 10 (fun _ => mkRect 0 0 100 48) 8
           merge_forward_model 0 (merge [1] (-1)) 1 40 30 12
           eq_refl Hsize Hhalf eq_refl Hinput Hcon_w Hy Hx Hix).
Defined.

(** Past 2^24 single precision no longer holds every pixel: the cell of a
    row at [y = 16777217] is taken to start at [16777216], and the first
    corner of its triangle is put at [16777220], one pixel above
    [y + 12 - 8]. *)
Lemma do_connection_node_rounds_far_rows :
  do_connection_node 24 (fun _ => mkRect 0 16777217 100 24) 8
    [gaussian_blur (-1) 1] 0 0 20 16777225
  = Some ([ (24, 16777220); (24, 16777236); (16, 16777228) ], true).
Proof. reflexivity. Qed.

Lemma straight_connection_end_witness :
  Z.abs 11 < 16777216 /\
  straight_connection 11 black_gc 2 100 50 36
  = [ draw_rectangle black_gc true 137 34 5 5; draw_line black_gc 50 36 139 36 ].
Proof.
  assert (Z.abs 11 < 16777216) as Htw by reflexivity.
  split; [exact Htw|].
  exact (straight_connection_end 11 black_gc 2 100 50 36 Htw).
Defined.

Lemma update_keeps_selection_witness :
  NoDup (child_address <$>
           [mkChild 10 true; mkChild 11 true; mkChild 12 false; mkChild 13 true]) /\
  get_selected
    (Some [mkChild 10 true; mkChild 11 true; mkChild 12 false; mkChild 13 true])
    (update
       (Some [mkChild 10 true; mkChild 11 true; mkChild 12 false; mkChild 13 true])
       (mkRows [10; 11]%nat (Some 1%nat)))
  = Some 11%nat.
Proof.
  assert (NoDup (child_address <$>
                   [mkChild 10 true; mkChild 11 true; mkChild 12 false;
                    mkChild 13 true])) as Hnd.
  { apply (@bool_decide_unpack _ (NoDup_dec _)). exact I. }
  split; [exact Hnd|].
  exact (update_keeps_selection
           [mkChild 10 true; mkChild 11 true; mkChild 12 false; mkChild 13 true]
           (mkRows [10; 11]%nat (Some 1%nat)) Hnd).
Defined.

Lemma remove_selected_selects_first_witness :
  get_selected (Some [mkChild 10 true; mkChild 11 true; mkChild 12 true])
               (mkRows [10; 11; 12]%nat (Some 1%nat)) = Some 11%nat /\
  (remove_selected (Some [mkChild 10 true; mkChild 11 true; mkChild 12 true])
                   (mkRows [10; 11; 12]%nat (Some 1%nat))).1
  = Some [mkChild 10 true; mkChild 12 true].
Proof.
  split; [reflexivity|].
  pose proof (remove_selected_selects_first
                [mkChild 10 true; mkChild 11 true; mkChild 12 true]
                (mkRows [10; 11; 12]%nat (Some 1%nat)) 11 eq_refl) as H.
  exact (proj1 H).
Defined.

Lemma select_then_get_selected_witness :
  10%nat ∈ primitive_rows (mkRows [10; 11]%nat (Some 1%nat)) /\
  get_selected (Some [mkChild 10 true; mkChild 11 true])
               (select 10 (mkRows [10; 11]%nat (Some 1%nat))) = Some 10%nat.
Proof.
  assert (10%nat ∈ primitive_rows (mkRows [10; 11]%nat (Some 1%nat))) as Hin
    by (simpl; left).
  split; [exact Hin|].
  exact (proj1 (select_then_get_selected [mkChild 10 true; mkChild 11 true]
                  (mkRows [10; 11]%nat (Some 1%nat)) 10) Hin).
Defined.

Lemma update_selection_marks_used_filters_witness :
  filter_rows (mkFilterList [mkFilterRow 7 0; mkFilterRow 8 0] None) !! 0%nat
  = Some (mkFilterRow 7 0) /\
  (exists obj,
      obj ∈ [mkObject true true true (Some 7%nat); mkObject true true false None]
      /\ counted obj = true /\ filter_set obj = true
      /\ getFilter obj = Some 7%nat) /\
  filter_rows
    (update_selection
       [mkObject true true true (Some 7%nat); mkObject true true false None]
       (mkFilterList [mkFilterRow 7 0; mkFilterRow 8 0] None)) !! 0%nat
  = Some (mkFilterRow 7
            (Z.of_nat (size (used_filters
               [mkObject true true true (Some 7%nat);
                mkObject true true false None])))).
Proof.
  assert (exists obj,
             obj ∈ [mkObject true true true (Some 7%nat);
                     mkObject true true false None]
             /\ counted obj = true /\ filter_set obj = true
             /\ getFilter obj = Some 7%nat) as Huse.
  { exists (mkObject true true true (Some 7%nat)).
    split; [left|]. repeat split. }
  split; [reflexivity|]. split; [exact Huse|].
  destruct (update_selection_marks_used_filters
              [mkObject true true true (Some 7%nat); mkObject true true false None]
              (mkFilterList [mkFilterRow 7 0; mkFilterRow 8 0] None)
              0 (mkFilterRow 7 0) eq_refl) as [Hin _].
  exact (proj1 (Hin Huse)).
Defined.

Lemma update_selection_selects_common_filter_witness :
  NoDup (row_filter <$> [mkFilterRow 7 0; mkFilterRow 8 0]) /\
  filter_selected
    (update_selection [mkObject true true true (Some 8%nat)]
       (mkFilterList [mkFilterRow 7 0; mkFilterRow 8 0] None))
  = Some 1%nat.
Proof.
  assert (NoDup (row_filter <$> [mkFilterRow 7 0; mkFilterRow 8 0])) as Hnd.
  { apply (@bool_decide_unpack _ (NoDup_dec _)). exact I. }
  split; [exact Hnd|].
  apply (proj2 (update_selection_selects_common_filter
                  [mkObject true true true (Some 8%nat)]
                  (mkFilterList [mkFilterRow 7 0; mkFilterRow 8 0] None))
           1%nat (mkFilterRow 8 0) Hnd eq_refl).
  - exists (mkObject true true true (Some 8%nat)). split; [left | reflexivity].
  - intros obj Hin _. apply list_elem_of_singleton in Hin. subst obj.
    split; reflexivity.
Defined.

Lemma on_source_changed_same_source_witness :
  head [SPFePointLight] <> Some SPOtherLightChild /\
  on_source_changed (fun _ => SPFeSpotLight) false (Some [SPFePointLight])
    (light_set_from_attribute false 0 [SPFePointLight])
  = Some [SPFePointLight].
Proof.
  assert (head [SPFePointLight] <> Some SPOtherLightChild) as Hne
    by discriminate.
  split; [exact Hne|].
  exact (proj1 (on_source_changed_same_source (fun _ => SPFeSpotLight)
                  [SPFePointLight]) Hne).
Defined.

Lemma on_source_changed_replaces_source_witness :
  0 <= 2 <= 2 /\
  light_source_row (head [SPFePointLight]) <> 2 /\
  on_source_changed (fun _ => SPFeSpotLight) false (Some [SPFePointLight]) 2
  = Some [SPFeSpotLight].
Proof.
  assert (0 <= 2 <= 2) as Hls by lia.
  assert (light_source_row (head [SPFePointLight]) <> 2) as Hne by discriminate.
  split; [exact Hls|]. split; [exact Hne|].
  apply (proj2 (on_source_changed_replaces_source (fun _ => SPFeSpotLight)
                  [SPFePointLight] 2 Hls Hne)).
  simpl. lia.
Defined.

Lemma check_button_round_trip_witness :
  ("noStitch" = _true_val (mkCheckButton "stitch" "noStitch" true) \/
   "noStitch" = _false_val (mkCheckButton "stitch" "noStitch" true)) /\
  check_get_as_attribute
    (check_set_from_attribute (mkCheckButton "stitch" "noStitch" true)
       (Some "noStitch"))
  = "noStitch"%string.
Proof.
  assert ("noStitch" = _true_val (mkCheckButton "stitch" "noStitch" true) \/
          "noStitch" = _false_val (mkCheckButton "stitch" "noStitch" true)) as H
    by (right; reflexivity).
  split; [exact H|].
  exact (proj1 (check_button_round_trip (mkCheckButton "stitch" "noStitch" true)
                  "noStitch") H).
Defined.

Lemma color_button_round_trip_witness :
  (0 <= 255 <= 255 /\ 0 <= 128 <= 255 /\ 0 <= 0 <= 255) /\
  color_get_as_attribute (color_set_from_rgb 255 128 0) = "rgb(255,128,0)"%string.
Proof.
  assert (0 <= 255 <= 255) as Hr by lia.
  assert (0 <= 128 <= 255) as Hg by lia.
  assert (0 <= 0 <= 255) as Hb by lia.
  split; [repeat split; lia|].
  exact (proj2 (proj1 color_button_round_trip 255 128 0 Hr Hg Hb)).
Defined.

Lemma matrix_update_shows_values_witness :
  (matrix_locked Z (mkMatrix Z false 0 []) = false /\ 0 <= 2 /\ 0 <= 2 <= 5) /\
  get_values Z 0
    (matrix_update Z 0 1 (mkMatrix Z false 0 []) (Some [5; 6]) 2 2) !! 3%nat
  = Some 1.
Proof.
  assert (0 <= 2) as Hrows by lia.
  assert (0 <= 2 <= 5) as Hcols by lia.
  split; [repeat split; lia|].
  destruct (matrix_update_shows_values Z 0 1 (mkMatrix Z false 0 []) [5; 6] 2 2
              eq_refl Hrows Hcols) as (_ & _ & Hcell).
  apply (Hcell 1%nat 1%nat); lia.
Defined.

Lemma set_values_then_get_values_witness :
  Forall (fun row => (2 <= length row)%nat) [[1; 2; 0; 0; 0]; [3; 4; 0; 0; 0]] /\
  get_values Z 0
    (set_values Z 0 [9; 8; 7]
       (mkMatrix Z false 2 [[1; 2; 0; 0; 0]; [3; 4; 0; 0; 0]]))
  = [9; 8; 7; 4].
Proof.
  assert (Forall (fun row : list Z => (2 <= length row)%nat)
            [[1; 2; 0; 0; 0]; [3; 4; 0; 0; 0]]) as Hwf.
  { repeat constructor; simpl; lia. }
  split; [exact Hwf|].
  exact (proj1 (set_values_then_get_values Z 0 [9; 8; 7]
                  (mkMatrix Z false 2 [[1; 2; 0; 0; 0]; [3; 4; 0; 0; 0]]) Hwf)).
Defined.

Lemma matrix_set_from_attribute_grid_witness :
  (matrix_locked Z (mkMatrix Z false 0 []) = false /\
   (tree_columns Z (mkMatrix Z false 0 []) <= 5)%nat) /\
  tree_columns Z
    (matrix_set_from_attribute Z 0 1 (mkMatrix Z false 0 [])
       (Some (SPFeConvolveMatrix Z 7 None [])))
  = 5%nat /\
  length (matrix_rows Z
            (matrix_set_from_attribute Z 0 1 (mkMatrix Z false 0 [])
               (Some (SPFeConvolveMatrix Z 7 None []))))
  = 5%nat.
Proof.
  assert (tree_columns Z (mkMatrix Z false 0 []) <= 5)%nat as Hcols
    by (simpl; lia).
  split; [split; [reflexivity | exact Hcols]|].
  destruct (matrix_set_from_attribute_grid Z 0 1 (mkMatrix Z false 0 [])
              (Some (SPFeConvolveMatrix Z 7 None [])) eq_refl Hcols
              (Forall_nil_2 _)) as (_ & _ & Hc & Hr).
  split; [exact Hc | exact Hr].
Defined.

